(** * app-tts-mvp: the client-side reconciliation and text-composition core

    A shallow embedding of the Pinia store [src/stores/keyboard.ts] and of
    the two Vue components that drive it (the application shell with the
    Win+Esc hotkey logic, and the playback controls with the continuous-play
    watcher), followed by the properties of the design document that can be
    settled on that code.

    Conventions.
    - A JavaScript string is the list of its UTF-16 code units, so that
      [length], [slice], [startsWith] and the index of a regular-expression
      match count what the program counts (a Cyrillic letter is one unit).
    - The store is a record; an action is a function from stores to stores.
      An [async] action is cut at its [await]: one function for what runs
      before it and one for the continuation, which takes the backend's
      answer as an argument.
    - What the environment decides ([Date.now()], [Math.random()], the
      answers of window queries, the number of arguments the engine accepts
      in one call) is an argument of the function that reads it. *)

From Stdlib Require Import ZArith NArith String Ascii DecimalString Lia.
From stdpp Require Import base option list sorting gmap.

Local Open Scope Z_scope.

(** ** JavaScript strings *)

Module JsString.

Definition jsstring : Type := list N.

(** Decoding of a literal of this file (UTF-8 bytes) into code units. Only
    one- and two-byte sequences occur in the literals of the program. *)
Fixpoint utf16_of_bytes (bs : list N) : jsstring :=
  match bs with
  | [] => []
  | b1 :: rest =>
      if (b1 <? 128)%N then b1 :: utf16_of_bytes rest
      else match rest with
           | b2 :: rest' =>
               (N.lor (N.shiftl (N.land b1 31) 6) (N.land b2 63))
                 :: utf16_of_bytes rest'
           | [] => [b1]
           end
  end.

Definition js (s : string) : jsstring :=
  utf16_of_bytes (map N_of_ascii (list_ascii_of_string s)).

Arguments js : simpl never.

(** [s.startsWith(p)] *)
Fixpoint startsWith (p s : jsstring) : bool :=
  match p, s with
  | [], _ => true
  | _ :: _, [] => false
  | a :: p', b :: s' => if decide (a = b) then startsWith p' s' else false
  end.

(** [s.includes(p)] *)
Fixpoint includes (p s : jsstring) : bool :=
  startsWith p s ||
  match s with
  | [] => false
  | _ :: s' => includes p s'
  end.

(** [s.slice(0, -1)] *)
Definition slice_0_m1 (s : jsstring) : jsstring := removelast s.

(** [s.slice(n)] and [s.slice(0, n)] for [0 <= n] *)
Definition slice_from (n : nat) (s : jsstring) : jsstring := drop n s.
Definition slice_to (n : nat) (s : jsstring) : jsstring := take n s.

(** [String.prototype.toUpperCase] and [toLowerCase], one code unit at a
    time, on the two alphabets the translator produces: Basic Latin and the
    Russian letters U+0410..U+044F with U+0401/U+0451. Any other unit is
    left as it is. *)
Definition upper_unit (c : N) : N :=
  if ((97 <=? c) && (c <=? 122))%N then (c - 32)%N
  else if ((1072 <=? c) && (c <=? 1103))%N then (c - 32)%N
  else if (c =? 1105)%N then 1025%N
  else c.

Definition lower_unit (c : N) : N :=
  if ((65 <=? c) && (c <=? 90))%N then (c + 32)%N
  else if ((1040 <=? c) && (c <=? 1071))%N then (c + 32)%N
  else if (c =? 1025)%N then 1105%N
  else c.

Definition toUpperCase (s : jsstring) : jsstring := map upper_unit s.
Definition toLowerCase (s : jsstring) : jsstring := map lower_unit s.

(** The first index matched by the regular expression [/[.?!]/]. *)
Definition is_terminator (c : N) : bool :=
  bool_decide (c = 46%N) || bool_decide (c = 63%N) || bool_decide (c = 33%N).

Fixpoint match_terminator (s : jsstring) : option nat :=
  match s with
  | [] => None
  | c :: s' => if is_terminator c then Some 0%nat
               else S <$> match_terminator s'
  end.

End JsString.

Import JsString.

(** ** Data model *)

Record KeyEvent := mkKeyEvent {
  vk_code : Z;
  key_name : jsstring;
  timestamp : Z;
  seq_num : Z;
}.

Record KeysResponse := mkKeysResponse {
  keys : list KeyEvent;
  latest_key : option KeyEvent;
}.

Inductive TtsMessageStatus := queued | playing | completed.

Record TtsMessage := mkTtsMessage {
  id : jsstring;
  text : jsstring;
  msg_timestamp : Z;
  status : TtsMessageStatus;
  locked : bool;
}.

Inductive Lang := ru | en.
Inductive HotkeyMode := background_blocking | overlay_call.
Inductive ToastType := error | warning | info.

Record Toast := mkToast {
  show : bool;
  message : jsstring;
  type : ToastType;
}.

#[global] Instance TtsMessageStatus_eq_dec : EqDecision TtsMessageStatus.
Proof. solve_decision. Defined.
#[global] Instance Lang_eq_dec : EqDecision Lang.
Proof. solve_decision. Defined.
#[global] Instance HotkeyMode_eq_dec : EqDecision HotkeyMode.
Proof. solve_decision. Defined.
#[global] Instance ToastType_eq_dec : EqDecision ToastType.
Proof. solve_decision. Defined.
#[global] Instance TtsMessage_eq_dec : EqDecision TtsMessage.
Proof. solve_decision. Defined.

(** The state of the store. Fields that no action modelled below reads or
    writes (poll interval, provider name, listener flags, ...) are left out. *)
Record Store := mkStore {
  blockingEnabled : bool;
  hotkeyMode : HotkeyMode;
  capsLock : bool;
  interceptedKeys : list KeyEvent;
  latestKey : option KeyEvent;
  interceptedText : jsstring;
  lastProcessedSeqNum : Z;
  fetchingKeys : bool;
  pendingTextUpdate : jsstring;
  textUpdateScheduled : bool;
  isPlaying : bool;
  continuousPlay : bool;
  inputLanguage : Lang;
  ttsHistory : list TtsMessage;
  toast : Toast;
}.

Definition initialStore : Store :=
  {| blockingEnabled := false; hotkeyMode := overlay_call;
     capsLock := false;
     interceptedKeys := []; latestKey := None; interceptedText := [];
     lastProcessedSeqNum := -1; fetchingKeys := false;
     pendingTextUpdate := []; textUpdateScheduled := false;
     isPlaying := false; continuousPlay := false; inputLanguage := en;
     ttsHistory := [];
     toast := {| show := false; message := []; type := error |} |}.

(** Field assignments. *)
Definition set_interceptedKeys (v : list KeyEvent) (s : Store) : Store :=
  mkStore (blockingEnabled s) (hotkeyMode s)
    (capsLock s) v (latestKey s) (interceptedText s) (lastProcessedSeqNum s)
    (fetchingKeys s) (pendingTextUpdate s) (textUpdateScheduled s)
    (isPlaying s) (continuousPlay s) (inputLanguage s) (ttsHistory s) (toast s).

Definition set_latestKey (v : option KeyEvent) (s : Store) : Store :=
  mkStore (blockingEnabled s) (hotkeyMode s)
    (capsLock s) (interceptedKeys s) v (interceptedText s) (lastProcessedSeqNum s)
    (fetchingKeys s) (pendingTextUpdate s) (textUpdateScheduled s)
    (isPlaying s) (continuousPlay s) (inputLanguage s) (ttsHistory s) (toast s).

Definition set_interceptedText (v : jsstring) (s : Store) : Store :=
  mkStore (blockingEnabled s) (hotkeyMode s)
    (capsLock s) (interceptedKeys s) (latestKey s) v (lastProcessedSeqNum s)
    (fetchingKeys s) (pendingTextUpdate s) (textUpdateScheduled s)
    (isPlaying s) (continuousPlay s) (inputLanguage s) (ttsHistory s) (toast s).

Definition set_lastProcessedSeqNum (v : Z) (s : Store) : Store :=
  mkStore (blockingEnabled s) (hotkeyMode s)
    (capsLock s) (interceptedKeys s) (latestKey s) (interceptedText s) v
    (fetchingKeys s) (pendingTextUpdate s) (textUpdateScheduled s)
    (isPlaying s) (continuousPlay s) (inputLanguage s) (ttsHistory s) (toast s).

Definition set_fetchingKeys (v : bool) (s : Store) : Store :=
  mkStore (blockingEnabled s) (hotkeyMode s)
    (capsLock s) (interceptedKeys s) (latestKey s) (interceptedText s)
    (lastProcessedSeqNum s) v (pendingTextUpdate s) (textUpdateScheduled s)
    (isPlaying s) (continuousPlay s) (inputLanguage s) (ttsHistory s) (toast s).

Definition set_pendingTextUpdate (v : jsstring) (s : Store) : Store :=
  mkStore (blockingEnabled s) (hotkeyMode s)
    (capsLock s) (interceptedKeys s) (latestKey s) (interceptedText s)
    (lastProcessedSeqNum s) (fetchingKeys s) v (textUpdateScheduled s)
    (isPlaying s) (continuousPlay s) (inputLanguage s) (ttsHistory s) (toast s).

Definition set_textUpdateScheduled (v : bool) (s : Store) : Store :=
  mkStore (blockingEnabled s) (hotkeyMode s)
    (capsLock s) (interceptedKeys s) (latestKey s) (interceptedText s)
    (lastProcessedSeqNum s) (fetchingKeys s) (pendingTextUpdate s) v
    (isPlaying s) (continuousPlay s) (inputLanguage s) (ttsHistory s) (toast s).

Definition set_blockingEnabled (v : bool) (s : Store) : Store :=
  mkStore v (hotkeyMode s)
    (capsLock s) (interceptedKeys s) (latestKey s) (interceptedText s)
    (lastProcessedSeqNum s) (fetchingKeys s) (pendingTextUpdate s)
    (textUpdateScheduled s) (isPlaying s) (continuousPlay s) (inputLanguage s)
    (ttsHistory s) (toast s).

Definition set_hotkeyMode (v : HotkeyMode) (s : Store) : Store :=
  mkStore (blockingEnabled s) v
    (capsLock s) (interceptedKeys s) (latestKey s) (interceptedText s)
    (lastProcessedSeqNum s) (fetchingKeys s) (pendingTextUpdate s)
    (textUpdateScheduled s) (isPlaying s) (continuousPlay s) (inputLanguage s)
    (ttsHistory s) (toast s).

Definition set_capsLock (v : bool) (s : Store) : Store :=
  mkStore (blockingEnabled s) (hotkeyMode s)
    v (interceptedKeys s) (latestKey s) (interceptedText s)
    (lastProcessedSeqNum s) (fetchingKeys s) (pendingTextUpdate s)
    (textUpdateScheduled s) (isPlaying s) (continuousPlay s) (inputLanguage s)
    (ttsHistory s) (toast s).

Definition set_inputLanguage (v : Lang) (s : Store) : Store :=
  mkStore (blockingEnabled s) (hotkeyMode s)
    (capsLock s) (interceptedKeys s) (latestKey s) (interceptedText s)
    (lastProcessedSeqNum s) (fetchingKeys s) (pendingTextUpdate s)
    (textUpdateScheduled s) (isPlaying s) (continuousPlay s) v
    (ttsHistory s) (toast s).

Definition set_isPlaying (v : bool) (s : Store) : Store :=
  mkStore (blockingEnabled s) (hotkeyMode s)
    (capsLock s) (interceptedKeys s) (latestKey s) (interceptedText s)
    (lastProcessedSeqNum s) (fetchingKeys s) (pendingTextUpdate s)
    (textUpdateScheduled s) v (continuousPlay s) (inputLanguage s)
    (ttsHistory s) (toast s).

Definition set_continuousPlay (v : bool) (s : Store) : Store :=
  mkStore (blockingEnabled s) (hotkeyMode s)
    (capsLock s) (interceptedKeys s) (latestKey s) (interceptedText s)
    (lastProcessedSeqNum s) (fetchingKeys s) (pendingTextUpdate s)
    (textUpdateScheduled s) (isPlaying s) v (inputLanguage s)
    (ttsHistory s) (toast s).

Definition set_ttsHistory (v : list TtsMessage) (s : Store) : Store :=
  mkStore (blockingEnabled s) (hotkeyMode s)
    (capsLock s) (interceptedKeys s) (latestKey s) (interceptedText s)
    (lastProcessedSeqNum s) (fetchingKeys s) (pendingTextUpdate s)
    (textUpdateScheduled s) (isPlaying s) (continuousPlay s) (inputLanguage s)
    v (toast s).

Definition set_toast (v : Toast) (s : Store) : Store :=
  mkStore (blockingEnabled s) (hotkeyMode s)
    (capsLock s) (interceptedKeys s) (latestKey s) (interceptedText s)
    (lastProcessedSeqNum s) (fetchingKeys s) (pendingTextUpdate s)
    (textUpdateScheduled s) (isPlaying s) (continuousPlay s) (inputLanguage s)
    (ttsHistory s) v.

(** ** Locale key translator and batched text mutator *)

(** The [ruLayout] object of [processInterceptedKey] (QWERTY to ЙЦУКЕН). *)
Definition ruLayout_entries : list (string * string) :=
  [ ("Q","Й"); ("W","Ц"); ("E","У"); ("R","К"); ("T","Е"); ("Y","Н");
    ("U","Г"); ("I","Ш"); ("O","Щ"); ("P","З");
    ("A","Ф"); ("S","Ы"); ("D","В"); ("F","А"); ("G","П"); ("H","Р");
    ("J","О"); ("K","Л"); ("L","Д");
    ("Z","Я"); ("X","Ч"); ("C","С"); ("V","М"); ("B","И"); ("N","Т");
    ("M","Ь");
    ("q","й"); ("w","ц"); ("e","у"); ("r","к"); ("t","е"); ("y","н");
    ("u","г"); ("i","ш"); ("o","щ"); ("p","з");
    ("a","ф"); ("s","ы"); ("d","в"); ("f","а"); ("g","п"); ("h","р");
    ("j","о"); ("k","л"); ("l","д");
    ("z","я"); ("x","ч"); ("c","с"); ("v","м"); ("b","и"); ("n","т");
    ("m","ь") ]%string.

Definition ruLayout : gmap jsstring jsstring :=
  list_to_map (map (fun p => (js (fst p), js (snd p))) ruLayout_entries).

(** [this.pendingTextUpdate += s] *)
Definition append_pending (s : jsstring) (st : Store) : Store :=
  set_pendingTextUpdate (pendingTextUpdate st ++ s) st.

(** [(this.inputLanguage === 'ru') ? a : b] *)
Definition by_lang (st : Store) (a b : string) : jsstring :=
  match inputLanguage st with ru => js a | en => js b end.

Definition processInterceptedKey (key : KeyEvent) (st : Store) : Store :=
  let name := key_name key in
  if includes (js "Win+Esc") name then st
  else if decide (name = js "Backspace") then
    set_pendingTextUpdate []
      (set_interceptedText (slice_0_m1 (interceptedText st)) st)
  else if decide (name = js "Enter") then append_pending [10%N] st
  else if decide (name = js "Space") then append_pending (js " ") st
  else if decide (name = js "Tab") then append_pending [9%N] st
  else if decide (name = js "Comma") then append_pending (by_lang st "б" ",") st
  else if decide (name = js "Period") then append_pending (by_lang st "ю" ".") st
  else if decide (name = js "Slash") then append_pending (by_lang st "." "/") st
  else if decide (name = js "Semicolon") then append_pending (by_lang st "ж" ";") st
  else if decide (name = js "Quote") then append_pending (by_lang st "э" "'") st
  else if decide (name = js "Backtick") then append_pending (by_lang st "ё" "`") st
  else if decide (name = js "Left Bracket") then append_pending (by_lang st "х" "[") st
  else if decide (name = js "Right Bracket") then append_pending (by_lang st "ъ" "]") st
  else if decide (name = js "Backslash") then append_pending (by_lang st "ё" "\") st
  else if decide (name = js "Minus") then append_pending (by_lang st "-" "-") st
  else if decide (name = js "Equals") then append_pending (by_lang st "=" "=") st
  else if startsWith (js "Digit ") name then
    append_pending (slice_from 6 name) st
  else if decide (length name = 1%nat) then
    let char := name in
    let result :=
      match inputLanguage st with
      | ru => match ruLayout !! char with
              | Some r => if decide (r = []) then char else r
              | None => char
              end
      | en => char
      end in
    if capsLock st then append_pending (toUpperCase result) st
    else append_pending (toLowerCase result) st
  else st.

(** [scheduleTextUpdate]: the synchronous part sets the flag; the callback
    handed to [requestAnimationFrame] is [textUpdateFrame], run by the
    event loop at the next frame. *)
Definition scheduleTextUpdate (st : Store) : Store :=
  if textUpdateScheduled st then st else set_textUpdateScheduled true st.

Definition textUpdateFrame (st : Store) : Store :=
  set_textUpdateScheduled false
    (set_pendingTextUpdate []
       (set_interceptedText (interceptedText st ++ pendingTextUpdate st) st)).

(** ** Sequence watermark tracker: push listener and pull action *)

(** [[...ks].sort((a, b) => a.seq_num - b.seq_num)]: a stable sort, written
    as an insertion sort that keeps the arrival order of equal [seq_num]. *)
Fixpoint insert_by_seq (k : KeyEvent) (l : list KeyEvent) : list KeyEvent :=
  match l with
  | [] => [k]
  | x :: l' => if seq_num k <=? seq_num x then k :: l
               else x :: insert_by_seq k l'
  end.

Definition sort_by_seq (l : list KeyEvent) : list KeyEvent :=
  foldr insert_by_seq [] l.

(** [Math.max(...xs)]. A spread call passes one argument per element, and
    an engine accepts only so many: with more than [argLimit] of them the
    call throws a [RangeError], which is the outer [None]. Inside, [None]
    stands for the [-Infinity] of an empty call. *)
Definition Math_max (argLimit : Z) (xs : list Z) : option (option Z) :=
  if argLimit <? Z.of_nat (length xs) then None
  else Some match xs with
            | [] => None
            | x :: xs' => Some (foldl Z.max x xs')
            end.

(** The listener registered for ['key_intercepted']. *)
Definition on_key_intercepted (key : KeyEvent) (st : Store) : Store :=
  let st1 :=
    set_lastProcessedSeqNum (Z.max (lastProcessedSeqNum st) (seq_num key)) st in
  let st2 := set_interceptedKeys (interceptedKeys st1 ++ [key]) st1 in
  let st3 := set_latestKey (Some key) st2 in
  if blockingEnabled st3
  then scheduleTextUpdate (processInterceptedKey key st3)
  else st3.

(** [fetchKeys] up to its [await]: [None] when a call is already in flight,
    otherwise the [afterSeqNum] argument sent to the backend ([None] inside
    is [null]). *)
Definition fetchKeys_begin (st : Store) : option (option Z) * Store :=
  if fetchingKeys st then (None, st)
  else
    let st1 := set_fetchingKeys true st in
    let afterSeq :=
      if 0 <=? lastProcessedSeqNum st1 then Some (lastProcessedSeqNum st1)
      else None in
    (Some afterSeq, st1).

(** [fetchKeys] after its [await]; [response = None] is a rejected command
    (the [catch] branch only logs). When [Math.max] throws, the keys of the
    batch have been processed already, and the same [catch] branch is
    entered before the watermark is assigned and the flush scheduled. The
    [finally] block runs in every case. *)
Definition fetchKeys_resume (argLimit : Z) (response : option KeysResponse)
    (st : Store) : Store :=
  let st' :=
    match response with
    | Some r =>
        if blockingEnabled st && bool_decide (0 < length (keys r))%nat then
          let sortedKeys := sort_by_seq (keys r) in
          let st1 := foldl (fun s k => processInterceptedKey k s) st sortedKeys in
          match Math_max argLimit (map seq_num sortedKeys) with
          | Some newLastSeq =>
              let st2 :=
                match newLastSeq with
                | Some m => set_lastProcessedSeqNum m st1
                | None => st1
                end in
              scheduleTextUpdate st2
          | None => st1
          end
        else st
    | None => st
    end in
  set_fetchingKeys false st'.

(** The listener registered for ['blocking_changed'] (the window behaviour
    it then applies does not touch the fields kept here). *)
Definition on_blocking_changed (enabled : bool) (st : Store) : Store :=
  set_blockingEnabled enabled st.

(** The listeners registered for ['caps_lock_changed'] and
    ['input_language_changed']. *)
Definition on_caps_lock_changed (enabled : bool) (st : Store) : Store :=
  set_capsLock enabled st.

Definition on_input_language_changed (lang : Lang) (st : Store) : Store :=
  set_inputLanguage lang st.

(** What the event loop can run next on the key path: a pushed event, the
    start of a pull, the answer to the outstanding pull, or the animation
    frame that runs the scheduled flush. *)
Inductive KeyStep :=
| PushKey (key : KeyEvent)
| PullBegin
| PullEnd (response : option KeysResponse)
| Frame.

Definition key_step (argLimit : Z) (e : KeyStep) (st : Store) : Store :=
  match e with
  | PushKey key => on_key_intercepted key st
  | PullBegin => snd (fetchKeys_begin st)
  | PullEnd response =>
      if fetchingKeys st then fetchKeys_resume argLimit response st else st
  | Frame => if textUpdateScheduled st then textUpdateFrame st else st
  end.

Definition key_run (argLimit : Z) (es : list KeyStep) (st : Store) : Store :=
  foldl (fun s e => key_step argLimit e s) st es.


(** ** TTS queue and history reconciler *)

Definition set_id (v : jsstring) (m : TtsMessage) : TtsMessage :=
  mkTtsMessage v (text m) (msg_timestamp m) (status m) (locked m).

Definition set_status (v : TtsMessageStatus) (m : TtsMessage) : TtsMessage :=
  mkTtsMessage (id m) (text m) (msg_timestamp m) v (locked m).

(** [showToast(message, type)]: the timer that hides the toast later is the
    separate callback [toast_timeout]. *)
Definition showToast (msg : jsstring) (ty : ToastType) (st : Store) : Store :=
  set_toast {| show := true; message := msg; type := ty |} st.

Definition toast_timeout (st : Store) : Store :=
  set_toast {| show := false; message := message (toast st);
               type := type (toast st) |} st.

(** The predicate of the second [find] of [findMessage]. *)
Definition is_temp_pending (m : TtsMessage) : bool :=
  startsWith (js "temp-") (id m)
  && (bool_decide (status m = queued) || bool_decide (status m = playing)).

(** [findMessage(id)]. The messages of the history are objects mutated in
    place, so the result names the message by its position in the array and
    carries the array after the assignment [tempMsg.id = id]. *)
Definition findMessage (id0 : jsstring) (h : list TtsMessage)
  : option nat * bool * list TtsMessage :=
  match list_find (fun m => id m = id0) h with
  | Some (i, _) => (Some i, false, h)
  | None =>
      match list_find (fun m => is_temp_pending m = true) h with
      | Some (i, _) => (Some i, true, alter (set_id id0) i h)
      | None => (None, false, h)
      end
  end.

(** [if (msg) { msg.status = v }] *)
Definition assign_status (v : TtsMessageStatus) (msg : option nat)
    (h : list TtsMessage) : list TtsMessage :=
  match msg with
  | Some i => alter (set_status v) i h
  | None => h
  end.

Definition on_tts_started (id0 : jsstring) (st : Store) : Store :=
  let '(msg, _, h) := findMessage id0 (ttsHistory st) in
  set_ttsHistory (assign_status playing msg h) st.

Definition on_tts_completed (id0 : jsstring) (st : Store) : Store :=
  let '(msg, _, h) := findMessage id0 (ttsHistory st) in
  set_ttsHistory (assign_status completed msg h) st.

Definition on_tts_failed (id0 err : jsstring) (st : Store) : Store :=
  let '(msg, _, h) := findMessage id0 (ttsHistory st) in
  showToast err error (set_ttsHistory (assign_status completed msg h) st).

Definition on_tts_cancelled (id0 : jsstring) (st : Store) : Store :=
  let '(msg, _, h) := findMessage id0 (ttsHistory st) in
  set_ttsHistory (assign_status completed msg h) st.

(** Decimal digits of [Date.now()], as template literals print a number. *)
Definition decimal (z : Z) : jsstring :=
  js (DecimalString.NilZero.string_of_int (Z.to_int z)).

(** [speakTextWithHistory(text)], synchronous part. [now] is [Date.now()]
    and [rnd] is [Math.random().toString(36).slice(2, 9)]. The provisional
    id is returned because both promise callbacks capture it. *)
Definition speakTextWithHistory (txt : jsstring) (now : Z) (rnd : jsstring)
    (st : Store) : jsstring * Store :=
  let tempId := js "temp-" ++ decimal now ++ js "-" ++ rnd in
  let tempMessage :=
    {| id := tempId; text := txt; msg_timestamp := now / 1000;
       status := queued; locked := false |} in
  (tempId, set_ttsHistory (tempMessage :: ttsHistory st) st).

(** The [.then] callback of [enqueue_tts]. *)
Definition enqueue_resolved (tempId realId : jsstring) (st : Store) : Store :=
  match list_find (fun m => id m = tempId) (ttsHistory st) with
  | Some (msgIndex, _) =>
      set_ttsHistory (alter (set_id realId) msgIndex (ttsHistory st)) st
  | None => st
  end.

(** The [.catch] callback of [enqueue_tts]; [err] is the error's text. *)
Definition enqueue_rejected (tempId err : jsstring) (st : Store) : Store :=
  showToast err error
    (set_ttsHistory (filter (fun m => id m ≠ tempId) (ttsHistory st)) st).

(** [fetchTtsHistory] after its [await]. *)
Definition merge_server_msg (localHistory : list TtsMessage)
    (mergedHistory : list TtsMessage) (serverMsg : TtsMessage)
  : list TtsMessage :=
  match list_find (fun m => id m = id serverMsg) localHistory with
  | Some (_, localMsg) => mergedHistory ++ [set_status (status localMsg) serverMsg]
  | None => mergedHistory ++ [serverMsg]
  end.

Definition merge_local_msg (serverMap : gmap jsstring TtsMessage)
    (mergedHistory : list TtsMessage) (localMsg : TtsMessage)
  : list TtsMessage :=
  if negb (bool_decide (is_Some (serverMap !! id localMsg)))
     && startsWith (js "temp-") (id localMsg)
  then mergedHistory ++ [localMsg]
  else mergedHistory.

(** The loop that fills [serverMap]. *)
Definition serverMap_of (serverHistory : list TtsMessage)
  : gmap jsstring TtsMessage :=
  foldl (fun m msg => <[id msg := msg]> m) ∅ serverHistory.

Definition merge_history (serverHistory localHistory : list TtsMessage)
  : list TtsMessage :=
  let serverMap := serverMap_of serverHistory in
  let mergedHistory := foldl (merge_server_msg localHistory) [] serverHistory in
  foldl (merge_local_msg serverMap) mergedHistory localHistory.

Definition fetchTtsHistory_resume (response : option (list TtsMessage))
    (st : Store) : Store :=
  match response with
  | Some serverHistory =>
      set_ttsHistory (merge_history serverHistory (ttsHistory st)) st
  | None => st
  end.

(** The merge as the design words it: the server's list, each entry with
    the local status where the id is known locally, then the provisional
    local entries the server does not list. *)
Definition keep_local_status (localHistory : list TtsMessage)
    (s : TtsMessage) : TtsMessage :=
  match list_find (fun m => id m = id s) localHistory with
  | Some (_, l) => set_status (status l) s
  | None => s
  end.

Definition merge_as_described (serverHistory localHistory : list TtsMessage)
  : list TtsMessage :=
  map (keep_local_status localHistory) serverHistory
  ++ filter (fun l => startsWith (js "temp-") (id l) = true
                      /\ id l ∉ map id serverHistory) localHistory.

(** The status events pushed by the backend. *)
Inductive StatusEvent :=
| EvStarted
| EvCompleted
| EvFailed (err : jsstring)
| EvCancelled.

Definition on_tts_event (ev : StatusEvent) (id0 : jsstring) (st : Store)
  : Store :=
  match ev with
  | EvStarted => on_tts_started id0 st
  | EvCompleted => on_tts_completed id0 st
  | EvFailed err => on_tts_failed id0 err st
  | EvCancelled => on_tts_cancelled id0 st
  end.

Definition event_status (ev : StatusEvent) : TtsMessageStatus :=
  match ev with
  | EvStarted => playing
  | _ => completed
  end.

(** Everything on the client that touches the history. *)
Inductive TtsStep :=
| StatusPushed (ev : StatusEvent) (id0 : jsstring)
| Speak (txt : jsstring) (now : Z) (rnd : jsstring)
| EnqueueResolved (tempId realId : jsstring)
| EnqueueRejected (tempId err : jsstring)
| HistoryFetched (response : option (list TtsMessage)).

Definition tts_step (e : TtsStep) (st : Store) : Store :=
  match e with
  | StatusPushed ev id0 => on_tts_event ev id0 st
  | Speak txt now rnd => snd (speakTextWithHistory txt now rnd st)
  | EnqueueResolved tempId realId => enqueue_resolved tempId realId st
  | EnqueueRejected tempId err => enqueue_rejected tempId err st
  | HistoryFetched response => fetchTtsHistory_resume response st
  end.

Definition tts_run (es : list TtsStep) (st : Store) : Store :=
  foldl (fun s e => tts_step e s) st es.

Fixpoint count_if {A} (p : A -> bool) (l : list A) : nat :=
  match l with
  | [] => 0
  | x :: l' => (if p x then 1 else 0) + count_if p l'
  end.

Definition is_playing (m : TtsMessage) : bool := bool_decide (status m = playing).

Definition count_playing (h : list TtsMessage) : nat := count_if is_playing h.

(** ** Overlay hotkey: the Win+Esc handler of the application shell *)

Definition HOTKEY_DEBOUNCE_MS : Z := 300.

(** The answers of [isFocused()], [isVisible()] and [isMinimized()]. *)
Record WindowQuery := mkWindowQuery {
  isFocused : bool;
  isVisible : bool;
  isMinimized : bool;
}.

(** The branch the handler takes: [showWindowOverlay()],
    [hideWindowAndRestoreFocus()] or [window.setFocus()]. *)
Inductive WindowAction :=
| ShowWindowOverlay
| HideWindowAndRestoreFocus
| SetFocus.

(** The module-level variables of the shell that the hotkey path uses. *)
Record Shell := mkShell {
  lastHotkeyCallTime : Z;
  metaPressed : bool;
}.

Definition initialShell : Shell :=
  {| lastHotkeyCallTime := 0; metaPressed := false |}.

(** [handleWinEscHotkey()]; [now] is [Date.now()]. The debounce test and the
    assignment of [lastHotkeyCallTime] run before the first [await], so a
    second call always sees the time of the first. *)
Definition handleWinEscHotkey (now : Z) (q : WindowQuery) (st : Store)
    (sh : Shell) : option WindowAction * Shell :=
  if now - lastHotkeyCallTime sh <? HOTKEY_DEBOUNCE_MS then (None, sh)
  else
    let sh1 := {| lastHotkeyCallTime := now; metaPressed := metaPressed sh |} in
    if negb (bool_decide (hotkeyMode st = overlay_call)) then (None, sh1)
    else if isMinimized q || negb (isVisible q) then (Some ShowWindowOverlay, sh1)
    else if isFocused q then (Some HideWindowAndRestoreFocus, sh1)
    else (Some SetFocus, sh1).

(** [handleKeyDown] on the Meta key, and on Escape (the Win+Esc branch). *)
Definition keydown_Meta (sh : Shell) : Shell :=
  {| lastHotkeyCallTime := lastHotkeyCallTime sh; metaPressed := true |}.

Definition keydown_Escape (now : Z) (q : WindowQuery) (st : Store)
    (sh : Shell) : option WindowAction * Shell :=
  if metaPressed sh then
    if bool_decide (hotkeyMode st = overlay_call) then
      let '(a, sh1) := handleWinEscHotkey now q st sh in
      (a, {| lastHotkeyCallTime := lastHotkeyCallTime sh1;
             metaPressed := false |})
    else (None, sh)
  else (None, sh).

(** The listener registered for ['show_window_requested']. *)
Definition on_show_window_requested (now : Z) (q : WindowQuery) (st : Store)
    (sh : Shell) : option WindowAction * Shell :=
  if bool_decide (hotkeyMode st = overlay_call)
  then handleWinEscHotkey now q st sh
  else (None, sh).

(** The listener registered for ['hotkey_mode_changed']. *)
Definition on_hotkey_mode_changed (mode : HotkeyMode) (st : Store) : Store :=
  set_hotkeyMode mode st.

(** The two sources of a hotkey trigger: Win+Esc typed in the window (Meta
    down, then Escape down), or the hook's event. *)
Inductive HotkeySource := InWindow | FromHook.

Definition hotkey_trigger (src : HotkeySource) (now : Z) (q : WindowQuery)
    (st : Store) (sh : Shell) : option WindowAction * Shell :=
  match src with
  | InWindow => keydown_Escape now q st (keydown_Meta sh)
  | FromHook => on_show_window_requested now q st sh
  end.

(** Number of window transitions performed by a list of handler results. *)
Definition transitions (rs : list (option WindowAction)) : nat :=
  length (filter is_Some rs).

(** ** Continuous-play segmenter: the playback controls *)

(** [fetchTtsStatus] after its [await] (the provider name is not kept), and
    the listener registered for ['continuous_play_changed']. *)
Definition fetchTtsStatus_resume (is_speaking continuous_play : bool)
    (st : Store) : Store :=
  set_continuousPlay continuous_play (set_isPlaying is_speaking st).

Definition on_continuous_play_changed (enabled : bool) (st : Store) : Store :=
  set_continuousPlay enabled st.

(** What the watcher on [store.interceptedText] leaves behind: the value of
    its [isProcessingSpeech] flag, the assignment it handed to [nextTick]
    (if any), and the store. *)
Record Watched := mkWatched {
  isProcessingSpeech : bool;
  deferredText : option jsstring;
  storeAfter : Store;
}.

Definition watch_interceptedText (newText : jsstring) (now : Z)
    (rnd : jsstring) (processing : bool) (st : Store) : Watched :=
  if negb (continuousPlay st) || bool_decide (newText = []) || isPlaying st
     || processing
  then mkWatched processing None st
  else
    match match_terminator newText with
    | Some index =>
        let idx := (index + 1)%nat in
        let toSpeak := slice_to idx newText in
        let remaining := slice_from idx newText in
        mkWatched true (Some remaining)
          (snd (speakTextWithHistory toSpeak now rnd st))
    | None => mkWatched processing None st
    end.

(** The callback handed to [nextTick], and the one handed to [setTimeout]. *)
Definition run_deferredText (w : Watched) : Watched :=
  match deferredText w with
  | Some remaining =>
      mkWatched (isProcessingSpeech w) None
        (set_interceptedText remaining (storeAfter w))
  | None => w
  end.

Definition processing_timeout (w : Watched) : Watched :=
  mkWatched false (deferredText w) (storeAfter w).

(** [handlePlay]. What is read and computed before [await nextTick()]: the
    utterance and the text to keep ([None] when the field is empty). *)
Definition handlePlay_begin (st : Store) : option (jsstring * jsstring) :=
  let txt := interceptedText st in
  if bool_decide (txt = []) then None
  else if continuousPlay st then
    match match_terminator txt with
    | Some index =>
        let idx := (index + 1)%nat in
        Some (slice_to idx txt, slice_from idx txt)
    | None => Some (txt, [])
    end
  else Some (txt, []).

(** What runs after the await. *)
Definition handlePlay_resume (plan : option (jsstring * jsstring)) (now : Z)
    (rnd : jsstring) (st : Store) : Store :=
  match plan with
  | Some (toSpeak, remaining) =>
      snd (speakTextWithHistory toSpeak now rnd
             (set_interceptedText remaining st))
  | None => st
  end.

Definition handlePlay (now : Z) (rnd : jsstring) (st : Store) : Store :=
  handlePlay_resume (handlePlay_begin st) now rnd st.

(** ** Vocabulary of the statements and sample data *)



(** Sample data: a key event by name, and stores reached from the initial
    one through the listeners. *)
Definition key_named (name : string) (seq : Z) : KeyEvent :=
  {| vk_code := 0; key_name := js name; timestamp := 0; seq_num := seq |}.

Definition blockingStore : Store := on_blocking_changed true initialStore.

(** An argument limit for the examples (engines differ). *)
Definition sampleArgLimit : Z := 65535.

Definition ruCapsStore : Store :=
  on_key_intercepted (key_named "G" 0)
    (on_caps_lock_changed true (on_input_language_changed ru blockingStore)).

Definition history_store (h : list TtsMessage) : Store :=
  set_ttsHistory h initialStore.

Definition msg (i t : string) (s : TtsMessageStatus) : TtsMessage :=
  {| id := js i; text := js t; msg_timestamp := 0; status := s;
     locked := false |}.

(** The number of entries that are playing once a fetched history is
    merged in: the server's entries, each read with the local status where
    its id is known locally, and the provisional local entries that the
    server does not list. *)
Definition playing_after_refresh (serverHistory localHistory : list TtsMessage)
  : nat :=
  (count_if (fun s => is_playing (keep_local_status localHistory s))
     serverHistory
   + count_if (fun l => is_playing l
                        && bool_decide (startsWith (js "temp-") (id l) = true
                                        /\ id l ∉ map id serverHistory))
       localHistory)%nat.

(** When a step keeps the invariant: a [tts:started] event needs that no
    entry other than the one it marks is playing when it arrives (the
    handler marks its target and demotes nothing), and a fetched history
    needs that at most one entry is playing once it is merged in. The other
    steps need nothing. *)
Definition step_admissible (e : TtsStep) (h : list TtsMessage) : Prop :=
  match e with
  | StatusPushed EvStarted id0 =>
      match fst (fst (findMessage id0 h)) with
      | Some i => forall j m, h !! j = Some m -> status m = playing -> j = i
      | None => True
      end
  | HistoryFetched (Some serverHistory) =>
      (playing_after_refresh serverHistory h <= 1)%nat
  | _ => True
  end.

Fixpoint run_admissible (es : list TtsStep) (st : Store) : Prop :=
  match es with
  | [] => True
  | e :: es' =>
      step_admissible e (ttsHistory st) /\ run_admissible es' (tts_step e st)
  end.

Definition two_queued : Store :=
  tts_run
    [ Speak (js "one") 1700000000123 (js "k3j9x1a");
      EnqueueResolved (js "temp-1700000000123-k3j9x1a") (js "1");
      Speak (js "two") 1700000000456 (js "p0q8w2b");
      EnqueueResolved (js "temp-1700000000456-p0q8w2b") (js "2") ]
    initialStore.

Definition backgroundStore : Store :=
  on_hotkey_mode_changed background_blocking initialStore.

Definition hiddenWindow : WindowQuery :=
  {| isFocused := false; isVisible := false; isMinimized := true |}.
Definition focusedWindow : WindowQuery :=
  {| isFocused := true; isVisible := true; isMinimized := false |}.

(** The entry that [speakTextWithHistory] puts in front of the history. *)
Definition provisional (txt : jsstring) (now : Z) (rnd : jsstring)
  : TtsMessage :=
  {| id := js "temp-" ++ decimal now ++ js "-" ++ rnd; text := txt;
     msg_timestamp := now / 1000; status := queued; locked := false |}.

Definition continuousStore : Store := on_continuous_play_changed true initialStore.

(** The entries that carry a given id. *)
Definition has_id (k : jsstring) (m : TtsMessage) : bool :=
  bool_decide (id m = k).

(** A step that leaves the provisional id [tempId] on the entry that carries
    it, and brings it on no other entry: a status event that does not adopt
    that entry (an event whose id is unknown locally renames the newest
    provisional entry that is queued or playing); an enqueue that mints
    another id; the callbacks of another enqueue; a refresh whose answer
    does not list [tempId]. *)
Definition keeps_id (tempId : jsstring) (e : TtsStep) (h : list TtsMessage)
  : Prop :=
  match e with
  | StatusPushed _ id0 =>
      snd (fst (findMessage id0 h)) = true ->
      id0 <> tempId
      /\ forall i m, fst (fst (findMessage id0 h)) = Some i ->
                     h !! i = Some m -> id m <> tempId
  | Speak txt now rnd => id (provisional txt now rnd) <> tempId
  | EnqueueResolved t r => t <> tempId /\ r <> tempId
  | EnqueueRejected t _ => t <> tempId
  | HistoryFetched (Some serverHistory) =>
      forall s, s ∈ serverHistory -> id s <> tempId
  | HistoryFetched None => True
  end.

Fixpoint run_keeps_id (tempId : jsstring) (es : list TtsStep) (st : Store)
  : Prop :=
  match es with
  | [] => True
  | e :: es' =>
      keeps_id tempId e (ttsHistory st)
      /\ run_keeps_id tempId es' (tts_step e st)
  end.

(** ** Vocabulary: delivery of key events over the two channels *)

(** An answer that honours the request of a pull: its keys have
    non-negative sequence numbers, above [afterSeqNum] when one was sent. *)
Definition honours (afterSeq : option Z) (r : KeysResponse) : Prop :=
  forall k, k ∈ keys r ->
    0 <= seq_num k
    /\ match afterSeq with
       | Some w => w < seq_num k
       | None => True
       end.










(** The [afterSeqNum] of the outstanding request: a pull that starts
    replaces it by the one it sends. *)
Definition next_request (req : option Z) (e : KeyStep) (st : Store)
  : option Z :=
  match e with
  | PullBegin =>
      match fst (fetchKeys_begin st) with
      | Some afterSeq => afterSeq
      | None => req
      end
  | _ => req
  end.

(** A run without a race between the two channels: no push is handled
    while a pull is outstanding, and the answer to a pull honours its
    request, whose [afterSeqNum] is [req]. *)
Definition race_free_step (req : option Z) (e : KeyStep) (st : Store)
  : Prop :=
  match e with
  | PushKey _ => fetchingKeys st = false
  | PullEnd (Some r) => fetchingKeys st = true -> honours req r
  | _ => True
  end.

Fixpoint race_free (argLimit : Z) (req : option Z) (es : list KeyStep)
    (st : Store) : Prop :=
  match es with
  | [] => True
  | e :: es' =>
      race_free_step req e st
      /\ race_free argLimit (next_request req e st) es'
           (key_step argLimit e st)
  end.

(** A step of the push channel or of the renderer. *)
Definition push_or_frame (e : KeyStep) : Prop :=
  match e with
  | PushKey _ | Frame => True
  | _ => False
  end.

(** While a pull is outstanding, [req] is what it sent, computed from the
    watermark as it still is. *)
Definition request_matches (req : option Z) (st : Store) : Prop :=
  fetchingKeys st = true ->
  req = if 0 <=? lastProcessedSeqNum st then Some (lastProcessedSeqNum st)
        else None.




(** * Further code of the store and of the components *)

(** ** Key path: clearing, and what the translator emits *)

(** [clearKeys] after its [await]; [ok = false] is a rejected command (the
    [catch] branch only logs). *)
Definition clearKeys_resume (ok : bool) (st : Store) : Store :=
  if ok then
    set_fetchingKeys false
      (set_lastProcessedSeqNum (-1)
         (set_interceptedText []
            (set_latestKey None (set_interceptedKeys [] st))))
  else st.

(** What [processInterceptedKey] appends for a key under a layout and a
    caps-lock state, read off a run on an otherwise initial store. *)
Definition key_output (lang : Lang) (caps : bool) (key : KeyEvent) : jsstring :=
  pendingTextUpdate
    (processInterceptedKey key
       (set_capsLock caps (set_inputLanguage lang initialStore))).

(** The text the user has typed so far: what is rendered, then what waits
    for the next frame. *)
Definition intended (st : Store) : jsstring :=
  interceptedText st ++ pendingTextUpdate st.

(** The output of the keys pushed along a run, in push order. *)
Fixpoint typed (lang : Lang) (caps : bool) (es : list KeyStep) : jsstring :=
  match es with
  | [] => []
  | PushKey k :: es' => key_output lang caps k ++ typed lang caps es'
  | _ :: es' => typed lang caps es'
  end.


(** A step whose answer (if it is one) spreads within the argument limit. *)
Definition within_limit (argLimit : Z) (e : KeyStep) : Prop :=
  match e with
  | PullEnd (Some r) => Z.of_nat (length (keys r)) <= argLimit
  | _ => True
  end.

(** No pending text without a scheduled flush. *)
Definition flush_scheduled_if_pending (st : Store) : Prop :=
  pendingTextUpdate st <> [] -> textUpdateScheduled st = true.

(** The order in which a pulled batch is applied. *)
Definition seq_le (a b : KeyEvent) : Prop := seq_num a <= seq_num b.

(** ** History: display of the time stamp *)

(** The largest time value of a [Date], in milliseconds either side of the
    epoch: [new Date(v)] with [v] beyond it is an invalid date, whose
    [getTime()] is [NaN]. *)
Definition MAX_TIME_VALUE : Z := 8640000000000000.

(** [formatTimestamp(timestamp)]; [now] is [new Date().getTime()] and
    [localeString] stands for the [toLocaleDateString('ru-RU')] and
    [toLocaleTimeString('ru-RU', ...)] rendering of the last branch. With
    an invalid date the difference is [NaN], every comparison is false, and
    the last branch renders the invalid date. *)
Definition formatTimestamp (localeString : Z -> jsstring) (now : Z)
    (timestamp : Z) : jsstring :=
  if MAX_TIME_VALUE <? Z.abs (timestamp * 1000) then localeString timestamp
  else
    let diffMs := now - timestamp * 1000 in
    let diffMins := diffMs / 60000 in
    if diffMins <? 1 then js "только что"
    else if diffMins <? 60 then decimal diffMins ++ js " мин назад"
    else if diffMins <? 1440 then
      let hours := diffMins / 60 in
      decimal hours ++ js " ч назад"
    else localeString timestamp.

Definition without_id (m : TtsMessage) : TtsMessage := set_id [] m.

(** A message without its id and status: the fields a status event must
    keep. *)
Definition payload (m : TtsMessage) : jsstring * Z * bool :=
  (text m, msg_timestamp m, locked m).

(** ** Window behaviour of the store *)

(** The commands and window calls the store issues on this path. *)
Inductive BackendCall :=
| save_previous_window
| show_window_on_top
| send_to_background_and_restore_focus
| set_window_always_on_top (enabled : bool)
| window_unminimize
| window_show
| window_setFocus
| set_hotkey_mode (mode : HotkeyMode).

#[global] Instance BackendCall_eq_dec : EqDecision BackendCall.
Proof. solve_decision. Defined.

(** The store with the three window fields that [Store] above leaves out. *)
Record WindowStore := mkWindowStore {
  keyboard : Store;
  overlayPreviousWindowSaved : bool;
  alwaysOnTop : bool;
  autoShowOnBlock : bool;
}.

(** Calls awaited one after the other inside one [try] block: the first
    rejected one ends the block. [accepted] tells which calls resolve. *)
Fixpoint attempt (accepted : BackendCall -> bool) (cs : list BackendCall)
  : list BackendCall :=
  match cs with
  | [] => []
  | c :: cs' => c :: (if accepted c then attempt accepted cs' else [])
  end.

(** [showWindowOverlay()]: the calls it issues and the store it leaves.
    [q] holds the answers of its own window queries; [ok_save] tells
    whether [save_previous_window] resolves (a rejected
    [show_window_on_top] is only logged). *)
Definition showWindowOverlay (q : WindowQuery) (ok_save : bool)
    (ws : WindowStore) : list BackendCall * WindowStore :=
  let needsShow := isMinimized q || negb (isVisible q) in
  if negb needsShow && isFocused q then ([], ws)
  else if negb (overlayPreviousWindowSaved ws) then
    if ok_save then
      ([save_previous_window; show_window_on_top],
       mkWindowStore (keyboard ws) true (alwaysOnTop ws) (autoShowOnBlock ws))
    else ([save_previous_window], ws)
  else ([show_window_on_top], ws).

(** [hideWindowAndRestoreFocus()] *)
Definition hideWindowAndRestoreFocus (ws : WindowStore)
  : list BackendCall * WindowStore :=
  ([send_to_background_and_restore_focus], ws).

(** [setHotkeyMode(mode)] after its [await]; [ok = false] is a rejected
    command. *)
Definition setHotkeyMode_resume (mode : HotkeyMode) (ok : bool)
    (ws : WindowStore) : WindowStore :=
  if ok then
    mkWindowStore (set_hotkeyMode mode (keyboard ws))
      (if bool_decide (mode = background_blocking) then false
       else overlayPreviousWindowSaved ws)
      (alwaysOnTop ws) (autoShowOnBlock ws)
  else ws.

(** [applyWindowBehavior()]: the calls it issues. *)
Definition applyWindowBehavior (accepted : BackendCall -> bool)
    (ws : WindowStore) : list BackendCall :=
  if bool_decide (hotkeyMode (keyboard ws) = overlay_call) then []
  else if alwaysOnTop ws then
    attempt accepted
      [set_window_always_on_top true; window_show; window_setFocus]
  else if autoShowOnBlock ws then
    if blockingEnabled (keyboard ws) then
      attempt accepted
        [save_previous_window; set_window_always_on_top true;
         window_unminimize; window_show; window_setFocus]
    else attempt accepted [send_to_background_and_restore_focus]
  else attempt accepted [set_window_always_on_top false].

(** The listener registered for ['blocking_changed'], with the calls of
    the window behaviour it starts. *)
Definition on_blocking_changed_calls (accepted : BackendCall -> bool)
    (enabled : bool) (ws : WindowStore) : list BackendCall * WindowStore :=
  let wasBlockingEnabled := blockingEnabled (keyboard ws) in
  let ws1 :=
    mkWindowStore (on_blocking_changed enabled (keyboard ws))
      (overlayPreviousWindowSaved ws) (alwaysOnTop ws) (autoShowOnBlock ws) in
  if bool_decide (wasBlockingEnabled = enabled) then ([], ws1)
  else (applyWindowBehavior accepted ws1, ws1).

(** [handleWinEscHotkey()] with what the branch it takes issues. [q] holds
    the answers of the handler's own queries and [q'] those of
    [showWindowOverlay]. *)
Definition handleWinEscHotkey_calls (now : Z) (q q' : WindowQuery)
    (ok_save : bool) (ws : WindowStore) (sh : Shell)
  : list BackendCall * WindowStore * Shell :=
  let '(a, sh1) := handleWinEscHotkey now q (keyboard ws) sh in
  match a with
  | Some ShowWindowOverlay =>
      let '(cs, ws1) := showWindowOverlay q' ok_save ws in (cs, ws1, sh1)
  | Some HideWindowAndRestoreFocus =>
      let '(cs, ws1) := hideWindowAndRestoreFocus ws in (cs, ws1, sh1)
  | Some SetFocus => ([window_setFocus], ws, sh1)
  | None => ([], ws, sh1)
  end.

(** The operations of an overlay session. *)
Inductive OverlayOp :=
| OpHotkey (now : Z) (q q' : WindowQuery) (ok_save : bool)
| OpShow (q : WindowQuery) (ok_save : bool)
| OpHide
| OpSetMode (mode : HotkeyMode) (ok : bool).

Definition overlay_step (op : OverlayOp) (s : WindowStore * Shell)
  : list BackendCall * (WindowStore * Shell) :=
  match op with
  | OpHotkey now q q' ok_save =>
      let '(cs, ws1, sh1) := handleWinEscHotkey_calls now q q' ok_save (fst s) (snd s) in
      (cs, (ws1, sh1))
  | OpShow q ok_save =>
      let '(cs, ws1) := showWindowOverlay q ok_save (fst s) in (cs, (ws1, snd s))
  | OpHide =>
      let '(cs, ws1) := hideWindowAndRestoreFocus (fst s) in (cs, (ws1, snd s))
  | OpSetMode mode ok =>
      ([set_hotkey_mode mode], (setHotkeyMode_resume mode ok (fst s), snd s))
  end.

Fixpoint overlay_run (ops : list OverlayOp) (s : WindowStore * Shell)
  : list BackendCall * (WindowStore * Shell) :=
  match ops with
  | [] => ([], s)
  | op :: ops' =>
      let '(cs, s1) := overlay_step op s in
      let '(cs', s2) := overlay_run ops' s1 in
      (cs ++ cs', s2)
  end.

(** An operation that does not end the overlay session. *)
Definition keeps_session (op : OverlayOp) : Prop :=
  match op with
  | OpSetMode background_blocking true => False
  | _ => True
  end.

Definition initialWindowStore : WindowStore :=
  {| keyboard := initialStore; overlayPreviousWindowSaved := false;
     alwaysOnTop := false; autoShowOnBlock := false |}.

(** ** The application shell: key-down and key-up handlers *)

(** The fields of a [KeyboardEvent] the handlers read. *)
Record KeyboardEvent := mkKeyboardEvent {
  ev_key : jsstring;
  ev_code : jsstring;
}.

(** The text area behind [inputRef]: its value and its selection. *)
Record TextArea := mkTextArea {
  ta_value : jsstring;
  selectionStart : nat;
  selectionEnd : nat;
}.

(** The modifier flags of the shell other than [metaPressed]. *)
Record Modifiers := mkModifiers {
  shiftPressed : bool;
  altPressed : bool;
  ctrlPressed : bool;
  winPressed : bool;
}.

(** What the handlers work on: the shell's variables, the store, the text
    area, and whether the text area is [document.activeElement]. The text
    area is taken as mounted ([inputRef.value] is not [null]). *)
Record App := mkApp {
  app_shell : Shell;
  app_mods : Modifiers;
  app_store : Store;
  app_input : TextArea;
  inputHasFocus : bool;
}.

(** What a handler reports besides the new state: whether it called
    [preventDefault], and the branch taken by the hotkey handler if it ran. *)
Record Handled := mkHandled {
  after : App;
  defaultPrevented : bool;
  windowAction : option WindowAction;
}.

(** [input.dispatchEvent(new Event('input', ...))]: the [v-model] of the
    text area assigns the value of the element to [interceptedText]. *)
Definition dispatch_input (input : TextArea) (st : Store) : Store :=
  set_interceptedText (ta_value input) st.

(** The redirected insertion of a printable key. *)
Definition redirect_insert (k : jsstring) (input : TextArea) : TextArea :=
  let start := selectionStart input in
  let end_ := selectionEnd input in
  let value := ta_value input in
  {| ta_value := slice_to start value ++ k ++ slice_from end_ value;
     selectionStart := start + 1;
     selectionEnd := start + 1 |}.

(** The redirected Backspace. *)
Definition redirect_backspace (input : TextArea) : TextArea :=
  let start := selectionStart input in
  let end_ := selectionEnd input in
  let value := ta_value input in
  if bool_decide (start = end_) && bool_decide (0 < start)%nat then
    {| ta_value := slice_to (start - 1) value ++ slice_from end_ value;
       selectionStart := start - 1;
       selectionEnd := start - 1 |}
  else if negb (bool_decide (start = end_)) then
    {| ta_value := slice_to start value ++ slice_from end_ value;
       selectionStart := start;
       selectionEnd := start |}
  else input.

Definition is_key (name : string) (e : KeyboardEvent) : bool :=
  bool_decide (ev_key e = js name).
Definition is_code (name : string) (e : KeyboardEvent) : bool :=
  bool_decide (ev_code e = js name).

(** Where [handleKeyDown] stands when it yields to the event loop: it has
    returned, or it is suspended at [await handleWinEscHotkey()] with the
    window transition [a] under way. *)
Inductive KeyDown :=
| Returned (h : Handled)
| AwaitingHotkey (suspended : App) (a : option WindowAction).

(** [handleKeyDown(e)] up to its [await]. [now] and [q] are read by the
    hotkey handler, [now] and [rnd] by [speakTextWithHistory]. In the
    Win+Esc branch the hotkey handler has run its debounce test and
    assigned [lastHotkeyCallTime] when the handler is suspended; the Meta
    flags are still up and [preventDefault] has not been called. *)
Definition handleKeyDown_begin (now : Z) (q : WindowQuery) (rnd : jsstring)
    (e : KeyboardEvent) (app : App) : KeyDown :=
  let sh := app_shell app in
  let mods := app_mods app in
  let st := app_store app in
  let input := app_input app in
  if is_key "Shift" e || is_code "ShiftLeft" e || is_code "ShiftRight" e then
    Returned (mkHandled
      (mkApp sh (mkModifiers true (altPressed mods) (ctrlPressed mods)
                   (winPressed mods)) st input (inputHasFocus app))
      false None)
  else if is_key "Alt" e || is_code "AltLeft" e || is_code "AltRight" e then
    Returned (mkHandled
      (mkApp sh (mkModifiers (shiftPressed mods) true (ctrlPressed mods)
                   (winPressed mods)) st input (inputHasFocus app))
      false None)
  else if is_key "Control" e || is_code "ControlLeft" e
          || is_code "ControlRight" e then
    Returned (mkHandled
      (mkApp sh (mkModifiers (shiftPressed mods) (altPressed mods) true
                   (winPressed mods)) st input (inputHasFocus app))
      false None)
  else if is_key "Meta" e || is_code "MetaLeft" e || is_code "MetaRight" e then
    Returned (mkHandled
      (mkApp (mkShell (lastHotkeyCallTime sh) true)
             (mkModifiers (shiftPressed mods) (altPressed mods)
                (ctrlPressed mods) true) st input (inputHasFocus app))
      true None)
  else if is_key "Enter" e && ctrlPressed mods then
    let txt := interceptedText st in
    if bool_decide (txt = []) then Returned (mkHandled app true None)
    else
      Returned (mkHandled
        (mkApp sh mods
           (set_interceptedText []
              (snd (speakTextWithHistory txt now rnd st)))
           input (inputHasFocus app))
        true None)
  else if is_key "Escape" e && metaPressed sh
          && bool_decide (hotkeyMode st = overlay_call) then
    let '(a, sh1) := handleWinEscHotkey now q st sh in
    AwaitingHotkey (mkApp sh1 mods st input (inputHasFocus app)) a
  else if is_key "Tab" e || is_key "F5" e || is_key "F12" e then
    Returned (mkHandled app false None)
  else if negb (inputHasFocus app) then
    if bool_decide (length (ev_key e) = 1%nat) then
      let input1 := redirect_insert (ev_key e) input in
      Returned (mkHandled
        (mkApp sh mods (dispatch_input input1 st) input1 (inputHasFocus app))
        true None)
    else if is_key "Backspace" e then
      let input1 := redirect_backspace input in
      Returned (mkHandled
        (mkApp sh mods (dispatch_input input1 st) input1 (inputHasFocus app))
        true None)
    else if is_key "Enter" e then Returned (mkHandled app true None)
    else Returned (mkHandled app false None)
  else Returned (mkHandled app false None).

(** [handleKeyDown] after its [await]: the Meta flags are lowered and
    [preventDefault] is called, on an event whose dispatch is over. *)
Definition handleKeyDown_resume (a : option WindowAction) (app : App)
  : Handled :=
  mkHandled
    (mkApp (mkShell (lastHotkeyCallTime (app_shell app)) false)
           (mkModifiers (shiftPressed (app_mods app)) (altPressed (app_mods app))
              (ctrlPressed (app_mods app)) false)
           (app_store app) (app_input app) (inputHasFocus app))
    true a.

(** The handler run to its end with no other event handled during its
    [await]. *)
Definition handleKeyDown (now : Z) (q : WindowQuery) (rnd : jsstring)
    (e : KeyboardEvent) (app : App) : Handled :=
  match handleKeyDown_begin now q rnd e app with
  | Returned h => h
  | AwaitingHotkey suspended a => handleKeyDown_resume a suspended
  end.

(** The watcher of the shell on [interceptedText]: when the text area holds
    another value it is assigned the new one, which leaves the caret at its
    end. *)
Definition sync_textarea (newVal : jsstring) (input : TextArea) : TextArea :=
  if bool_decide (ta_value input = newVal) then input
  else {| ta_value := newVal; selectionStart := length newVal;
          selectionEnd := length newVal |}.

(** What runs once a handler has assigned [interceptedText]: the watchers
    on it, the one of the shell and the one of the playback controls. *)
Definition run_watchers (now : Z) (rnd : jsstring) (processing : bool)
    (app : App) : Watched * App :=
  let st := app_store app in
  let w := watch_interceptedText (interceptedText st) now rnd processing st in
  (w, mkApp (app_shell app) (app_mods app) (storeAfter w)
        (sync_textarea (interceptedText st) (app_input app))
        (inputHasFocus app)).

(** [handleKeyUp(e)] *)
Definition handleKeyUp (e : KeyboardEvent) (app : App) : App :=
  let shift :=
    if is_key "Shift" e || is_code "ShiftLeft" e || is_code "ShiftRight" e
    then false else shiftPressed (app_mods app) in
  let alt :=
    if is_key "Alt" e || is_code "AltLeft" e || is_code "AltRight" e
    then false else altPressed (app_mods app) in
  let ctrl :=
    if is_key "Control" e || is_code "ControlLeft" e
       || is_code "ControlRight" e
    then false else ctrlPressed (app_mods app) in
  let isMeta :=
    is_key "Meta" e || is_code "MetaLeft" e || is_code "MetaRight" e in
  mkApp
    (mkShell (lastHotkeyCallTime (app_shell app))
       (if isMeta then false else metaPressed (app_shell app)))
    (mkModifiers shift alt ctrl
       (if isMeta then false else winPressed (app_mods app)))
    (app_store app) (app_input app) (inputHasFocus app).

(** A code that names a modifier key. *)
Definition is_modifier_code (e : KeyboardEvent) : bool :=
  is_code "ShiftLeft" e || is_code "ShiftRight" e || is_code "AltLeft" e
  || is_code "AltRight" e || is_code "ControlLeft" e
  || is_code "ControlRight" e || is_code "MetaLeft" e || is_code "MetaRight" e.

(** A selection as the text area keeps it. *)
Definition well_formed (input : TextArea) : Prop :=
  (selectionStart input <= selectionEnd input
   /\ selectionEnd input <= length (ta_value input))%nat.

Definition backspaceEvent : KeyboardEvent :=
  {| ev_key := js "Backspace"; ev_code := js "Backspace" |}.
Definition escapeEvent : KeyboardEvent :=
  {| ev_key := js "Escape"; ev_code := js "Escape" |}.
Definition metaEvent : KeyboardEvent :=
  {| ev_key := js "Meta"; ev_code := js "MetaLeft" |}.
Definition enterEvent : KeyboardEvent :=
  {| ev_key := js "Enter"; ev_code := js "Enter" |}.

Definition initialApp : App :=
  {| app_shell := initialShell;
     app_mods := mkModifiers false false false false;
     app_store := initialStore;
     app_input := mkTextArea [] 0 0;
     inputHasFocus := false |}.

(** An event of a modifier key, by its key or by its code. *)
Definition is_modifier (e : KeyboardEvent) : bool :=
  is_key "Shift" e || is_key "Alt" e || is_key "Control" e || is_key "Meta" e
  || is_modifier_code e.

(** ** The key list of the display *)

(** [displayKeys] of the key display: [[...keys].reverse().slice(0, 10)]. *)
Definition displayKeys (st : Store) : list KeyEvent :=
  take 10 (reverse (interceptedKeys st)).

(** * Properties *)

(** ** Strings *)



Lemma startsWith_app (p s : jsstring) : startsWith p (p ++ s) = true.
Proof.
  induction p as [|a p IH]; [reflexivity|]. cbn [app startsWith].
  destruct (decide (a = a)); [exact IH|congruence].
Qed.

(** ** Key translation and batching *)



Lemma processInterceptedKey_Backspace (key : KeyEvent) (st : Store) :
  key_name key = js "Backspace" ->
  processInterceptedKey key st =
  set_pendingTextUpdate []
    (set_interceptedText (slice_0_m1 (interceptedText st)) st).
Proof.
  intros Hname. unfold processInterceptedKey. rewrite Hname.
  replace (includes (js "Win+Esc") (js "Backspace")) with false
    by (vm_compute; reflexivity).
  destruct (decide (js "Backspace" = js "Backspace")); [reflexivity|congruence].
Qed.





Example letter_q_ru_caps :
  pendingTextUpdate (processInterceptedKey (key_named "q" 1) ruCapsStore)
  = js "ПЙ".
Proof. vm_compute. reflexivity. Qed.

Example letter_Q_en_nocaps :
  pendingTextUpdate (processInterceptedKey (key_named "Q" 0) initialStore)
  = js "q".
Proof. vm_compute. reflexivity. Qed.

(** C8 (as the code has it). A Backspace key is applied at once, without
    waiting for the frame: it removes the last code unit of the composed
    text (nothing when the text is empty) and empties the pending buffer,
    leaving the flush flag as it was. When the pending buffer is empty, the
    text shown after the next flush is the previous one without its last
    character. *)
Theorem backspace_applies_immediately (key : KeyEvent) (st : Store) :
  key_name key = js "Backspace" ->
  let st' := processInterceptedKey key st in
  pendingTextUpdate st' = [] /\
  textUpdateScheduled st' = textUpdateScheduled st /\
  (forall s c, interceptedText st = s ++ [c] -> interceptedText st' = s) /\
  (interceptedText st = [] -> interceptedText st' = []) /\
  (pendingTextUpdate st = [] ->
   forall s c, interceptedText (textUpdateFrame st) = s ++ [c] ->
               interceptedText (textUpdateFrame st') = s).
Proof.
  intros Hname st'. subst st'.
  rewrite (processInterceptedKey_Backspace key st Hname). simpl.
  unfold slice_0_m1.
  split; [reflexivity|]. split; [reflexivity|]. split; [|split].
  - intros s c ->. apply removelast_last.
  - intros ->. reflexivity.
  - intros -> s c. rewrite !app_nil_r. intros ->. apply removelast_last.
Qed.

Lemma backspace_applies_immediately_witness :
  key_name (key_named "Backspace" 3) = js "Backspace" /\
  let st := set_interceptedText (js "xy") initialStore in
  let st' := processInterceptedKey (key_named "Backspace" 3) st in
  pendingTextUpdate st' = [] /\
  textUpdateScheduled st' = textUpdateScheduled st /\
  (forall s c, interceptedText st = s ++ [c] -> interceptedText st' = s) /\
  (interceptedText st = [] -> interceptedText st' = []) /\
  (pendingTextUpdate st = [] ->
   forall s c, interceptedText (textUpdateFrame st) = s ++ [c] ->
               interceptedText (textUpdateFrame st') = s).
Proof.
  split; [reflexivity|].
  apply (backspace_applies_immediately (key_named "Backspace" 3)
           (set_interceptedText (js "xy") initialStore)).
  reflexivity.
Defined.

(** C8 as stated fails: with "xy" rendered and "ab" typed but not yet
    flushed, a Backspace leaves "x" after the next frame, not "xya": the
    whole pending buffer is dropped and a rendered character is removed. *)
Lemma backspace_discards_pending :
  let typed :=
    [ PushKey (key_named "X" 0); PushKey (key_named "Y" 1); Frame;
      PushKey (key_named "A" 2); PushKey (key_named "B" 3) ] in
  let st := key_run sampleArgLimit typed blockingStore in
  interceptedText st = js "xy" /\
  pendingTextUpdate st = js "ab" /\
  interceptedText
    (key_run sampleArgLimit [PushKey (key_named "Backspace" 4); Frame] st)
  = js "x" /\
  js "x" <> removelast (interceptedText st ++ pendingTextUpdate st).
Proof. vm_compute. repeat split; discriminate. Qed.

(** ** Watermark *)

(** The translator does not touch the watermark. *)
Lemma processInterceptedKey_watermark (key : KeyEvent) (st : Store) :
  lastProcessedSeqNum (processInterceptedKey key st) = lastProcessedSeqNum st.
Proof.
  unfold processInterceptedKey, append_pending, by_lang.
  repeat match goal with
         | |- context [if ?b then _ else _] => destruct b
         end; reflexivity.
Qed.

Lemma scheduleTextUpdate_watermark (st : Store) :
  lastProcessedSeqNum (scheduleTextUpdate st) = lastProcessedSeqNum st.
Proof. unfold scheduleTextUpdate. destruct (textUpdateScheduled st); reflexivity. Qed.

(** The push listener never lowers the watermark, and covers its event. *)
Lemma on_key_intercepted_watermark (key : KeyEvent) (st : Store) :
  lastProcessedSeqNum st <= lastProcessedSeqNum (on_key_intercepted key st)
  /\ seq_num key <= lastProcessedSeqNum (on_key_intercepted key st).
Proof.
  unfold on_key_intercepted. cbn [blockingEnabled set_latestKey
    set_interceptedKeys set_lastProcessedSeqNum].
  destruct (blockingEnabled st).
  - rewrite scheduleTextUpdate_watermark, processInterceptedKey_watermark.
    cbn [lastProcessedSeqNum set_latestKey set_interceptedKeys
         set_lastProcessedSeqNum]. lia.
  - cbn [lastProcessedSeqNum set_latestKey set_interceptedKeys
         set_lastProcessedSeqNum]. lia.
Qed.

Lemma foldl_max_ge (xs : list Z) (x : Z) :
  x <= foldl Z.max x xs /\ forall y, y ∈ xs -> y <= foldl Z.max x xs.
Proof.
  revert x. induction xs as [|a xs IH]; intros x; cbn [foldl].
  - split; [lia|]. intros y Hy. inversion Hy.
  - destruct (IH (Z.max x a)) as [H1 H2]. split; [lia|].
    intros y Hy. apply elem_of_cons in Hy as [->|Hy]; [lia|auto].
Qed.

Lemma insert_by_seq_elem (k x : KeyEvent) (l : list KeyEvent) :
  x ∈ insert_by_seq k l <-> x = k \/ x ∈ l.
Proof.
  induction l as [|y l IH]; cbn [insert_by_seq].
  - rewrite elem_of_cons. reflexivity.
  - destruct (seq_num k <=? seq_num y).
    + rewrite elem_of_cons. reflexivity.
    + rewrite !elem_of_cons, IH. tauto.
Qed.

Lemma sort_by_seq_elem (x : KeyEvent) (l : list KeyEvent) :
  x ∈ sort_by_seq l <-> x ∈ l.
Proof.
  unfold sort_by_seq. induction l as [|y l IH]; cbn [foldr]; [reflexivity|].
  rewrite insert_by_seq_elem, elem_of_cons, IH. reflexivity.
Qed.

Lemma insert_by_seq_perm (k : KeyEvent) (l : list KeyEvent) :
  insert_by_seq k l ≡ₚ k :: l.
Proof.
  induction l as [|x l IH]; cbn [insert_by_seq]; [reflexivity|].
  destruct (seq_num k <=? seq_num x); [reflexivity|].
  rewrite IH. apply Permutation_swap.
Qed.

Lemma sort_by_seq_perm (l : list KeyEvent) : sort_by_seq l ≡ₚ l.
Proof.
  unfold sort_by_seq. induction l as [|x l IH]; cbn [foldr]; [reflexivity|].
  rewrite insert_by_seq_perm, IH. reflexivity.
Qed.

Lemma insert_by_seq_sorted (k : KeyEvent) (l : list KeyEvent) :
  StronglySorted seq_le l -> StronglySorted seq_le (insert_by_seq k l).
Proof.
  induction l as [|x l IH]; intros Hl; cbn [insert_by_seq].
  - repeat constructor.
  - apply StronglySorted_cons in Hl as [Hx Hl].
    destruct (Z.leb_spec (seq_num k) (seq_num x)) as [Hle|Hgt].
    + apply StronglySorted_cons. split.
      * apply Forall_cons. split; [exact Hle|].
        eapply Forall_impl; [exact Hx|]. unfold seq_le. intros y Hy. lia.
      * apply StronglySorted_cons. auto.
    + apply StronglySorted_cons. split; [|auto].
      rewrite insert_by_seq_perm. apply Forall_cons.
      split; [unfold seq_le; lia|exact Hx].
Qed.

Lemma sort_by_seq_sorted (l : list KeyEvent) :
  StronglySorted seq_le (sort_by_seq l).
Proof.
  unfold sort_by_seq. induction l as [|x l IH]; cbn [foldr];
    [constructor|apply insert_by_seq_sorted, IH].
Qed.

Lemma length_sort_by_seq (l : list KeyEvent) :
  length (sort_by_seq l) = length l.
Proof. apply Permutation_length, sort_by_seq_perm. Qed.

(** [Math.max] on the sequence numbers of a sorted batch: it throws beyond
    the argument limit; within it, and for a batch that is not empty, it
    returns a number that no key of the batch exceeds. *)
Lemma Math_max_beyond_limit (argLimit : Z) (ks : list KeyEvent) :
  argLimit < Z.of_nat (length ks) ->
  Math_max argLimit (map seq_num (sort_by_seq ks)) = None.
Proof.
  intros H. unfold Math_max. rewrite length_map, length_sort_by_seq.
  destruct (Z.ltb_spec argLimit (Z.of_nat (length ks))); [reflexivity|lia].
Qed.

Lemma Math_max_within_limit (argLimit : Z) (ks : list KeyEvent) :
  Z.of_nat (length ks) <= argLimit ->
  (0 < length ks)%nat ->
  exists m, Math_max argLimit (map seq_num (sort_by_seq ks)) = Some (Some m)
            /\ forall k, k ∈ ks -> seq_num k <= m.
Proof.
  intros Hlim Hlen. unfold Math_max. rewrite length_map, length_sort_by_seq.
  destruct (Z.ltb_spec argLimit (Z.of_nat (length ks))); [lia|].
  pose proof (length_sort_by_seq ks) as Hl.
  destruct (sort_by_seq ks) as [|k0 l] eqn:Hs; [cbn in Hl; lia|].
  cbn [map]. eexists. split; [reflexivity|].
  intros k Hk. apply sort_by_seq_elem in Hk. rewrite Hs in Hk.
  destruct (foldl_max_ge (map seq_num l) (seq_num k0)) as [H0 Hrest].
  apply elem_of_cons in Hk as [->|Hk]; [exact H0|].
  apply Hrest. apply list_elem_of_In, in_map, list_elem_of_In, Hk.
Qed.

Lemma foldl_processInterceptedKey_watermark (ks : list KeyEvent) (st : Store) :
  lastProcessedSeqNum (foldl (fun s k => processInterceptedKey k s) st ks)
  = lastProcessedSeqNum st.
Proof.
  revert st. induction ks as [|k ks IH]; intros st; [reflexivity|].
  cbn [foldl]. rewrite IH. apply processInterceptedKey_watermark.
Qed.

(** The pull does not lower the watermark when every key of the answer is
    at or above it at the time the answer is handled, which is the case
    when no push was handled during the await. *)
Lemma fetchKeys_resume_watermark (argLimit : Z) (r : KeysResponse)
    (st : Store) :
  (forall k, k ∈ keys r -> lastProcessedSeqNum st <= seq_num k) ->
  lastProcessedSeqNum st
  <= lastProcessedSeqNum (fetchKeys_resume argLimit (Some r) st).
Proof.
  intros Habove. unfold fetchKeys_resume. cbn [lastProcessedSeqNum set_fetchingKeys].
  destruct (blockingEnabled st && bool_decide (0 < length (keys r))%nat);
    [|lia].
  unfold Math_max.
  destruct (argLimit <? Z.of_nat (length (map seq_num (sort_by_seq (keys r))))).
  { rewrite foldl_processInterceptedKey_watermark. lia. }
  rewrite scheduleTextUpdate_watermark.
  destruct (sort_by_seq (keys r)) as [|k ks] eqn:Hs; cbn [map].
  - cbn [foldl]. lia.
  - cbn [lastProcessedSeqNum set_lastProcessedSeqNum].
    pose proof (foldl_max_ge (map seq_num ks) (seq_num k)) as [Hk _].
    assert (Hin : k ∈ keys r)
      by (apply sort_by_seq_elem; rewrite Hs; apply list_elem_of_here).
    specialize (Habove k Hin). lia.
Qed.

(** ** History: counting the entries that are playing *)

Section Counting.
Context {A : Type}.
Implicit Types (p q : A -> bool) (l : list A).

Lemma count_if_app p l1 l2 :
  count_if p (l1 ++ l2) = (count_if p l1 + count_if p l2)%nat.
Proof. induction l1 as [|x l1 IH]; simpl; [reflexivity|]. rewrite IH. lia. Qed.

Lemma count_if_alter_same p (f : A -> A) i l :
  (forall x, p (f x) = p x) -> count_if p (alter f i l) = count_if p l.
Proof.
  intros Hf. revert i. induction l as [|x l IH]; intros [|i]; simpl;
    try reflexivity.
  - rewrite Hf. reflexivity.
  - rewrite <- (IH i). reflexivity.
Qed.

Lemma count_if_alter_off p (f : A -> A) i l :
  (forall x, p (f x) = false) ->
  (count_if p (alter f i l) <= count_if p l)%nat.
Proof.
  intros Hf. revert i. induction l as [|x l IH]; intros [|i]; simpl;
    try lia.
  - rewrite Hf. lia.
  - specialize (IH i). change (list_alter f i l) with (alter f i l). lia.
Qed.

Lemma count_if_alter_on p (f : A -> A) i l :
  (count_if p (alter f i l) <= S (count_if p l))%nat.
Proof.
  revert i. induction l as [|x l IH]; intros [|i]; simpl; try lia.
  - destruct (p (f x)), (p x); lia.
  - specialize (IH i). change (list_alter f i l) with (alter f i l). lia.
Qed.

Lemma count_if_filter (P : A -> Prop) `{!forall x, Decision (P x)} p l :
  (count_if p (filter P l) <= count_if p l)%nat.
Proof.
  induction l as [|x l IH]; simpl; [lia|].
  rewrite filter_cons. destruct (decide (P x)); simpl; lia.
Qed.

Lemma count_if_filter_and (P : A -> Prop) `{!forall x, Decision (P x)} p l :
  count_if p (filter P l) = count_if (fun x => p x && bool_decide (P x)) l.
Proof.
  induction l as [|x l IH]; simpl; [reflexivity|].
  rewrite filter_cons. destruct (decide (P x)) as [HP|HP]; simpl.
  - rewrite (bool_decide_eq_true_2 _ HP), andb_true_r, IH. reflexivity.
  - rewrite (bool_decide_eq_false_2 _ HP), andb_false_r, IH. reflexivity.
Qed.

Lemma count_if_mono p q l :
  (forall x, p x = true -> q x = true) ->
  (count_if p l <= count_if q l)%nat.
Proof.
  intros Hpq. induction l as [|x l IH]; simpl; [lia|].
  specialize (Hpq x).
  destruct (p x), (q x); first [lia | discriminate (Hpq eq_refl)].
Qed.

Lemma count_if_disjoint p q l :
  (forall x, p x = true -> q x = true -> False) ->
  (count_if p l + count_if q l
   = count_if (fun x => p x || q x) l)%nat.
Proof.
  intros Hpq. induction l as [|x l IH]; simpl; [reflexivity|].
  specialize (Hpq x).
  destruct (p x), (q x); simpl; first [lia | destruct (Hpq eq_refl eq_refl)].
Qed.

Lemma count_if_elem p l x :
  x ∈ l -> p x = true -> (1 <= count_if p l)%nat.
Proof.
  induction 1 as [x l|x y l _ IH]; intros Hp; simpl.
  - rewrite Hp. lia.
  - specialize (IH Hp). lia.
Qed.

Lemma count_if_map {B} (f : B -> A) p (l : list B) :
  count_if p (map f l) = count_if (fun x => p (f x)) l.
Proof. induction l as [|x l IH]; simpl; [reflexivity|]. rewrite IH. reflexivity. Qed.

Lemma count_if_none p l :
  (forall j x, l !! j = Some x -> p x = true -> False) -> count_if p l = 0%nat.
Proof.
  induction l as [|x l IH]; intros H; simpl; [reflexivity|].
  rewrite IH by (intros j y Hj; apply (H (S j) y Hj)).
  destruct (p x) eqn:Hp; [destruct (H 0%nat x eq_refl Hp)|reflexivity].
Qed.

Lemma alter_alter (f g : A -> A) i l :
  alter f i (alter g i l) = alter (fun x => f (g x)) i l.
Proof.
  revert i. induction l as [|x l IH]; intros [|i]; cbn; try reflexivity.
  f_equal. apply IH.
Qed.

(** At most one element satisfies [p] exactly when any two positions that
    hold such an element are the same. *)
Lemma count_if_le_1 p l :
  (count_if p l <= 1)%nat
  <-> forall j1 j2 x1 x2, l !! j1 = Some x1 -> l !! j2 = Some x2 ->
                          p x1 = true -> p x2 = true -> j1 = j2.
Proof.
  induction l as [|x l IH]; simpl.
  - split; [|lia]. intros _ j1 j2 x1 x2 H1. destruct j1; discriminate H1.
  - split.
    + intros Hc [|j1] [|j2] x1 x2 H1 H2 Hp1 Hp2; cbn in H1, H2.
      * reflexivity.
      * injection H1 as ->. rewrite Hp1 in Hc.
        pose proof (count_if_elem p l x2 (list_elem_of_lookup_2 _ _ _ H2) Hp2).
        lia.
      * injection H2 as ->. rewrite Hp2 in Hc.
        pose proof (count_if_elem p l x1 (list_elem_of_lookup_2 _ _ _ H1) Hp1).
        lia.
      * f_equal. apply (proj1 IH) with x1 x2; try assumption.
        destruct (p x); lia.
    + intros Hu. destruct (p x) eqn:Hp.
      * rewrite count_if_none; [lia|].
        intros j y Hj Hy. discriminate (Hu 0%nat (S j) x y eq_refl Hj Hp Hy).
      * cbn. apply IH. intros j1 j2 x1 x2 H1 H2 Hp1 Hp2.
        assert (E : S j1 = S j2) by (apply (Hu _ _ x1 x2); assumption).
        injection E as ->. reflexivity.
Qed.

(** Marking the element at position [i]: at most one element satisfies [p]
    afterwards exactly when no other position held one before. *)
Lemma count_if_alter_mark p (g : A -> A) i l :
  is_Some (l !! i) ->
  (forall x, p (g x) = true) ->
  (count_if p (alter g i l) <= 1)%nat
  <-> forall j x, l !! j = Some x -> p x = true -> j = i.
Proof.
  intros [m Hm] Hg. rewrite count_if_le_1.
  assert (Hi : alter g i l !! i = Some (g m))
    by (rewrite list_lookup_alter_eq, Hm; reflexivity).
  split.
  - intros Hu j x Hj Hp. destruct (decide (j = i)) as [E|E]; [exact E|].
    apply (Hu j i x (g m)); [|exact Hi|exact Hp|apply Hg].
    rewrite list_lookup_alter_ne by congruence. exact Hj.
  - intros Hall j1 j2 x1 x2 H1 H2 Hp1 Hp2.
    assert (Hj : forall j y, alter g i l !! j = Some y -> p y = true -> j = i).
    { intros j y Hj Hy. destruct (decide (j = i)) as [E|E]; [exact E|].
      rewrite list_lookup_alter_ne in Hj by congruence.
      apply (Hall j y Hj Hy). }
    rewrite (Hj j1 x1 H1 Hp1), (Hj j2 x2 H2 Hp2). reflexivity.
Qed.
End Counting.

(** ** History: the merge of [fetchTtsHistory] *)

Lemma foldl_merge_server_msg (localHistory acc serverHistory : list TtsMessage) :
  foldl (merge_server_msg localHistory) acc serverHistory
  = acc ++ map (keep_local_status localHistory) serverHistory.
Proof.
  revert acc. induction serverHistory as [|s ss IH]; intros acc; simpl.
  - rewrite app_nil_r. reflexivity.
  - rewrite IH. unfold merge_server_msg, keep_local_status.
    destruct (list_find _ localHistory) as [[? l]|];
      rewrite <- app_assoc; reflexivity.
Qed.

Lemma serverMap_has (serverHistory : list TtsMessage)
    (m0 : gmap jsstring TtsMessage) (k : jsstring) :
  is_Some (foldl (fun m msg => <[id msg := msg]> m) m0 serverHistory !! k)
  <-> is_Some (m0 !! k) \/ k ∈ map id serverHistory.
Proof.
  revert m0. induction serverHistory as [|s ss IH]; intros m0; simpl.
  - split; [auto|]. intros [H|H]; [exact H|]. inversion H.
  - rewrite IH, lookup_insert_is_Some, elem_of_cons.
    destruct (decide (id s = k)) as [->|Hne]; [tauto|].
    split.
    + intros [[E|[_ H]]|H]; auto; congruence.
    + intros [H|[E|H]]; auto; congruence.
Qed.

Lemma foldl_merge_local_msg (serverHistory acc localHistory : list TtsMessage) :
  foldl (merge_local_msg (serverMap_of serverHistory)) acc localHistory
  = acc ++ filter (fun l => startsWith (js "temp-") (id l) = true
                            /\ id l ∉ map id serverHistory) localHistory.
Proof.
  revert acc. induction localHistory as [|l ls IH]; intros acc.
  - cbn [foldl]. rewrite app_nil_r. reflexivity.
  - cbn [foldl]. rewrite IH, filter_cons. unfold merge_local_msg.
    assert (Hhas : is_Some (serverMap_of serverHistory !! id l)
                   <-> id l ∈ map id serverHistory).
    { unfold serverMap_of. rewrite serverMap_has, lookup_empty.
      split; [|auto]. intros [[? H]|H]; [discriminate H|exact H]. }
    destruct (decide (startsWith (js "temp-") (id l) = true
                      /\ id l ∉ map id serverHistory)) as [[Ht Hn]|Hno].
    + rewrite bool_decide_eq_false_2 by (rewrite Hhas; exact Hn).
      rewrite Ht. cbn [negb andb]. rewrite <- app_assoc. reflexivity.
    + destruct (bool_decide (is_Some _)) eqn:Hb; cbn [negb andb];
        [reflexivity|].
      destruct (startsWith (js "temp-") (id l)) eqn:Ht; [|reflexivity].
      exfalso. apply Hno. split; [reflexivity|].
      apply bool_decide_eq_false_1 in Hb. rewrite <- Hhas. exact Hb.
Qed.

Lemma merge_history_as_described (serverHistory localHistory : list TtsMessage) :
  merge_history serverHistory localHistory
  = merge_as_described serverHistory localHistory.
Proof.
  unfold merge_history, merge_as_described.
  rewrite foldl_merge_local_msg, foldl_merge_server_msg. reflexivity.
Qed.

Lemma keep_local_status_id (localHistory : list TtsMessage) (s : TtsMessage) :
  id (keep_local_status localHistory s) = id s.
Proof.
  unfold keep_local_status.
  destruct (list_find _ localHistory) as [[? ?]|]; reflexivity.
Qed.

Lemma elem_of_map_1 {A B} (f : A -> B) (l : list A) (x : A) :
  x ∈ l -> f x ∈ map f l.
Proof.
  induction 1; simpl; [apply list_elem_of_here|apply list_elem_of_further; assumption].
Qed.

Lemma elem_of_map_inv {A B} (f : A -> B) (l : list A) (y : B) :
  y ∈ map f l -> exists x, x ∈ l /\ y = f x.
Proof.
  induction l as [|a l IH]; simpl; intros H.
  - inversion H.
  - apply elem_of_cons in H as [->|H].
    + exists a. split; [apply list_elem_of_here|reflexivity].
    + destruct (IH H) as (x & Hx & ->). exists x.
      split; [apply list_elem_of_further; exact Hx|reflexivity].
Qed.

(** C10. A successful [fetchTtsHistory] leaves exactly the server's entries
    in the server's order, each with the status of the (first) local entry
    of the same id when there is one and the server's other fields, and,
    behind them, the local entries with a ["temp-"] id that the server does
    not list, in their local order. A local entry whose id is neither
    provisional nor listed by the server is gone: no entry of the merged
    history carries its id. *)
Theorem fetchTtsHistory_merge (serverHistory : list TtsMessage) (st : Store) :
  let merged :=
    ttsHistory (fetchTtsHistory_resume (Some serverHistory) st) in
  merged = merge_as_described serverHistory (ttsHistory st)
  /\ map id (take (length serverHistory) merged) = map id serverHistory
  /\ (forall l, l ∈ ttsHistory st ->
                startsWith (js "temp-") (id l) = false ->
                id l ∉ map id serverHistory ->
                forall m, m ∈ merged -> id m <> id l).
Proof.
  cbv zeta. unfold fetchTtsHistory_resume. cbn [ttsHistory set_ttsHistory].
  rewrite merge_history_as_described.
  split; [reflexivity|]. unfold merge_as_described. split.
  - rewrite take_app_length' by (rewrite length_map; reflexivity).
    rewrite map_map. apply map_ext. apply keep_local_status_id.
  - intros l Hl Htemp Hserver m Hm E.
    apply elem_of_app in Hm as [Hm|Hm].
    + apply elem_of_map_inv in Hm as (s & Hs & ->).
      rewrite keep_local_status_id in E. apply Hserver. rewrite <- E.
      apply elem_of_map_1. exact Hs.
    + apply list_elem_of_filter in Hm as [[Ht _] _].
      rewrite E, Htemp in Ht. discriminate Ht.
Qed.

Lemma fetchTtsHistory_merge_witness :
  let localHistory :=
    [msg "temp-1" "c" queued; msg "7" "a" playing; msg "9" "old" completed] in
  let serverHistory := [msg "8" "b" queued; msg "7" "a" queued] in
  let merged :=
    ttsHistory (fetchTtsHistory_resume (Some serverHistory)
                  (history_store localHistory)) in
  merged = [msg "8" "b" queued; msg "7" "a" playing; msg "temp-1" "c" queued]
  /\ forall m, m ∈ merged -> id m <> js "9".
Proof.
  cbv zeta.
  pose proof (fetchTtsHistory_merge
                [msg "8" "b" queued; msg "7" "a" queued]
                (history_store
                   [msg "temp-1" "c" queued; msg "7" "a" playing;
                    msg "9" "old" completed])) as (Hm & _ & Hdrop).
  split.
  - rewrite Hm. vm_compute. reflexivity.
  - apply (Hdrop (msg "9" "old" completed)).
    + apply list_elem_of_In. vm_compute. auto.
    + vm_compute. reflexivity.
    + intros Hin. apply list_elem_of_In in Hin. vm_compute in Hin.
      destruct Hin as [H|[H|[]]]; discriminate H.
Defined.

(** ** History: status events and enqueue *)

Lemma is_temp_pending_spec (m : TtsMessage) :
  is_temp_pending m = true <->
  startsWith (js "temp-") (id m) = true
  /\ (status m = queued \/ status m = playing).
Proof.
  unfold is_temp_pending.
  rewrite andb_true_iff, orb_true_iff, !bool_decide_eq_true. reflexivity.
Qed.

Lemma ttsHistory_on_tts_event (ev : StatusEvent) (id0 : jsstring) (st : Store) :
  ttsHistory (on_tts_event ev id0 st) =
  assign_status (event_status ev) (fst (fst (findMessage id0 (ttsHistory st))))
    (snd (findMessage id0 (ttsHistory st))).
Proof.
  destruct ev; unfold on_tts_event, on_tts_started, on_tts_completed,
    on_tts_failed, on_tts_cancelled;
    destruct (findMessage id0 (ttsHistory st)) as [[m b] h]; reflexivity.
Qed.

(** C5. When no local entry has the pushed id, the event is applied to the
    newest provisional entry that is still queued or playing, that is, the
    first one in the history (which is kept newest first): it takes the
    pushed id and the event's status, and every other entry and field is
    untouched. When there is no such entry, the history is unchanged. *)
Theorem status_event_unknown_id (ev : StatusEvent) (id0 : jsstring)
    (st : Store) :
  (forall m, m ∈ ttsHistory st -> id m <> id0) ->
  let h' := ttsHistory (on_tts_event ev id0 st) in
  (forall l1 m l2,
      ttsHistory st = l1 ++ m :: l2 ->
      startsWith (js "temp-") (id m) = true ->
      status m = queued \/ status m = playing ->
      (forall x, x ∈ l1 ->
                 ~ (startsWith (js "temp-") (id x) = true
                    /\ (status x = queued \/ status x = playing))) ->
      h' = l1 ++ {| id := id0; text := text m;
                    msg_timestamp := msg_timestamp m;
                    status := event_status ev; locked := locked m |} :: l2)
  /\ ((forall x, x ∈ ttsHistory st ->
                 ~ (startsWith (js "temp-") (id x) = true
                    /\ (status x = queued \/ status x = playing))) ->
      h' = ttsHistory st).
Proof.
  intros Hunknown h'. subst h'. rewrite ttsHistory_on_tts_event.
  assert (Hnone : list_find (fun m => id m = id0) (ttsHistory st) = None).
  { apply list_find_None, Forall_forall. exact Hunknown. }
  unfold findMessage. rewrite Hnone. split.
  - intros l1 m l2 Hh Htemp Hstat Hfirst.
    assert (Hfind : list_find (fun m => is_temp_pending m = true)
                      (ttsHistory st) = Some (length l1, m)).
    { apply list_find_Some. rewrite Hh. split; [apply list_lookup_middle; reflexivity|].
      split; [apply is_temp_pending_spec; auto|].
      intros j y Hj Hlt Hy. rewrite lookup_app_l in Hj by exact Hlt.
      apply (Hfirst y); [eapply list_elem_of_lookup_2; exact Hj|].
      apply is_temp_pending_spec. exact Hy. }
    rewrite Hfind. cbn [fst snd assign_status]. rewrite Hh.
    rewrite <- (Nat.add_0_r (length l1)).
    rewrite !alter_app_r. reflexivity.
  - intros Hno.
    assert (Hfind : list_find (fun m => is_temp_pending m = true)
                      (ttsHistory st) = None).
    { apply list_find_None, Forall_forall. intros x Hx Hy.
      apply (Hno x Hx). apply is_temp_pending_spec. exact Hy. }
    rewrite Hfind. reflexivity.
Qed.

Lemma status_event_unknown_id_witness :
  let h := [msg "12" "first" completed; msg "temp-5" "second" queued;
            msg "temp-4" "third" queued] in
  (forall m, m ∈ ttsHistory (history_store h) -> id m <> js "13") /\
  ttsHistory (on_tts_event EvStarted (js "13") (history_store h))
  = [msg "12" "first" completed; msg "13" "second" playing;
     msg "temp-4" "third" queued].
Proof.
  cbv zeta.
  assert (Hunknown : forall m,
             m ∈ ttsHistory (history_store
                   [msg "12" "first" completed; msg "temp-5" "second" queued;
                    msg "temp-4" "third" queued]) -> id m <> js "13").
  { intros m Hm. apply list_elem_of_In in Hm. vm_compute in Hm.
    destruct Hm as [<-|[<-|[<-|[]]]]; vm_compute; discriminate. }
  split; [exact Hunknown|].
  destruct (status_event_unknown_id EvStarted (js "13") _ Hunknown)
    as [Hfirst _].
  apply (Hfirst [msg "12" "first" completed] (msg "temp-5" "second" queued)
           [msg "temp-4" "third" queued]).
  - reflexivity.
  - vm_compute. reflexivity.
  - left. reflexivity.
  - intros x Hx [Ht _]. apply list_elem_of_In in Hx.
    destruct Hx as [<-|[]]. vm_compute in Ht. discriminate Ht.
Defined.

Lemma filter_id_fresh (tempId : jsstring) (h : list TtsMessage) :
  (forall m, m ∈ h -> id m <> tempId) ->
  filter (fun m => id m ≠ tempId) h = h.
Proof.
  induction h as [|x h IH]; intros Hfresh; [reflexivity|].
  rewrite filter_cons_True by (apply Hfresh, list_elem_of_here).
  rewrite IH; [reflexivity|].
  intros m Hm. apply Hfresh, list_elem_of_further, Hm.
Qed.

Lemma count_if_ext {A} (p q : A -> bool) (l : list A) :
  (forall x, x ∈ l -> p x = q x) -> count_if p l = count_if q l.
Proof.
  induction l as [|x l IH]; intros H; cbn [count_if]; [reflexivity|].
  rewrite (H x (list_elem_of_here _ _)), IH; [reflexivity|].
  intros y Hy. apply H, list_elem_of_further, Hy.
Qed.

Lemma count_if_alter_at {A} (p : A -> bool) (f : A -> A) (i : nat)
    (l : list A) (x : A) :
  l !! i = Some x -> p (f x) = p x -> count_if p (alter f i l) = count_if p l.
Proof.
  revert i. induction l as [|y l IH]; intros [|i] Hi Hp; cbn in *;
    try discriminate.
  - injection Hi as ->. rewrite Hp. reflexivity.
  - change (list_alter f i l) with (alter f i l). rewrite (IH i Hi Hp).
    reflexivity.
Qed.

Lemma length_filter_count {A} (P : A -> Prop) `{!forall x, Decision (P x)}
    (l : list A) :
  (length (filter P l) + count_if (fun x => negb (bool_decide (P x))) l
   = length l)%nat.
Proof.
  induction l as [|x l IH]; cbn [count_if]; [reflexivity|].
  rewrite filter_cons. destruct (decide (P x)) as [HP|HP].
  - rewrite (bool_decide_eq_true_2 _ HP). cbn. lia.
  - rewrite (bool_decide_eq_false_2 _ HP). cbn. lia.
Qed.

(** The rejection callback removes exactly the entries that carry the
    provisional id. *)
Lemma enqueue_rejected_removes (tempId err : jsstring) (st : Store) :
  (length (ttsHistory (enqueue_rejected tempId err st))
   + count_if (has_id tempId) (ttsHistory st)
   = length (ttsHistory st))%nat
  /\ forall m, m ∈ ttsHistory (enqueue_rejected tempId err st) ->
               id m <> tempId.
Proof.
  unfold enqueue_rejected, showToast.
  cbn [ttsHistory set_ttsHistory set_toast]. split.
  - rewrite <- (length_filter_count (fun m => id m ≠ tempId) (ttsHistory st)).
    f_equal. apply count_if_ext. intros x _. unfold has_id.
    destruct (decide (id x = tempId)) as [E|E].
    + rewrite (bool_decide_eq_true_2 _ E).
      rewrite bool_decide_eq_false_2 by (intros H; exact (H E)). reflexivity.
    + rewrite (bool_decide_eq_false_2 _ E).
      rewrite (bool_decide_eq_true_2 _ E). reflexivity.
  - intros m Hm. apply list_elem_of_filter in Hm as [Hm _]. exact Hm.
Qed.

(** A step that keeps the id keeps the number of entries that carry it. *)
Lemma keeps_id_count (tempId : jsstring) (e : TtsStep) (st : Store) :
  startsWith (js "temp-") tempId = true ->
  keeps_id tempId e (ttsHistory st) ->
  count_if (has_id tempId) (ttsHistory (tts_step e st))
  = count_if (has_id tempId) (ttsHistory st).
Proof.
  intros Htemp Hk.
  destruct e as [ev id0|txt now rnd|t r|t err|[serverHistory|]];
    cbn [tts_step keeps_id] in *.
  - rewrite ttsHistory_on_tts_event. unfold findMessage in *.
    destruct (list_find (fun m => id m = id0) (ttsHistory st))
      as [[i m]|].
    + cbn [fst snd assign_status]. apply count_if_alter_same. reflexivity.
    + destruct (list_find (fun m => is_temp_pending m = true) (ttsHistory st))
        as [[i m]|] eqn:Hf; cbn [fst snd assign_status] in *; [|reflexivity].
      destruct (Hk eq_refl) as [Hid0 Hi].
      apply list_find_Some in Hf as (Hm & _).
      rewrite alter_alter. apply (count_if_alter_at _ _ _ _ m Hm).
      unfold has_id. cbn [id set_id set_status].
      rewrite (bool_decide_eq_false_2 _ Hid0).
      rewrite (bool_decide_eq_false_2 _ (Hi i m eq_refl Hm)). reflexivity.
  - unfold speakTextWithHistory. cbn [snd ttsHistory set_ttsHistory count_if].
    unfold provisional in Hk. cbn [id] in Hk. unfold has_id at 1. cbn [id].
    rewrite (bool_decide_eq_false_2 _ Hk). reflexivity.
  - destruct Hk as [Ht Hr]. unfold enqueue_resolved.
    destruct (list_find (fun m => id m = t) (ttsHistory st))
      as [[i m]|] eqn:Hf; [|reflexivity].
    cbn [ttsHistory set_ttsHistory].
    apply list_find_Some in Hf as (Hi & Hid & _).
    apply (count_if_alter_at _ _ _ _ m Hi). unfold has_id. cbn [id set_id].
    rewrite (bool_decide_eq_false_2 _ Hr).
    rewrite bool_decide_eq_false_2 by congruence. reflexivity.
  - unfold enqueue_rejected, showToast.
    cbn [ttsHistory set_ttsHistory set_toast].
    rewrite count_if_filter_and. apply count_if_ext. intros x _.
    unfold has_id. destruct (decide (id x = tempId)) as [E|E].
    + rewrite (bool_decide_eq_true_2 _ E).
      rewrite bool_decide_eq_true_2 by congruence. reflexivity.
    + rewrite (bool_decide_eq_false_2 _ E). reflexivity.
  - cbn [fetchTtsHistory_resume ttsHistory set_ttsHistory].
    rewrite merge_history_as_described. unfold merge_as_described.
    rewrite count_if_app, count_if_map, count_if_filter_and.
    rewrite (count_if_none _ serverHistory).
    + cbn [Nat.add]. apply count_if_ext. intros x _.
      unfold has_id. destruct (decide (id x = tempId)) as [E|E].
      * rewrite (bool_decide_eq_true_2 _ E). cbn [andb].
        apply bool_decide_eq_true_2. rewrite E. split; [exact Htemp|].
        intros Hin. apply elem_of_map_inv in Hin as (s & Hs & Hid).
        exact (Hk s Hs (eq_sym Hid)).
      * rewrite (bool_decide_eq_false_2 _ E). reflexivity.
    + intros j s Hj Hs. unfold has_id in Hs. apply bool_decide_eq_true in Hs.
      rewrite keep_local_status_id in Hs.
      exact (Hk s (list_elem_of_lookup_2 _ _ _ Hj) Hs).
  - reflexivity.
Qed.

Lemma run_keeps_id_count (tempId : jsstring) (es : list TtsStep) (st : Store) :
  startsWith (js "temp-") tempId = true ->
  run_keeps_id tempId es st ->
  count_if (has_id tempId) (ttsHistory (tts_run es st))
  = count_if (has_id tempId) (ttsHistory st).
Proof.
  intros Htemp. revert st. induction es as [|e es IH]; intros st Hrun;
    [reflexivity|].
  destruct Hrun as [He Hes]. cbn [tts_run foldl].
  change (foldl (fun s e => tts_step e s) (tts_step e st) es)
    with (tts_run es (tts_step e st)).
  rewrite (IH _ Hes). apply keeps_id_count; assumption.
Qed.

(** C4 (as the code has it). When [enqueue_tts] is rejected, the [catch]
    callback removes the entries that carry the provisional id and shows an
    error toast with the error's text. Run right after the call, it leaves
    the history, entry for entry, what it was before the call. Run later,
    it removes exactly one entry if and only if exactly one entry carries
    the provisional id by then; and that is the case after any operations
    none of which took the provisional id off its entry (no status event in
    between adopted the entry) or brought it on another entry. The
    provisional id is fresh (no entry of the history already carries it),
    as a time stamp followed by a random suffix makes it. *)
Theorem rejected_enqueue_rolls_back (txt : jsstring) (now : Z)
    (rnd err : jsstring) (st : Store) :
  let tempId := fst (speakTextWithHistory txt now rnd st) in
  let st1 := snd (speakTextWithHistory txt now rnd st) in
  let st2 := enqueue_rejected tempId err st1 in
  (forall m, m ∈ ttsHistory st -> id m <> tempId) ->
  length (ttsHistory st1) = S (length (ttsHistory st))
  /\ ttsHistory st2 = ttsHistory st
  /\ length (ttsHistory st2) = length (ttsHistory st)
  /\ toast st2 = {| show := true; message := err; type := error |}
  /\ (forall st',
        let st3 := enqueue_rejected tempId err st' in
        ttsHistory st3 = filter (fun m => id m ≠ tempId) (ttsHistory st')
        /\ (forall m, m ∈ ttsHistory st3 -> id m <> tempId)
        /\ toast st3 = {| show := true; message := err; type := error |}
        /\ (count_if (has_id tempId) (ttsHistory st') = 1%nat
            <-> S (length (ttsHistory st3)) = length (ttsHistory st')))
  /\ (forall es,
        run_keeps_id tempId es st1 ->
        count_if (has_id tempId) (ttsHistory (tts_run es st1)) = 1%nat).
Proof.
  cbv zeta. intros Hfresh.
  assert (Hnow : ttsHistory
                   (enqueue_rejected (fst (speakTextWithHistory txt now rnd st))
                      err (snd (speakTextWithHistory txt now rnd st)))
                 = ttsHistory st).
  { unfold enqueue_rejected, speakTextWithHistory, showToast in *.
    cbn [fst snd ttsHistory set_ttsHistory set_toast toast] in *.
    rewrite filter_cons_False by (intros H; apply H; reflexivity).
    apply (filter_id_fresh _ _ Hfresh). }
  split; [reflexivity|]. split; [exact Hnow|].
  split; [rewrite Hnow; reflexivity|]. split; [reflexivity|].
  change (fst (speakTextWithHistory txt now rnd st))
    with (id (provisional txt now rnd)) in *.
  split.
  - intros st'.
    destruct (enqueue_rejected_removes (id (provisional txt now rnd)) err st')
      as [Hlen Hgone].
    split; [reflexivity|]. split; [exact Hgone|]. split; [reflexivity|]. lia.
  - intros es Hrun.
    assert (Htemp : startsWith (js "temp-") (id (provisional txt now rnd))
                    = true) by apply startsWith_app.
    rewrite (run_keeps_id_count _ es _ Htemp Hrun).
    unfold speakTextWithHistory. cbn [snd ttsHistory set_ttsHistory count_if].
    unfold has_id at 1. rewrite bool_decide_eq_true_2 by reflexivity.
    rewrite (count_if_none _ (ttsHistory st)); [reflexivity|].
    intros j x Hj Hx. apply bool_decide_eq_true in Hx.
    exact (Hfresh x (list_elem_of_lookup_2 _ _ _ Hj) Hx).
Qed.

Lemma rejected_enqueue_rolls_back_witness :
  let st := history_store [msg "12" "first" completed] in
  let tempId := fst (speakTextWithHistory (js "hi") 1700000000123 (js "k3j9x1a") st) in
  let st1 := snd (speakTextWithHistory (js "hi") 1700000000123 (js "k3j9x1a") st) in
  let st2 := enqueue_rejected tempId (js "no audio device") st1 in
  let es := [ StatusPushed EvStarted (js "12");
              HistoryFetched (Some [msg "12" "first" completed]) ] in
  (forall m, m ∈ ttsHistory st -> id m <> tempId) /\
  length (ttsHistory st1) = 2%nat /\
  ttsHistory st2 = [msg "12" "first" completed] /\
  toast st2 = {| show := true; message := js "no audio device"; type := error |} /\
  run_keeps_id tempId es st1 /\
  count_if (has_id tempId) (ttsHistory (tts_run es st1)) = 1%nat /\
  ttsHistory (enqueue_rejected tempId (js "no audio device") (tts_run es st1))
  = [msg "12" "first" playing].
Proof.
  cbv zeta.
  assert (Hfresh : forall m,
             m ∈ ttsHistory (history_store [msg "12" "first" completed]) ->
             id m <> fst (speakTextWithHistory (js "hi") 1700000000123
                            (js "k3j9x1a")
                            (history_store [msg "12" "first" completed]))).
  { intros m Hm. apply list_elem_of_In in Hm.
    destruct Hm as [<-|[]]. vm_compute. discriminate. }
  assert (Hrun : run_keeps_id
                   (fst (speakTextWithHistory (js "hi") 1700000000123
                           (js "k3j9x1a")
                           (history_store [msg "12" "first" completed])))
                   [ StatusPushed EvStarted (js "12");
                     HistoryFetched (Some [msg "12" "first" completed]) ]
                   (snd (speakTextWithHistory (js "hi") 1700000000123
                           (js "k3j9x1a")
                           (history_store [msg "12" "first" completed])))).
  { split.
    - intros Hadopt. vm_compute in Hadopt. discriminate Hadopt.
    - split; [|exact I]. intros s Hs. apply list_elem_of_In in Hs.
      destruct Hs as [<-|[]]. vm_compute. discriminate. }
  destruct (rejected_enqueue_rolls_back (js "hi") 1700000000123 (js "k3j9x1a")
              (js "no audio device")
              (history_store [msg "12" "first" completed]) Hfresh)
    as (H1 & H2 & _ & H4 & _ & H6).
  split; [exact Hfresh|]. split; [exact H1|]. split; [exact H2|].
  split; [exact H4|]. split; [exact Hrun|]. split; [exact (H6 _ Hrun)|].
  vm_compute. reflexivity.
Defined.

(** C4 as stated fails. Between the call and the rejection the backend
    pushes a status event with an id the history does not know: the handler
    takes the provisional entry for it and renames it, and the rejection,
    which looks for the provisional id, removes nothing. The history is one
    entry longer than before the call. *)
Lemma rejected_enqueue_leaves_renamed_entry :
  let st := history_store [msg "12" "first" completed] in
  let tempId := fst (speakTextWithHistory (js "hi") 1700000000123
                       (js "k3j9x1a") st) in
  let st3 :=
    tts_run [ Speak (js "hi") 1700000000123 (js "k3j9x1a");
              StatusPushed EvStarted (js "13");
              EnqueueRejected tempId (js "queue full") ] st in
  length (ttsHistory st) = 1%nat
  /\ length (ttsHistory st3) = 2%nat
  /\ map id (ttsHistory st3) = [js "13"; js "12"]
  /\ map text (ttsHistory st3) = [js "hi"; js "first"]
  /\ toast st3 = {| show := true; message := js "queue full"; type := error |}.
Proof. vm_compute. repeat split. Qed.

(** ** History: at most one entry playing *)

Lemma count_playing_findMessage (id0 : jsstring) (h : list TtsMessage) :
  count_playing (snd (findMessage id0 h)) = count_playing h.
Proof.
  unfold findMessage.
  destruct (list_find _ h) as [[i ?]|]; [reflexivity|].
  destruct (list_find _ h) as [[i ?]|]; [|reflexivity].
  apply count_if_alter_same. reflexivity.
Qed.

Lemma count_playing_assign_completed (m : option nat) (h : list TtsMessage) :
  (count_playing (assign_status completed m h) <= count_playing h)%nat.
Proof.
  destruct m as [i|]; [|reflexivity].
  apply count_if_alter_off. reflexivity.
Qed.

Lemma count_playing_assign_playing (m : option nat) (h : list TtsMessage) :
  (count_playing (assign_status playing m h) <= S (count_playing h))%nat.
Proof.
  destruct m as [i|]; cbn [assign_status]; [apply count_if_alter_on|].
  apply Nat.le_succ_diag_r.
Qed.

(** In the merged list, the server's part brings at most one playing entry
    per playing local entry whose id the server lists. *)
Lemma count_playing_server_part (localHistory ss : list TtsMessage) :
  NoDup (map id ss) ->
  (forall s, s ∈ ss -> status s = playing ->
             exists l, l ∈ localHistory /\ id l = id s) ->
  (count_playing (map (keep_local_status localHistory) ss)
   <= count_if (fun l => is_playing l && bool_decide (id l ∈ map id ss))
        localHistory)%nat.
Proof.
  unfold count_playing.
  induction ss as [|s ss IH]; intros Hnd Hknown; cbn [map count_if]; [lia|].
  cbn [map] in Hnd. apply NoDup_cons in Hnd as [Hs Hnd].
  assert (IH' := IH Hnd (fun x Hx => Hknown x (list_elem_of_further _ _ _ Hx))).
  clear IH.
  assert (Hsplit :
    (count_if (fun l => is_playing l && bool_decide (id l = id s)) localHistory
     + count_if (fun l => is_playing l && bool_decide (id l ∈ map id ss))
         localHistory
     <= count_if (fun l => is_playing l
                           && bool_decide (id l ∈ id s :: map id ss))
          localHistory)%nat).
  { rewrite count_if_disjoint.
    - apply count_if_mono. intros x Hx.
      apply orb_prop in Hx as [Hx|Hx]; apply andb_prop in Hx as [Hp Hi];
        rewrite Hp; simpl; apply bool_decide_eq_true;
        apply bool_decide_eq_true in Hi.
      + rewrite Hi. apply list_elem_of_here.
      + apply list_elem_of_further. exact Hi.
    - intros x Hx Hy. apply andb_prop in Hx as [_ Hx].
      apply andb_prop in Hy as [_ Hy].
      apply bool_decide_eq_true in Hx, Hy. apply Hs. rewrite <- Hx. exact Hy. }
  assert (Hhead :
    ((if is_playing (keep_local_status localHistory s) then 1 else 0)
     <= count_if (fun l => is_playing l && bool_decide (id l = id s))
          localHistory)%nat).
  { destruct (is_playing (keep_local_status localHistory s)) eqn:Hp; [|lia].
    unfold keep_local_status in Hp.
    destruct (list_find (fun m => id m = id s) localHistory) as [[i l]|] eqn:Hf.
    - apply list_find_Some in Hf as (Hl & Hid & _).
      apply (count_if_elem _ _ l).
      + eapply list_elem_of_lookup_2. exact Hl.
      + unfold is_playing in *. simpl in Hp. rewrite Hp. simpl.
        apply bool_decide_eq_true. exact Hid.
    - apply list_find_None in Hf. rewrite Forall_forall in Hf.
      apply bool_decide_eq_true in Hp.
      destruct (Hknown s (list_elem_of_here _ _) Hp) as (l & Hl & Hid).
      destruct (Hf l Hl Hid). }
  lia.
Qed.

Lemma count_playing_merge (serverHistory localHistory : list TtsMessage) :
  NoDup (map id serverHistory) ->
  (forall s, s ∈ serverHistory -> status s = playing ->
             exists l, l ∈ localHistory /\ id l = id s) ->
  (count_playing (merge_history serverHistory localHistory)
   <= count_playing localHistory)%nat.
Proof.
  intros Hnd Hknown. rewrite merge_history_as_described.
  unfold merge_as_described, count_playing. rewrite count_if_app.
  pose proof (count_playing_server_part localHistory serverHistory Hnd Hknown)
    as HA.
  unfold count_playing in HA.
  rewrite count_if_filter_and.
  assert (HB :
    (count_if (fun l => is_playing l && bool_decide (id l ∈ map id serverHistory))
       localHistory
     + count_if (fun l => is_playing l
                   && bool_decide (startsWith (js "temp-") (id l) = true
                                   /\ id l ∉ map id serverHistory))
         localHistory
     <= count_if is_playing localHistory)%nat).
  { rewrite count_if_disjoint.
    - apply count_if_mono. intros x Hx.
      apply orb_prop in Hx as [Hx|Hx]; apply andb_prop in Hx as [Hp _];
        exact Hp.
    - intros x Hx Hy. apply andb_prop in Hx as [_ Hx].
      apply andb_prop in Hy as [_ Hy].
      apply bool_decide_eq_true in Hx, Hy. destruct Hy as [_ Hy]. auto. }
  lia.
Qed.

(** The number of playing entries after a refresh. *)
Lemma count_playing_refresh (serverHistory localHistory : list TtsMessage) :
  count_playing (merge_history serverHistory localHistory)
  = playing_after_refresh serverHistory localHistory.
Proof.
  rewrite merge_history_as_described.
  unfold merge_as_described, count_playing, playing_after_refresh.
  rewrite count_if_app, count_if_map, count_if_filter_and. reflexivity.
Qed.

(** What a [tts:started] event does to the history: nothing when it finds
    no entry, and otherwise it rewrites the entry it finds into one that is
    playing. *)
Lemma on_tts_started_marks (id0 : jsstring) (h : list TtsMessage) :
  match fst (fst (findMessage id0 h)) with
  | Some i =>
      is_Some (h !! i)
      /\ exists g, (forall x, is_playing (g x) = true)
                   /\ assign_status playing (Some i) (snd (findMessage id0 h))
                      = alter g i h
  | None => assign_status playing None (snd (findMessage id0 h)) = h
  end.
Proof.
  unfold findMessage.
  destruct (list_find (fun m => id m = id0) h) as [[i m]|] eqn:H1;
    cbn [fst snd assign_status].
  - apply list_find_Some in H1 as (Hi & _). split; [eauto|].
    exists (set_status playing). split; [reflexivity|reflexivity].
  - destruct (list_find (fun m => is_temp_pending m = true) h)
      as [[i m]|] eqn:H2; cbn [fst snd assign_status]; [|reflexivity].
    apply list_find_Some in H2 as (Hi & _). split; [eauto|].
    exists (fun x => set_status playing (set_id id0 x)).
    split; [reflexivity|]. apply alter_alter.
Qed.

(** What each operation does to the number of playing entries. *)
Lemma tts_step_count_playing (e : TtsStep) (st : Store) :
  match e with
  | StatusPushed EvStarted _ =>
      (count_playing (ttsHistory (tts_step e st))
       <= S (count_playing (ttsHistory st)))%nat
  | HistoryFetched (Some serverHistory) =>
      count_playing (ttsHistory (tts_step e st))
      = playing_after_refresh serverHistory (ttsHistory st)
  | _ =>
      (count_playing (ttsHistory (tts_step e st))
       <= count_playing (ttsHistory st))%nat
  end.
Proof.
  destruct e as [ev id0|txt now rnd|tempId realId|tempId err|r];
    cbn [tts_step].
  - pose proof (count_playing_findMessage id0 (ttsHistory st)) as Hf.
    pose proof (count_playing_assign_playing
                  (fst (fst (findMessage id0 (ttsHistory st))))
                  (snd (findMessage id0 (ttsHistory st)))) as Hp.
    pose proof (count_playing_assign_completed
                  (fst (fst (findMessage id0 (ttsHistory st))))
                  (snd (findMessage id0 (ttsHistory st)))) as Hc.
    destruct ev; rewrite ttsHistory_on_tts_event; cbn [event_status]; lia.
  - unfold speakTextWithHistory, count_playing.
    cbn [snd ttsHistory set_ttsHistory count_if].
    match goal with
    | |- context [is_playing ?m] => change (is_playing m) with false
    end.
    cbn [Nat.add]. lia.
  - unfold enqueue_resolved.
    destruct (list_find _ (ttsHistory st)) as [[i ?]|]; [|lia].
    cbn [ttsHistory set_ttsHistory]. unfold count_playing.
    rewrite count_if_alter_same by reflexivity. lia.
  - unfold enqueue_rejected, showToast.
    cbn [ttsHistory set_ttsHistory set_toast].
    apply (count_if_filter (fun m => id m ≠ tempId) is_playing).
  - destruct r as [serverHistory|]; [|cbn; lia].
    cbn [fetchTtsHistory_resume ttsHistory set_ttsHistory].
    apply count_playing_refresh.
Qed.

(** From a history with at most one playing entry, a step leaves at most
    one playing entry exactly when it is admissible. *)
Lemma tts_step_single_playing (e : TtsStep) (st : Store) :
  (count_playing (ttsHistory st) <= 1)%nat ->
  step_admissible e (ttsHistory st)
  <-> (count_playing (ttsHistory (tts_step e st)) <= 1)%nat.
Proof.
  intros Hinv. pose proof (tts_step_count_playing e st) as Hcount.
  destruct e as [[| |err|] id0|txt now rnd|tempId realId|tempId err|[sh|]];
    cbn [step_admissible]; try (split; [intros _; lia|exact (fun _ => I)]).
  - clear Hcount. cbn [tts_step]. rewrite ttsHistory_on_tts_event.
    cbn [event_status].
    pose proof (on_tts_started_marks id0 (ttsHistory st)) as Hmark.
    destruct (fst (fst (findMessage id0 (ttsHistory st)))) as [i|].
    + destruct Hmark as (Hi & g & Hg & ->). unfold count_playing.
      rewrite (count_if_alter_mark is_playing g i (ttsHistory st) Hi Hg).
      split; intros H j m Hj Hm; apply (H j m Hj).
      * apply bool_decide_eq_true in Hm. exact Hm.
      * apply bool_decide_eq_true. exact Hm.
    + rewrite Hmark. split; [intros _; exact Hinv|exact (fun _ => I)].
  - rewrite Hcount. reflexivity.
Qed.

Lemma run_admissible_app (es1 es2 : list TtsStep) (st : Store) :
  run_admissible (es1 ++ es2) st -> run_admissible es1 st.
Proof.
  revert st. induction es1 as [|e es1 IH]; intros st H; [exact I|].
  destruct H as [He H]. split; [exact He|apply IH, H].
Qed.

Lemma tts_run_single_playing (es : list TtsStep) (st : Store) :
  (count_playing (ttsHistory st) <= 1)%nat ->
  run_admissible es st ->
  (count_playing (ttsHistory (tts_run es st)) <= 1)%nat.
Proof.
  revert st. induction es as [|e es IH]; intros st Hinv Hadm; [exact Hinv|].
  destruct Hadm as [He Hes]. cbn [tts_run foldl].
  apply IH; [apply tts_step_single_playing; assumption|exact Hes].
Qed.

(** C3 (as the code has it). Over any sequence of client-side operations on
    the history (status events, enqueue with its acknowledgement or
    rejection, history refresh), at most one entry is playing at every
    point, provided that each [tts:started] event arrives when no entry
    other than the one it marks is playing, and that each fetched history,
    once merged, leaves at most one entry playing. The provisos are exact:
    from a history with at most one playing entry, a step keeps the
    invariant if and only if it is admissible. The client itself never
    demotes a playing entry when another one starts: the handlers of
    completed, failed and cancelled, enqueue, its acknowledgement and its
    rejection never increase the number of playing entries, [tts:started]
    increases it by at most one, and a refresh leaves the number that the
    merge determines. A refresh is admissible, in particular, when the
    server's ids are distinct and every playing entry it lists is known
    locally; and on an empty local history, when the server lists at most
    one playing entry. *)
Theorem single_playing_preserved (es : list TtsStep) (st : Store) :
  (count_playing (ttsHistory st) <= 1)%nat ->
  run_admissible es st ->
  (forall es1 es2, es = es1 ++ es2 ->
     (count_playing (ttsHistory (tts_run es1 st)) <= 1)%nat)
  /\ (forall e s,
        (count_playing (ttsHistory s) <= 1)%nat ->
        step_admissible e (ttsHistory s)
        <-> (count_playing (ttsHistory (tts_step e s)) <= 1)%nat)
  /\ (forall e s,
        match e with
        | StatusPushed EvStarted _ =>
            (count_playing (ttsHistory (tts_step e s))
             <= S (count_playing (ttsHistory s)))%nat
        | HistoryFetched (Some serverHistory) =>
            count_playing (ttsHistory (tts_step e s))
            = playing_after_refresh serverHistory (ttsHistory s)
        | _ =>
            (count_playing (ttsHistory (tts_step e s))
             <= count_playing (ttsHistory s))%nat
        end)
  /\ (forall serverHistory h,
        NoDup (map id serverHistory) ->
        (forall s, s ∈ serverHistory -> status s = playing ->
                   exists l, l ∈ h /\ id l = id s) ->
        (playing_after_refresh serverHistory h <= count_playing h)%nat)
  /\ (forall serverHistory,
        playing_after_refresh serverHistory [] = count_playing serverHistory).
Proof.
  intros Hinv Hadm. split; [|split; [|split; [|split]]].
  - intros es1 es2 ->. apply tts_run_single_playing; [exact Hinv|].
    apply (run_admissible_app es1 es2 st Hadm).
  - intros e s. apply tts_step_single_playing.
  - intros e s. apply tts_step_count_playing.
  - intros serverHistory h Hnd Hknown. rewrite <- count_playing_refresh.
    apply count_playing_merge; assumption.
  - intros serverHistory. unfold playing_after_refresh, count_playing.
    cbn [count_if]. rewrite Nat.add_0_r. reflexivity.
Qed.

Lemma single_playing_preserved_witness :
  let es := [ HistoryFetched (Some [msg "1" "one" playing;
                                    msg "2" "two" queued]);
              StatusPushed EvStarted (js "1");
              StatusPushed EvCompleted (js "1");
              StatusPushed EvStarted (js "2") ] in
  (count_playing (ttsHistory initialStore) <= 1)%nat /\
  run_admissible es initialStore /\
  count_playing (ttsHistory (tts_run (take 2 es) initialStore)) = 1%nat /\
  (count_playing (ttsHistory (tts_run es initialStore)) <= 1)%nat.
Proof.
  cbv zeta.
  assert (Hinv : (count_playing (ttsHistory initialStore) <= 1)%nat)
    by (vm_compute; lia).
  assert (Hadm : run_admissible
                   [ HistoryFetched (Some [msg "1" "one" playing;
                                           msg "2" "two" queued]);
                     StatusPushed EvStarted (js "1");
                     StatusPushed EvCompleted (js "1");
                     StatusPushed EvStarted (js "2") ] initialStore).
  { split; [vm_compute; lia|]. split.
    { vm_compute. intros [|[|j]] m Hj Hm; [reflexivity|..].
      - injection Hj as <-. discriminate Hm.
      - destruct j; discriminate Hj. }
    split; [exact I|]. split; [|exact I].
    vm_compute. intros [|[|j]] m Hj Hm.
    - injection Hj as <-. discriminate Hm.
    - reflexivity.
    - destruct j; discriminate Hj. }
  split; [exact Hinv|]. split; [exact Hadm|]. split; [reflexivity|].
  destruct (single_playing_preserved _ initialStore Hinv Hadm) as [Hrun _].
  apply (Hrun _ []). rewrite app_nil_r. reflexivity.
Defined.

(** C3 as stated fails. Two [tts:started] events in a row leave two entries
    playing; and a refresh whose answer lists a playing entry that the
    client has not heard of, next to one the client still holds as playing,
    leaves two entries playing as well. *)
Lemma started_twice_two_playing :
  map id (ttsHistory two_queued) = [js "2"; js "1"]
  /\ count_playing (ttsHistory two_queued) = 0%nat
  /\ count_playing
       (ttsHistory
          (tts_run [ StatusPushed EvStarted (js "1");
                     StatusPushed EvStarted (js "2") ] two_queued)) = 2%nat
  /\ count_playing
       (ttsHistory
          (tts_run [ StatusPushed EvStarted (js "1");
                     HistoryFetched
                       (Some [msg "3" "one" playing; msg "2" "two" queued;
                              msg "1" "one" completed]) ]
             two_queued)) = 2%nat.
Proof. vm_compute. repeat split. Qed.

(** ** Overlay hotkey: the debounce *)

(** C6 (as the code has it). In overlay mode, when a trigger from either
    source is itself accepted (it comes at least 300 ms after the last
    accepted one) and a second trigger from either source comes less than
    300 ms after it, the first performs one window transition and the
    second performs none: the pair yields exactly one transition, and the
    debounce clock stays at the time of the first. *)
Theorem second_trigger_debounced (src1 src2 : HotkeySource) (t1 t2 : Z)
    (q1 q2 : WindowQuery) (st1 st2 : Store) (sh : Shell) :
  hotkeyMode st1 = overlay_call ->
  HOTKEY_DEBOUNCE_MS <= t1 - lastHotkeyCallTime sh ->
  t2 - t1 < HOTKEY_DEBOUNCE_MS ->
  let r1 := hotkey_trigger src1 t1 q1 st1 sh in
  let r2 := hotkey_trigger src2 t2 q2 st2 (snd r1) in
  is_Some (fst r1)
  /\ fst r2 = None
  /\ lastHotkeyCallTime (snd r2) = t1
  /\ transitions [fst r1; fst r2] = 1%nat.
Proof.
  intros Hmode Hfar Hnear.
  assert (H1 : exists a m,
             hotkey_trigger src1 t1 q1 st1 sh
             = (Some a, {| lastHotkeyCallTime := t1; metaPressed := m |})).
  { destruct src1; unfold hotkey_trigger, keydown_Escape, keydown_Meta,
      on_show_window_requested, handleWinEscHotkey;
      cbn [metaPressed lastHotkeyCallTime]; rewrite Hmode;
      rewrite bool_decide_eq_true_2 by reflexivity; cbn [negb];
      destruct (Z.ltb_spec (t1 - lastHotkeyCallTime sh) HOTKEY_DEBOUNCE_MS);
      try lia;
      destruct (isMinimized q1 || negb (isVisible q1)), (isFocused q1);
      eauto. }
  destruct H1 as (a & m & E1). cbv zeta. rewrite E1. cbn [fst snd].
  assert (H2 : fst (hotkey_trigger src2 t2 q2 st2
                      {| lastHotkeyCallTime := t1; metaPressed := m |}) = None
               /\ lastHotkeyCallTime
                    (snd (hotkey_trigger src2 t2 q2 st2
                            {| lastHotkeyCallTime := t1; metaPressed := m |}))
                  = t1).
  { destruct src2; unfold hotkey_trigger, keydown_Escape, keydown_Meta,
      on_show_window_requested, handleWinEscHotkey;
      cbn [metaPressed lastHotkeyCallTime];
      destruct (bool_decide (hotkeyMode st2 = overlay_call));
      cbn [fst snd lastHotkeyCallTime]; auto;
      destruct (Z.ltb_spec (t2 - t1) HOTKEY_DEBOUNCE_MS); try lia;
      cbn [fst snd lastHotkeyCallTime]; auto. }
  destruct H2 as [E2 E3]. rewrite E2, E3.
  split; [eauto|]. split; [reflexivity|]. split; reflexivity.
Qed.

Lemma second_trigger_debounced_witness :
  let r1 := hotkey_trigger InWindow 1700000000000 hiddenWindow initialStore
              initialShell in
  let r2 := hotkey_trigger FromHook 1700000000040 focusedWindow initialStore
              (snd r1) in
  hotkeyMode initialStore = overlay_call
  /\ HOTKEY_DEBOUNCE_MS <= 1700000000000 - lastHotkeyCallTime initialShell
  /\ 1700000000040 - 1700000000000 < HOTKEY_DEBOUNCE_MS
  /\ is_Some (fst r1)
  /\ fst r2 = None
  /\ lastHotkeyCallTime (snd r2) = 1700000000000
  /\ transitions [fst r1; fst r2] = 1%nat.
Proof.
  cbv zeta. split; [reflexivity|].
  split; [vm_compute; discriminate|]. split; [reflexivity|].
  apply (second_trigger_debounced InWindow FromHook 1700000000000
           1700000000040 hiddenWindow focusedWindow initialStore initialStore
           initialShell).
  - reflexivity.
  - vm_compute. discriminate.
  - reflexivity.
Defined.

(** C6 as stated fails for a pair whose first trigger is itself debounced.
    After an accepted trigger at time T, triggers at T+200 and T+400 are
    200 ms apart, yet the second of them is performed (it is 400 ms after
    the accepted one); and triggers at T+100 and T+200 are both ignored, so
    that pair performs no transition at all. Outside overlay mode neither
    source performs a transition. *)
Lemma second_trigger_not_ignored :
  let T := 1700000000000 in
  let r0 := hotkey_trigger FromHook T hiddenWindow initialStore initialShell in
  let r1 := hotkey_trigger InWindow (T + 200) focusedWindow initialStore
              (snd r0) in
  let r2 := hotkey_trigger FromHook (T + 400) focusedWindow initialStore
              (snd r1) in
  let r1' := hotkey_trigger InWindow (T + 100) focusedWindow initialStore
               (snd r0) in
  let r2' := hotkey_trigger FromHook (T + 200) focusedWindow initialStore
               (snd r1') in
  fst r0 = Some ShowWindowOverlay
  /\ (T + 400) - (T + 200) < HOTKEY_DEBOUNCE_MS
  /\ fst r1 = None
  /\ fst r2 = Some HideWindowAndRestoreFocus
  /\ transitions [fst r1'; fst r2'] = 0%nat
  /\ transitions
       [ fst (hotkey_trigger FromHook T hiddenWindow backgroundStore
                initialShell);
         fst (hotkey_trigger InWindow (T + 100) hiddenWindow backgroundStore
                initialShell) ] = 0%nat.
Proof. vm_compute. repeat split. Qed.

(** ** Continuous play: the split at the first terminator *)

Lemma match_terminator_first (s : jsstring) (p : nat) (t : N) :
  s !! p = Some t ->
  is_terminator t = true ->
  (forall j c, (j < p)%nat -> s !! j = Some c -> is_terminator c = false) ->
  match_terminator s = Some p.
Proof.
  revert p. induction s as [|c s IH]; intros p Hp Ht Hbefore;
    [destruct p; discriminate Hp|].
  destruct p as [|p]; cbn [match_terminator].
  - injection Hp as ->. rewrite Ht. reflexivity.
  - rewrite (Hbefore 0%nat c) by (reflexivity || lia).
    rewrite (IH p); [reflexivity|exact Hp|exact Ht|].
    intros j d Hj Hd. apply (Hbefore (S j) d); [lia|exact Hd].
Qed.

(** C7 (as the code has it). In continuous mode, let the first terminator
    of the composed text be at position [p]. The watcher, when nothing is
    being played and its re-entrancy flag is clear, enqueues the text up to
    and including position [p] as one utterance, raises the flag, and (at
    the next tick) leaves the rest as the composed text. Manual play does
    the same split on the text of the store, whatever the playback state. *)
Theorem continuous_split_at_first_terminator (newText : jsstring) (p : nat)
    (t : N) (now : Z) (rnd : jsstring) (st : Store) :
  continuousPlay st = true ->
  newText !! p = Some t ->
  is_terminator t = true ->
  (forall j c, (j < p)%nat -> newText !! j = Some c -> is_terminator c = false) ->
  (isPlaying st = false ->
   let w := watch_interceptedText newText now rnd false st in
   ttsHistory (storeAfter w)
   = provisional (take (S p) newText) now rnd :: ttsHistory st
   /\ isProcessingSpeech w = true
   /\ deferredText w = Some (drop (S p) newText)
   /\ interceptedText (storeAfter (run_deferredText w)) = drop (S p) newText)
  /\ (interceptedText st = newText ->
      ttsHistory (handlePlay now rnd st)
      = provisional (take (S p) newText) now rnd :: ttsHistory st
      /\ interceptedText (handlePlay now rnd st) = drop (S p) newText).
Proof.
  intros Hcont Hp Ht Hbefore.
  pose proof (match_terminator_first newText p t Hp Ht Hbefore) as Hm.
  assert (Hne : newText <> []) by (intros ->; destruct p; discriminate Hp).
  split.
  - intros Hplay. cbv zeta. unfold watch_interceptedText.
    rewrite Hcont, Hplay, (bool_decide_eq_false_2 _ Hne), Hm.
    cbn [negb orb]. rewrite Nat.add_1_r.
    unfold run_deferredText, slice_to, slice_from.
    cbn [deferredText storeAfter isProcessingSpeech].
    repeat split; reflexivity.
  - intros Htext. unfold handlePlay, handlePlay_begin.
    rewrite Htext, Hcont, (bool_decide_eq_false_2 _ Hne), Hm.
    rewrite Nat.add_1_r. unfold slice_to, slice_from.
    split; reflexivity.
Qed.

Lemma continuous_split_at_first_terminator_witness :
  let newText := js "Hello world." in
  let w := watch_interceptedText newText 1700000000123 (js "k3j9x1a") false
             continuousStore in
  continuousPlay continuousStore = true
  /\ newText !! 11%nat = Some 46%N
  /\ is_terminator 46 = true
  /\ isPlaying continuousStore = false
  /\ map text (ttsHistory (storeAfter w)) = [js "Hello world."]
  /\ interceptedText (storeAfter (run_deferredText w)) = [].
Proof.
  cbv zeta.
  assert (Hbefore : forall j c, (j < 11)%nat ->
             js "Hello world." !! j = Some c -> is_terminator c = false).
  { intros j c Hj. do 11 (destruct j as [|j]; [intros [= <-]; reflexivity|]).
    lia. }
  destruct (continuous_split_at_first_terminator (js "Hello world.") 11 46
              1700000000123 (js "k3j9x1a") continuousStore
              eq_refl eq_refl eq_refl Hbefore) as [Hwatch _].
  destruct (Hwatch eq_refl) as (Hh & _ & _ & Htext).
  split; [reflexivity|]. split; [reflexivity|]. split; [reflexivity|].
  split; [reflexivity|]. split.
  - rewrite Hh. reflexivity.
  - rewrite Htext. reflexivity.
Defined.

(** C7 as stated fails while the store reports playback in progress, and
    during the cool-down after a dispatch: the watcher returns without
    enqueuing anything and without touching the text. *)
Lemma watcher_silent_while_playing :
  let st := fetchTtsStatus_resume true true initialStore in
  continuousPlay st = true
  /\ match_terminator (js "Hello world.") = Some 11%nat
  /\ watch_interceptedText (js "Hello world.") 1700000000123 (js "k3j9x1a")
       false st = mkWatched false None st
  /\ watch_interceptedText (js "Hello world.") 1700000000123 (js "k3j9x1a")
       true continuousStore = mkWatched true None continuousStore.
Proof. vm_compute. repeat split. Qed.

(** * Properties of the further code *)

(** ** Key path *)

Ltac case_ifs :=
  repeat match goal with
         | |- context [if ?b then _ else _] => destruct b
         end.

(** The translator writes the composed text and the pending buffer, and
    nothing else. *)
Lemma processInterceptedKey_writes (key : KeyEvent) (st : Store) :
  exists t p,
    processInterceptedKey key st
    = set_pendingTextUpdate p (set_interceptedText t st).
Proof.
  destruct st. unfold processInterceptedKey, append_pending, by_lang.
  cbn [inputLanguage capsLock pendingTextUpdate interceptedText].
  case_ifs; eexists _, _; reflexivity.
Qed.

Lemma scheduleTextUpdate_scheduled (st : Store) :
  textUpdateScheduled (scheduleTextUpdate st) = true.
Proof.
  unfold scheduleTextUpdate. destruct (textUpdateScheduled st) eqn:E;
    [exact E|reflexivity].
Qed.

Lemma scheduleTextUpdate_fields (st : Store) :
  exists b, scheduleTextUpdate st = set_textUpdateScheduled b st.
Proof.
  unfold scheduleTextUpdate. destruct st as [? ? ? ? ? ? ? ? ? []];
    eexists; reflexivity.
Qed.

Lemma fetchKeys_begin_idle (st : Store) :
  fetchingKeys st = false ->
  exists a, fetchKeys_begin st = (Some a, set_fetchingKeys true st).
Proof. intros H. unfold fetchKeys_begin. rewrite H. eauto. Qed.

Lemma fetchKeys_begin_busy (st : Store) :
  fetchingKeys st = true -> fetchKeys_begin st = (None, st).
Proof. intros H. unfold fetchKeys_begin. rewrite H. reflexivity. Qed.

(** X1. Pulls are serialized by the in-flight flag: with no pull
    outstanding, [fetchKeys] issues its request; a second call before the
    answer issues nothing and changes nothing; once the answer (or the
    rejection) is handled the flag is down and the next call issues a
    request again. *)
Theorem pull_is_serialized (argLimit : Z) (r : option KeysResponse)
    (st : Store) :
  fetchingKeys st = false ->
  let b1 := fetchKeys_begin st in
  let b2 := fetchKeys_begin (snd b1) in
  let st3 := fetchKeys_resume argLimit r (snd b2) in
  is_Some (fst b1)
  /\ b2 = (None, snd b1)
  /\ fetchingKeys st3 = false
  /\ is_Some (fst (fetchKeys_begin st3)).
Proof.
  intros Hidle. cbv zeta.
  destruct (fetchKeys_begin_idle st Hidle) as [a ->]. cbn [fst snd].
  rewrite (fetchKeys_begin_busy (set_fetchingKeys true st) eq_refl).
  cbn [fst snd].
  split; [eauto|]. split; [reflexivity|]. split; [reflexivity|].
  destruct (fetchKeys_begin_idle
              (fetchKeys_resume argLimit r (set_fetchingKeys true st)) eq_refl)
    as [a' ->].
  cbn [fst]. eauto.
Qed.

Lemma pull_is_serialized_witness :
  let r := Some {| keys := [key_named "A" 0]; latest_key := None |} in
  let b1 := fetchKeys_begin blockingStore in
  let b2 := fetchKeys_begin (snd b1) in
  let st3 := fetchKeys_resume sampleArgLimit r (snd b2) in
  fetchingKeys blockingStore = false
  /\ fst b1 = Some None
  /\ b2 = (None, snd b1)
  /\ fetchingKeys st3 = false
  /\ is_Some (fst (fetchKeys_begin st3)).
Proof.
  cbv zeta. split; [reflexivity|]. split; [reflexivity|].
  apply (pull_is_serialized sampleArgLimit
           (Some {| keys := [key_named "A" 0]; latest_key := None |})
           blockingStore eq_refl).
Defined.

Lemma on_key_intercepted_fetchingKeys (key : KeyEvent) (st : Store) :
  fetchingKeys (on_key_intercepted key st) = fetchingKeys st.
Proof.
  unfold on_key_intercepted.
  cbn [blockingEnabled set_latestKey set_interceptedKeys
       set_lastProcessedSeqNum].
  destruct (blockingEnabled st); [|reflexivity].
  destruct (scheduleTextUpdate_fields
              (processInterceptedKey key
                 (set_latestKey (Some key)
                    (set_interceptedKeys
                       (interceptedKeys
                          (set_lastProcessedSeqNum
                             (lastProcessedSeqNum st `max` seq_num key) st)
                        ++ [key])
                       (set_lastProcessedSeqNum
                          (lastProcessedSeqNum st `max` seq_num key) st)))))
    as [b ->].
  destruct (processInterceptedKey_writes key
              (set_latestKey (Some key)
                 (set_interceptedKeys
                    (interceptedKeys
                       (set_lastProcessedSeqNum
                          (lastProcessedSeqNum st `max` seq_num key) st)
                     ++ [key])
                    (set_lastProcessedSeqNum
                       (lastProcessedSeqNum st `max` seq_num key) st))))
    as (t & p & ->).
  reflexivity.
Qed.

(** X2. A pull started after a pushed key was handled asks the backend for
    keys strictly after a sequence number that is at least the key's own
    (and at least the previous watermark): the pushed key is not requested
    again. *)
Theorem pull_after_push_skips_key (key : KeyEvent) (st : Store) :
  fetchingKeys st = false ->
  0 <= seq_num key ->
  exists w,
    fst (fetchKeys_begin (on_key_intercepted key st)) = Some (Some w)
    /\ seq_num key <= w
    /\ lastProcessedSeqNum st <= w.
Proof.
  intros Hidle Hseq.
  pose proof (on_key_intercepted_watermark key st) as [Hw1 Hw2].
  exists (lastProcessedSeqNum (on_key_intercepted key st)).
  unfold fetchKeys_begin. rewrite on_key_intercepted_fetchingKeys, Hidle.
  cbn [fst lastProcessedSeqNum set_fetchingKeys].
  replace (lastProcessedSeqNum
             (set_fetchingKeys true (on_key_intercepted key st)))
    with (lastProcessedSeqNum (on_key_intercepted key st)) by reflexivity.
  destruct (Z.leb_spec 0 (lastProcessedSeqNum (on_key_intercepted key st)));
    [auto|lia].
Qed.

Lemma pull_after_push_skips_key_witness :
  fetchingKeys blockingStore = false
  /\ 0 <= seq_num (key_named "A" 7)
  /\ fst (fetchKeys_begin (on_key_intercepted (key_named "A" 7) blockingStore))
     = Some (Some 7).
Proof.
  split; [reflexivity|]. split; [vm_compute; discriminate|].
  destruct (pull_after_push_skips_key (key_named "A" 7) blockingStore eq_refl)
    as (w & Hb & _ & _); [vm_compute; discriminate|].
  rewrite Hb. vm_compute in Hb. injection Hb as <-. reflexivity.
Defined.

Lemma key_step_flush_scheduled (argLimit : Z) (e : KeyStep) (st : Store) :
  within_limit argLimit e ->
  flush_scheduled_if_pending st ->
  flush_scheduled_if_pending (key_step argLimit e st).
Proof.
  unfold flush_scheduled_if_pending. intros Hlim Hinv.
  destruct e as [key| |r|]; cbn [key_step].
  - unfold on_key_intercepted.
    cbn [blockingEnabled set_latestKey set_interceptedKeys
         set_lastProcessedSeqNum].
    destruct (blockingEnabled st); [|exact Hinv].
    intros _. apply scheduleTextUpdate_scheduled.
  - unfold fetchKeys_begin. destruct (fetchingKeys st); exact Hinv.
  - destruct (fetchingKeys st); [|exact Hinv].
    unfold fetchKeys_resume. destruct r as [r|]; [|exact Hinv].
    cbn [within_limit] in Hlim.
    destruct (blockingEnabled st); cbn [andb]; [|exact Hinv].
    destruct (bool_decide_reflect (0 < length (keys r))%nat) as [Hlen|_];
      [|exact Hinv].
    destruct (Math_max_within_limit argLimit (keys r) Hlim Hlen)
      as (m & -> & _).
    intros _. cbn [textUpdateScheduled set_fetchingKeys].
    apply scheduleTextUpdate_scheduled.
  - destruct (textUpdateScheduled st) eqn:Hs.
    + intros Hp. destruct Hp. reflexivity.
    + intros Hp. specialize (Hinv Hp). congruence.
Qed.

Lemma key_run_flush_scheduled (argLimit : Z) (es : list KeyStep) (st : Store) :
  Forall (within_limit argLimit) es ->
  flush_scheduled_if_pending st ->
  flush_scheduled_if_pending (key_run argLimit es st).
Proof.
  revert st. induction es as [|e es IH]; intros st Hes Hinv; [exact Hinv|].
  apply Forall_cons in Hes as [He Hes].
  cbn [key_run foldl]. apply IH; [exact Hes|].
  apply key_step_flush_scheduled; assumption.
Qed.

Lemma frame_renders_pending (argLimit : Z) (st : Store) :
  flush_scheduled_if_pending st ->
  interceptedText (key_step argLimit Frame st) = intended st
  /\ pendingTextUpdate (key_step argLimit Frame st) = [].
Proof.
  intros Hinv. unfold intended. cbn [key_step].
  destruct (textUpdateScheduled st) eqn:Hs; [split; reflexivity|].
  destruct (decide (pendingTextUpdate st = [])) as [E|E].
  - rewrite E, app_nil_r. split; reflexivity.
  - rewrite (Hinv E) in Hs. discriminate Hs.
Qed.

Lemma key_run_snoc (argLimit : Z) (es : list KeyStep) (e : KeyStep)
    (st : Store) :
  key_run argLimit (es ++ [e]) st = key_step argLimit e (key_run argLimit es st).
Proof. unfold key_run. rewrite foldl_app. reflexivity. Qed.

(** An answer with more keys than [Math.max] accepts arguments: the keys
    are processed, and the exception skips the assignment of the watermark
    and the scheduling of the flush. *)
Lemma fetchKeys_resume_beyond_limit (argLimit : Z) (r : KeysResponse)
    (st : Store) :
  blockingEnabled st = true ->
  argLimit < Z.of_nat (length (keys r)) ->
  fetchKeys_resume argLimit (Some r) st
  = set_fetchingKeys false
      (foldl (fun s k => processInterceptedKey k s) st (sort_by_seq (keys r))).
Proof.
  intros Hb Hlim. unfold fetchKeys_resume. rewrite Hb. cbn [andb].
  destruct (bool_decide_reflect (0 < length (keys r))%nat) as [Hlen|Hlen].
  - rewrite (Math_max_beyond_limit argLimit (keys r) Hlim). reflexivity.
  - destruct (keys r) as [|k ks]; [reflexivity|cbn in Hlen; lia].
Qed.

(** X3. No keystroke waits forever: along any run of pushes, pulls and
    frames in which no answer holds more keys than [Math.max] accepts
    arguments, whenever the pending buffer is not empty a flush is
    scheduled; so one more frame always leaves the pending buffer empty.
    An answer beyond the limit is processed into the pending buffer and
    the exception skips the scheduling: the flag of the flush stays as it
    was. *)
Theorem pending_text_is_always_scheduled (argLimit : Z) (es : list KeyStep)
    (st : Store) :
  Forall (within_limit argLimit) es ->
  flush_scheduled_if_pending st ->
  flush_scheduled_if_pending (key_run argLimit es st)
  /\ pendingTextUpdate (key_run argLimit (es ++ [Frame]) st) = []
  /\ (forall r s,
        blockingEnabled s = true ->
        argLimit < Z.of_nat (length (keys r)) ->
        let s' := fetchKeys_resume argLimit (Some r) s in
        s' = set_fetchingKeys false
               (foldl (fun s k => processInterceptedKey k s) s
                  (sort_by_seq (keys r)))
        /\ textUpdateScheduled s' = textUpdateScheduled s).
Proof.
  intros Hes Hinv.
  pose proof (key_run_flush_scheduled argLimit es st Hes Hinv) as Hrun.
  split; [exact Hrun|]. split.
  - rewrite key_run_snoc. apply frame_renders_pending, Hrun.
  - intros r s Hb Hlim. cbv zeta.
    rewrite (fetchKeys_resume_beyond_limit argLimit r s Hb Hlim).
    split; [reflexivity|]. cbn [textUpdateScheduled set_fetchingKeys].
    clear Hb Hlim. generalize (sort_by_seq (keys r)) as ks. intros ks.
    revert s. induction ks as [|k ks IH]; intros s; [reflexivity|].
    cbn [foldl]. rewrite IH.
    destruct (processInterceptedKey_writes k s) as (t & p0 & ->). reflexivity.
Qed.

Lemma pending_text_is_always_scheduled_witness :
  let a := key_named "A" 0 in
  let es := [PullBegin; PullEnd (Some {| keys := [a]; latest_key := Some a |});
             PushKey (key_named "B" 1)] in
  Forall (within_limit sampleArgLimit) es
  /\ flush_scheduled_if_pending blockingStore
  /\ pendingTextUpdate (key_run sampleArgLimit es blockingStore) = js "ab"
  /\ textUpdateScheduled (key_run sampleArgLimit es blockingStore) = true
  /\ pendingTextUpdate (key_run sampleArgLimit (es ++ [Frame]) blockingStore)
     = [].
Proof.
  cbv zeta.
  assert (Hinv : flush_scheduled_if_pending blockingStore)
    by (intros H; destruct H; reflexivity).
  assert (Hes : Forall (within_limit sampleArgLimit)
                  [PullBegin;
                   PullEnd (Some {| keys := [key_named "A" 0];
                                    latest_key := Some (key_named "A" 0) |});
                   PushKey (key_named "B" 1)]).
  { repeat constructor. vm_compute. discriminate. }
  destruct (pending_text_is_always_scheduled sampleArgLimit _ blockingStore
              Hes Hinv) as (H1 & H2 & _).
  split; [exact Hes|]. split; [exact Hinv|]. split; [reflexivity|].
  split; [apply H1; vm_compute; discriminate|exact H2].
Defined.

Lemma processInterceptedKey_appends_output (key : KeyEvent) (st : Store) :
  key_name key <> js "Backspace" ->
  processInterceptedKey key st
  = set_pendingTextUpdate
      (pendingTextUpdate st
         ++ key_output (inputLanguage st) (capsLock st) key) st.
Proof.
  intros Hkey. destruct st as [b h caps ks lk t w f p s ip cp lang hist ts].
  unfold key_output, processInterceptedKey, append_pending, by_lang,
    initialStore.
  cbn [inputLanguage capsLock pendingTextUpdate interceptedText
       set_capsLock set_inputLanguage set_pendingTextUpdate
       set_interceptedText blockingEnabled hotkeyMode interceptedKeys
       latestKey lastProcessedSeqNum fetchingKeys textUpdateScheduled
       isPlaying continuousPlay ttsHistory toast].
  destruct (includes (js "Win+Esc") (key_name key));
    [cbn [pendingTextUpdate]; rewrite app_nil_r; reflexivity|].
  destruct (decide (key_name key = js "Backspace")) as [E|_];
    [destruct (Hkey E)|].
  case_ifs; cbn [pendingTextUpdate app]; rewrite ?app_nil_r; reflexivity.
Qed.

(** X4. The translator is a function of the key, the layout and the
    caps-lock state alone: a key other than Backspace never touches the
    composed text, and appends to the pending buffer an output that does
    not depend on what was typed before or on any other field. *)
Theorem translator_is_pure (key : KeyEvent) (st : Store) :
  key_name key <> js "Backspace" ->
  processInterceptedKey key st
  = set_pendingTextUpdate
      (pendingTextUpdate st
         ++ key_output (inputLanguage st) (capsLock st) key) st.
Proof. apply processInterceptedKey_appends_output. Qed.

Lemma translator_is_pure_witness :
  key_name (key_named "Period" 4) <> js "Backspace"
  /\ key_output ru true (key_named "Period" 4) = js "ю"
  /\ processInterceptedKey (key_named "Period" 4) ruCapsStore
     = set_pendingTextUpdate (js "Пю") ruCapsStore.
Proof.
  assert (Hne : key_name (key_named "Period" 4) <> js "Backspace")
    by (vm_compute; discriminate).
  split; [exact Hne|]. split; [vm_compute; reflexivity|].
  rewrite (translator_is_pure (key_named "Period" 4) ruCapsStore Hne).
  vm_compute. reflexivity.
Defined.






(** X6. A key named ["Digit "] followed by anything appends what follows
    the prefix, verbatim, whatever the layout and the caps-lock state (as
    long as the name does not contain the reserved ["Win+Esc"]). *)
Theorem digit_key_strips_prefix (key : KeyEvent) (d : jsstring) (st : Store) :
  key_name key = js "Digit " ++ d ->
  includes (js "Win+Esc") d = false ->
  processInterceptedKey key st
  = set_pendingTextUpdate (pendingTextUpdate st ++ d) st.
Proof.
  intros Hname Hd. unfold processInterceptedKey. rewrite Hname.
  replace (includes (js "Win+Esc") (js "Digit " ++ d)) with false
    by (symmetry; vm_compute; vm_compute in Hd; exact Hd).
  repeat match goal with
  | |- context [@decide (@eq _ _ (js _)) ?d'] =>
      destruct (@decide _ d') as [E|_];
      [vm_compute in E; discriminate E|]
  end.
  replace (startsWith (js "Digit ") (js "Digit " ++ d)) with true
    by (vm_compute; reflexivity).
  reflexivity.
Qed.

Lemma digit_key_strips_prefix_witness :
  key_name (key_named "Digit 7" 0) = js "Digit " ++ js "7"
  /\ includes (js "Win+Esc") (js "7") = false
  /\ processInterceptedKey (key_named "Digit 7" 0) ruCapsStore
     = set_pendingTextUpdate (js "П7") ruCapsStore.
Proof.
  split; [reflexivity|]. split; [reflexivity|].
  rewrite (digit_key_strips_prefix (key_named "Digit 7" 0) (js "7")
             ruCapsStore eq_refl eq_refl).
  reflexivity.
Defined.

Lemma NoDup_map_elem_inj {A B} (f : A -> B) (l : list A) (x y : A) :
  NoDup (map f l) -> x ∈ l -> y ∈ l -> f x = f y -> x = y.
Proof.
  induction l as [|a l IH]; cbn [map]; intros Hnd Hx Hy Hf; [inversion Hx|].
  apply NoDup_cons in Hnd as [Ha Hnd].
  apply elem_of_cons in Hx as [->|Hx]; apply elem_of_cons in Hy as [->|Hy].
  - reflexivity.
  - destruct Ha. rewrite Hf. apply elem_of_map_1, Hy.
  - destruct Ha. rewrite <- Hf. apply elem_of_map_1, Hx.
  - apply IH; assumption.
Qed.

(** X7. A pulled batch is applied in ascending [seq_num], and the order in
    which the backend lists the keys does not matter: two answers holding
    the same keys (with distinct sequence numbers) in different orders
    leave the same store. *)
Theorem pull_ignores_answer_order (argLimit : Z) (r1 r2 : KeysResponse)
    (st : Store) :
  keys r1 ≡ₚ keys r2 ->
  NoDup (map seq_num (keys r1)) ->
  StronglySorted seq_le (sort_by_seq (keys r1))
  /\ fetchKeys_resume argLimit (Some r1) st
     = fetchKeys_resume argLimit (Some r2) st.
Proof.
  intros Hperm Hnd. split; [apply sort_by_seq_sorted|].
  assert (Hsort : sort_by_seq (keys r1) = sort_by_seq (keys r2)).
  { apply (StronglySorted_unique_strong seq_le);
      [|apply sort_by_seq_sorted|apply sort_by_seq_sorted|].
    - intros x1 x2 H1 H2 H12 H21. unfold seq_le in *.
      apply (NoDup_map_elem_inj seq_num (keys r1)); [exact Hnd| | |lia].
      + apply sort_by_seq_elem, H1.
      + rewrite Hperm. apply sort_by_seq_elem, H2.
    - rewrite !sort_by_seq_perm. exact Hperm. }
  unfold fetchKeys_resume.
  rewrite Hsort, (Permutation_length Hperm). reflexivity.
Qed.

Lemma pull_ignores_answer_order_witness :
  let a := key_named "A" 4 in
  let b := key_named "B" 5 in
  let c := key_named "Backspace" 6 in
  let r1 := {| keys := [c; a; b]; latest_key := Some c |} in
  let r2 := {| keys := [a; b; c]; latest_key := None |} in
  keys r1 ≡ₚ keys r2
  /\ NoDup (map seq_num (keys r1))
  /\ fetchKeys_resume sampleArgLimit (Some r1) blockingStore
     = fetchKeys_resume sampleArgLimit (Some r2) blockingStore
  /\ pendingTextUpdate (fetchKeys_resume sampleArgLimit (Some r1) blockingStore)
     = [].
Proof.
  cbv zeta.
  assert (Hperm : [key_named "Backspace" 6; key_named "A" 4; key_named "B" 5]
                  ≡ₚ [key_named "A" 4; key_named "B" 5;
                      key_named "Backspace" 6]).
  { change ([key_named "Backspace" 6] ++ [key_named "A" 4; key_named "B" 5]
            ≡ₚ [key_named "A" 4; key_named "B" 5] ++ [key_named "Backspace" 6]).
    apply Permutation_app_comm. }
  assert (Hnd : NoDup (map seq_num
                         [key_named "Backspace" 6; key_named "A" 4;
                          key_named "B" 5])).
  { apply (bool_decide_unpack _). vm_compute. exact I. }
  destruct (pull_ignores_answer_order sampleArgLimit
              {| keys := [key_named "Backspace" 6; key_named "A" 4;
                          key_named "B" 5];
                 latest_key := Some (key_named "Backspace" 6) |}
              {| keys := [key_named "A" 4; key_named "B" 5;
                          key_named "Backspace" 6];
                 latest_key := None |}
              blockingStore Hperm Hnd) as [_ Heq].
  split; [exact Hperm|]. split; [exact Hnd|]. split; [exact Heq|].
  vm_compute. reflexivity.
Defined.

(** X8. A successful [clearKeys] empties the composed text and the key
    list and resets the watermark and the in-flight flag, so that the next
    pull is issued, and asks for all keys ([afterSeqNum] is [null]), even
    if a pull was outstanding. The pending buffer is not cleared: the next
    flush renders it into the emptied text. A rejected [clearKeys] changes
    nothing. *)
Theorem clearKeys_resets_key_state (st : Store) :
  let st' := clearKeys_resume true st in
  interceptedText st' = []
  /\ interceptedKeys st' = []
  /\ latestKey st' = None
  /\ fst (fetchKeys_begin st') = Some None
  /\ interceptedText (textUpdateFrame st') = pendingTextUpdate st
  /\ clearKeys_resume false st = st.
Proof. cbv zeta. repeat split. Qed.

(** ** History *)

Lemma list_find_head {A} (P : A -> Prop) `{!forall x, Decision (P x)}
    (x : A) (l : list A) :
  P x -> list_find P (x :: l) = Some (0%nat, x).
Proof. intros HP. cbn. rewrite decide_True by exact HP. reflexivity. Qed.

Lemma list_find_skip {A} (P : A -> Prop) `{!forall x, Decision (P x)}
    (x : A) (l : list A) :
  ~ P x -> list_find P l = None -> list_find P (x :: l) = None.
Proof. intros HP Hl. cbn. rewrite decide_False by exact HP. rewrite Hl. reflexivity. Qed.

Lemma list_find_fresh (k : jsstring) (h : list TtsMessage) :
  (forall m, m ∈ h -> id m <> k) -> list_find (fun m => id m = k) h = None.
Proof. intros H. apply list_find_None, Forall_forall. exact H. Qed.

Lemma provisional_is_pending (txt : jsstring) (now : Z) (rnd : jsstring) :
  is_temp_pending (provisional txt now rnd) = true.
Proof.
  unfold is_temp_pending, provisional. cbn [id status].
  rewrite startsWith_app. reflexivity.
Qed.

Lemma speakTextWithHistory_provisional (txt : jsstring) (now : Z)
    (rnd : jsstring) (st : Store) :
  speakTextWithHistory txt now rnd st
  = (id (provisional txt now rnd),
     set_ttsHistory (provisional txt now rnd :: ttsHistory st) st).
Proof. reflexivity. Qed.

Lemma map_alter_same {A B} (f : A -> B) (g : A -> A) (i : nat) (l : list A) :
  (forall x, f (g x) = f x) -> map f (alter g i l) = map f l.
Proof.
  intros Hfg. revert i. induction l as [|x l IH]; intros [|i]; cbn;
    try reflexivity.
  - rewrite Hfg. reflexivity.
  - f_equal. apply IH.
Qed.

(** X9. The acknowledgement of an enqueue changes one id and nothing else:
    whatever the history, every entry keeps its text, time stamp, status
    and lock, and the list keeps its length and order. Right after
    [speakTextWithHistory], it is the new front entry that takes the
    durable id, in place. *)
Theorem acknowledgement_replaces_id_in_place (txt : jsstring) (now : Z)
    (rnd tempId realId : jsstring) (st : Store) :
  map without_id (ttsHistory (enqueue_resolved tempId realId st))
  = map without_id (ttsHistory st)
  /\ ttsHistory
       (enqueue_resolved (fst (speakTextWithHistory txt now rnd st)) realId
          (snd (speakTextWithHistory txt now rnd st)))
     = set_id realId (provisional txt now rnd) :: ttsHistory st.
Proof.
  split.
  - unfold enqueue_resolved.
    destruct (list_find _ (ttsHistory st)) as [[i ?]|]; [|reflexivity].
    cbn [ttsHistory set_ttsHistory]. apply map_alter_same. reflexivity.
  - rewrite speakTextWithHistory_provisional. cbn [fst snd].
    unfold enqueue_resolved. cbn [ttsHistory set_ttsHistory].
    rewrite list_find_head by reflexivity. reflexivity.
Qed.

Lemma ttsHistory_enqueue_resolved_absent (tempId realId : jsstring)
    (st : Store) :
  list_find (fun m => id m = tempId) (ttsHistory st) = None ->
  ttsHistory (enqueue_resolved tempId realId st) = ttsHistory st.
Proof. intros H. unfold enqueue_resolved. rewrite H. reflexivity. Qed.

(** What a status event with an id unknown to the history does right after
    [speakTextWithHistory]: the new front entry takes the id and the
    status. *)
Lemma status_event_adopts_new_entry (ev : StatusEvent) (txt : jsstring)
    (now : Z) (rnd id0 : jsstring) (st : Store) :
  (forall m, m ∈ ttsHistory st -> id m <> id0) ->
  id0 <> id (provisional txt now rnd) ->
  ttsHistory (on_tts_event ev id0 (snd (speakTextWithHistory txt now rnd st)))
  = set_status (event_status ev) (set_id id0 (provisional txt now rnd))
      :: ttsHistory st.
Proof.
  intros Hnew Hne. rewrite ttsHistory_on_tts_event.
  rewrite speakTextWithHistory_provisional. cbn [snd ttsHistory set_ttsHistory].
  unfold findMessage.
  rewrite list_find_skip; [|congruence|apply list_find_fresh, Hnew].
  rewrite list_find_head by apply provisional_is_pending.
  reflexivity.
Qed.

(** X10. The acknowledgement and the first status event of a new utterance
    may arrive in either order: when the durable id is new to the history
    and the provisional id is fresh, both orders leave the same history,
    with the new entry in front under its durable id and with the event's
    status. *)
Theorem acknowledgement_and_status_commute (ev : StatusEvent)
    (txt : jsstring) (now : Z) (rnd realId : jsstring) (st : Store) :
  let tempId := fst (speakTextWithHistory txt now rnd st) in
  let st1 := snd (speakTextWithHistory txt now rnd st) in
  (forall m, m ∈ ttsHistory st -> id m <> realId) ->
  (forall m, m ∈ ttsHistory st -> id m <> tempId) ->
  realId <> tempId ->
  ttsHistory (enqueue_resolved tempId realId (on_tts_event ev realId st1))
  = {| id := realId; text := txt; msg_timestamp := now / 1000;
       status := event_status ev; locked := false |} :: ttsHistory st
  /\ ttsHistory (on_tts_event ev realId (enqueue_resolved tempId realId st1))
     = {| id := realId; text := txt; msg_timestamp := now / 1000;
          status := event_status ev; locked := false |} :: ttsHistory st.
Proof.
  cbv zeta. intros Hnew Hfresh Hne.
  change (fst (speakTextWithHistory txt now rnd st))
    with (id (provisional txt now rnd)) in *.
  split.
  - rewrite ttsHistory_enqueue_resolved_absent;
      rewrite status_event_adopts_new_entry by assumption;
      [reflexivity|].
    apply list_find_skip; [cbn [id set_status set_id]; exact Hne|].
    apply list_find_fresh, Hfresh.
  - rewrite ttsHistory_on_tts_event.
    change (snd (speakTextWithHistory txt now rnd st))
      with (set_ttsHistory (provisional txt now rnd :: ttsHistory st) st).
    unfold enqueue_resolved. cbn [ttsHistory set_ttsHistory].
    rewrite list_find_head by reflexivity.
    cbn [ttsHistory set_ttsHistory alter list_alter]. unfold findMessage.
    rewrite list_find_head by reflexivity. reflexivity.
Qed.

Lemma acknowledgement_and_status_commute_witness :
  let st := history_store [msg "12" "first" completed] in
  let tempId := fst (speakTextWithHistory (js "hi") 1700000000123
                       (js "k3j9x1a") st) in
  let st1 := snd (speakTextWithHistory (js "hi") 1700000000123
                    (js "k3j9x1a") st) in
  (forall m, m ∈ ttsHistory st -> id m <> js "13")
  /\ (forall m, m ∈ ttsHistory st -> id m <> tempId)
  /\ js "13" <> tempId
  /\ ttsHistory (enqueue_resolved tempId (js "13")
                   (on_tts_event EvStarted (js "13") st1))
     = ttsHistory (on_tts_event EvStarted (js "13")
                     (enqueue_resolved tempId (js "13") st1))
  /\ map id (ttsHistory (enqueue_resolved tempId (js "13")
                           (on_tts_event EvStarted (js "13") st1)))
     = [js "13"; js "12"].
Proof.
  cbv zeta.
  assert (H1 : forall m,
             m ∈ ttsHistory (history_store [msg "12" "first" completed]) ->
             id m <> js "13").
  { intros m Hm. apply list_elem_of_In in Hm. destruct Hm as [<-|[]].
    vm_compute. discriminate. }
  assert (H2 : forall m,
             m ∈ ttsHistory (history_store [msg "12" "first" completed]) ->
             id m <> fst (speakTextWithHistory (js "hi") 1700000000123
                            (js "k3j9x1a")
                            (history_store [msg "12" "first" completed]))).
  { intros m Hm. apply list_elem_of_In in Hm. destruct Hm as [<-|[]].
    vm_compute. discriminate. }
  assert (H3 : js "13" <> fst (speakTextWithHistory (js "hi") 1700000000123
                                 (js "k3j9x1a")
                                 (history_store [msg "12" "first" completed])))
    by (vm_compute; discriminate).
  destruct (acknowledgement_and_status_commute EvStarted (js "hi")
              1700000000123 (js "k3j9x1a") (js "13")
              (history_store [msg "12" "first" completed]) H1 H2 H3)
    as [Ha Hb].
  split; [exact H1|]. split; [exact H2|]. split; [exact H3|].
  split; [rewrite Ha, Hb; reflexivity|]. rewrite Ha. reflexivity.
Defined.

(** X11. The rejection callback removes the provisional entry only while it
    still carries its provisional id. If a status event with an id unknown
    to the history arrived in between, the entry was renamed, and the
    rejection leaves it in the history (and still shows the toast). *)
Theorem rejection_after_adoption_keeps_entry (ev : StatusEvent)
    (txt : jsstring) (now : Z) (rnd id0 err : jsstring) (st : Store) :
  let tempId := fst (speakTextWithHistory txt now rnd st) in
  let st1 := snd (speakTextWithHistory txt now rnd st) in
  let st3 := enqueue_rejected tempId err (on_tts_event ev id0 st1) in
  (forall m, m ∈ ttsHistory st -> id m <> id0) ->
  (forall m, m ∈ ttsHistory st -> id m <> tempId) ->
  id0 <> tempId ->
  ttsHistory st3
  = {| id := id0; text := txt; msg_timestamp := now / 1000;
       status := event_status ev; locked := false |} :: ttsHistory st
  /\ toast st3 = {| show := true; message := err; type := error |}.
Proof.
  cbv zeta. intros Hnew Hfresh Hne.
  change (fst (speakTextWithHistory txt now rnd st))
    with (id (provisional txt now rnd)) in *.
  split; [|reflexivity].
  unfold enqueue_rejected, showToast. cbn [ttsHistory set_ttsHistory set_toast].
  rewrite status_event_adopts_new_entry by assumption.
  rewrite filter_cons_True by (cbn [id set_status set_id]; exact Hne).
  rewrite (filter_id_fresh _ _ Hfresh). reflexivity.
Qed.

Lemma rejection_after_adoption_keeps_entry_witness :
  let st := history_store [msg "12" "first" completed] in
  let tempId := fst (speakTextWithHistory (js "hi") 1700000000123
                       (js "k3j9x1a") st) in
  let st1 := snd (speakTextWithHistory (js "hi") 1700000000123
                    (js "k3j9x1a") st) in
  (forall m, m ∈ ttsHistory st -> id m <> js "13")
  /\ (forall m, m ∈ ttsHistory st -> id m <> tempId)
  /\ js "13" <> tempId
  /\ map id (ttsHistory
               (enqueue_rejected tempId (js "queue full")
                  (on_tts_event EvStarted (js "13") st1)))
     = [js "13"; js "12"].
Proof.
  cbv zeta.
  assert (H1 : forall m,
             m ∈ ttsHistory (history_store [msg "12" "first" completed]) ->
             id m <> js "13").
  { intros m Hm. apply list_elem_of_In in Hm. destruct Hm as [<-|[]].
    vm_compute. discriminate. }
  assert (H2 : forall m,
             m ∈ ttsHistory (history_store [msg "12" "first" completed]) ->
             id m <> fst (speakTextWithHistory (js "hi") 1700000000123
                            (js "k3j9x1a")
                            (history_store [msg "12" "first" completed]))).
  { intros m Hm. apply list_elem_of_In in Hm. destruct Hm as [<-|[]].
    vm_compute. discriminate. }
  assert (H3 : js "13" <> fst (speakTextWithHistory (js "hi") 1700000000123
                                 (js "k3j9x1a")
                                 (history_store [msg "12" "first" completed])))
    by (vm_compute; discriminate).
  destruct (rejection_after_adoption_keeps_entry EvStarted (js "hi")
              1700000000123 (js "k3j9x1a") (js "13") (js "queue full")
              (history_store [msg "12" "first" completed]) H1 H2 H3)
    as [Ha _].
  split; [exact H1|]. split; [exact H2|]. split; [exact H3|].
  rewrite Ha. reflexivity.
Defined.

(** X12. A status event whose id matches a local entry changes the status
    of the first entry with that id and nothing else: no id is rewritten
    and no other entry is touched, whatever provisional entries are
    waiting. *)
Theorem status_event_known_id (ev : StatusEvent) (id0 : jsstring)
    (st : Store) (l1 l2 : list TtsMessage) (m : TtsMessage) :
  ttsHistory st = l1 ++ m :: l2 ->
  id m = id0 ->
  (forall x, x ∈ l1 -> id x <> id0) ->
  ttsHistory (on_tts_event ev id0 st)
  = l1 ++ set_status (event_status ev) m :: l2.
Proof.
  intros Hh Hm Hbefore. rewrite ttsHistory_on_tts_event.
  assert (Hfind : list_find (fun m => id m = id0) (ttsHistory st)
                  = Some (length l1, m)).
  { apply list_find_Some. rewrite Hh.
    split; [apply list_lookup_middle; reflexivity|]. split; [exact Hm|].
    intros j y Hj Hlt. rewrite lookup_app_l in Hj by exact Hlt.
    apply Hbefore. eapply list_elem_of_lookup_2. exact Hj. }
  unfold findMessage. rewrite Hfind. cbn [fst snd assign_status]. rewrite Hh.
  rewrite <- (Nat.add_0_r (length l1)), alter_app_r. reflexivity.
Qed.

Lemma status_event_known_id_witness :
  let h := [msg "temp-5" "new" queued; msg "12" "first" playing;
            msg "12" "again" playing] in
  ttsHistory (history_store h)
  = [msg "temp-5" "new" queued] ++ msg "12" "first" playing
      :: [msg "12" "again" playing]
  /\ (forall x, x ∈ [msg "temp-5" "new" queued] -> id x <> js "12")
  /\ ttsHistory (on_tts_event EvCompleted (js "12") (history_store h))
     = [msg "temp-5" "new" queued; msg "12" "first" completed;
        msg "12" "again" playing].
Proof.
  cbv zeta.
  assert (Hb : forall x, x ∈ [msg "temp-5" "new" queued] -> id x <> js "12").
  { intros x Hx. apply list_elem_of_In in Hx. destruct Hx as [<-|[]].
    vm_compute. discriminate. }
  split; [reflexivity|]. split; [exact Hb|].
  exact (status_event_known_id EvCompleted (js "12")
           (history_store [msg "temp-5" "new" queued; msg "12" "first" playing;
                           msg "12" "again" playing])
           [msg "temp-5" "new" queued] [msg "12" "again" playing]
           (msg "12" "first" playing) eq_refl eq_refl Hb).
Defined.

(** X13. A status event never adds, removes or reorders entries, and never
    changes a text, a time stamp or a lock: only ids and statuses can
    differ afterwards, and at most one entry differs at all. *)
Theorem status_event_keeps_payload (ev : StatusEvent) (id0 : jsstring)
    (st : Store) :
  map payload (ttsHistory (on_tts_event ev id0 st))
  = map payload (ttsHistory st)
  /\ exists i, forall j, j <> i ->
       ttsHistory (on_tts_event ev id0 st) !! j = ttsHistory st !! j.
Proof.
  rewrite ttsHistory_on_tts_event. unfold findMessage.
  destruct (list_find (fun m => id m = id0) (ttsHistory st)) as [[i ?]|].
  - cbn [fst snd assign_status]. split.
    + apply map_alter_same. reflexivity.
    + exists i. intros j Hj. apply list_lookup_alter_ne. auto.
  - destruct (list_find (fun m => is_temp_pending m = true) (ttsHistory st))
      as [[i ?]|]; cbn [fst snd assign_status].
    + split.
      * rewrite !map_alter_same by reflexivity. reflexivity.
      * exists i. intros j Hj. rewrite !list_lookup_alter_ne by auto.
        reflexivity.
    + split; [reflexivity|]. exists 0%nat. reflexivity.
Qed.

Lemma filter_all {A} (P : A -> Prop) `{!forall x, Decision (P x)} (l : list A) :
  (forall x, x ∈ l -> P x) -> filter P l = l.
Proof.
  induction l as [|x l IH]; intros Hall; [reflexivity|].
  rewrite filter_cons_True by (apply Hall, list_elem_of_here).
  rewrite IH; [reflexivity|]. intros y Hy. apply Hall, list_elem_of_further, Hy.
Qed.

Lemma filter_none {A} (P : A -> Prop) `{!forall x, Decision (P x)} (l : list A) :
  (forall x, x ∈ l -> ~ P x) -> filter P l = [].
Proof.
  induction l as [|x l IH]; intros Hall; [reflexivity|].
  rewrite filter_cons_False by (apply Hall, list_elem_of_here).
  apply IH. intros y Hy. apply Hall, list_elem_of_further, Hy.
Qed.

Lemma keep_local_status_twice (localHistory : list TtsMessage)
    (s : TtsMessage) :
  set_status (status (keep_local_status localHistory s)) s
  = keep_local_status localHistory s.
Proof.
  unfold keep_local_status.
  destruct (list_find _ localHistory) as [[? l]|]; [reflexivity|].
  destruct s. reflexivity.
Qed.

(** X14. Refreshing twice with the same answer is the same as refreshing
    once, when the server's list has pairwise distinct ids. *)
Theorem history_refresh_is_idempotent (serverHistory : list TtsMessage)
    (st : Store) :
  NoDup (map id serverHistory) ->
  fetchTtsHistory_resume (Some serverHistory)
    (fetchTtsHistory_resume (Some serverHistory) st)
  = fetchTtsHistory_resume (Some serverHistory) st.
Proof.
  intros Hnd. unfold fetchTtsHistory_resume.
  cbn [ttsHistory set_ttsHistory]. rewrite !merge_history_as_described.
  set (localHistory := ttsHistory st).
  assert (Hm : merge_as_described serverHistory
                 (merge_as_described serverHistory localHistory)
               = merge_as_described serverHistory localHistory).
  { unfold merge_as_described at 1 3. f_equal.
    - apply map_ext_in. intros s Hs. apply list_elem_of_In in Hs.
      unfold keep_local_status at 1.
      assert (Hin : keep_local_status localHistory s
                    ∈ map (keep_local_status localHistory) serverHistory)
        by (apply elem_of_map_1, Hs).
      destruct (list_find_elem_of (fun m => id m = id s) _ _ Hin
                  (keep_local_status_id localHistory s)) as [[i x] Hf].
      unfold merge_as_described.
      rewrite (list_find_app_l _ _ _ _ _ Hf).
      apply list_find_Some in Hf as (Hx & Hid & _).
      apply list_elem_of_lookup_2, elem_of_map_inv in Hx as (s' & Hs' & ->).
      rewrite keep_local_status_id in Hid.
      assert (s' = s)
        by (apply (NoDup_map_elem_inj id serverHistory); assumption).
      subst s'. apply keep_local_status_twice.
    - unfold merge_as_described. rewrite filter_app.
      rewrite filter_none, filter_all; [reflexivity| |].
      + intros x Hx. apply list_elem_of_filter in Hx as [Hx _]. exact Hx.
      + intros x Hx [_ Hn]. apply Hn.
        apply elem_of_map_inv in Hx as (s & Hs & ->).
        rewrite keep_local_status_id. apply elem_of_map_1, Hs. }
  rewrite Hm. destruct st. reflexivity.
Qed.

Lemma history_refresh_is_idempotent_witness :
  let serverHistory := [msg "8" "b" queued; msg "7" "a" queued] in
  let st := history_store
              [msg "temp-1" "c" queued; msg "7" "a" playing;
               msg "9" "old" completed] in
  NoDup (map id serverHistory)
  /\ fetchTtsHistory_resume (Some serverHistory)
       (fetchTtsHistory_resume (Some serverHistory) st)
     = fetchTtsHistory_resume (Some serverHistory) st.
Proof.
  cbv zeta.
  assert (Hnd : NoDup (map id [msg "8" "b" queued; msg "7" "a" queued]))
    by (apply (bool_decide_unpack _); vm_compute; exact I).
  split; [exact Hnd|].
  exact (history_refresh_is_idempotent _ _ Hnd).
Defined.

(** X15. The edges of the merge. With no local history the result is the
    server's list as it is; with an empty answer only the provisional
    local entries remain, in their order; and a failed refresh leaves the
    store as it was. *)
Theorem history_refresh_edges (serverHistory : list TtsMessage) (st : Store) :
  merge_history serverHistory [] = serverHistory
  /\ ttsHistory (fetchTtsHistory_resume (Some []) st)
     = filter (fun l => startsWith (js "temp-") (id l) = true) (ttsHistory st)
  /\ fetchTtsHistory_resume None st = st.
Proof.
  split; [|split; [|reflexivity]].
  - rewrite merge_history_as_described. unfold merge_as_described.
    rewrite filter_nil, app_nil_r.
    induction serverHistory as [|s ss IH]; [reflexivity|].
    cbn [map]. rewrite IH. reflexivity.
  - unfold fetchTtsHistory_resume. cbn [ttsHistory set_ttsHistory].
    rewrite merge_history_as_described. unfold merge_as_described.
    cbn [map app]. apply list_filter_iff. intros x. split.
    + intros [H _]. exact H.
    + intros H. split; [exact H|]. intros Hin. inversion Hin.
Qed.

(** ** History: the age shown next to a message *)

(** X16. For a time stamp within the range of [Date], [formatTimestamp]
    shows "только что" for a message less than a minute old (or stamped in
    the future), whole minutes from 1 to 59 for one less than an hour old,
    whole hours from 1 to 23 for one less than a day old, and the locale
    date otherwise. For a time stamp outside that range it shows the locale
    rendering (of an invalid date) whatever the age. *)
Theorem formatTimestamp_ranges (localeString : Z -> jsstring)
    (now timestamp : Z) :
  let age := now - timestamp * 1000 in
  let shown := formatTimestamp localeString now timestamp in
  (Z.abs (timestamp * 1000) <= MAX_TIME_VALUE ->
   (age < 60000 -> shown = js "только что")
   /\ (60000 <= age < 3600000 ->
       exists m, 1 <= m <= 59 /\ m * 60000 <= age < (m + 1) * 60000
                 /\ shown = decimal m ++ js " мин назад")
   /\ (3600000 <= age < 86400000 ->
       exists h, 1 <= h <= 23 /\ h * 3600000 <= age < (h + 1) * 3600000
                 /\ shown = decimal h ++ js " ч назад")
   /\ (86400000 <= age -> shown = localeString timestamp))
  /\ (MAX_TIME_VALUE < Z.abs (timestamp * 1000) ->
      shown = localeString timestamp).
Proof.
  cbv zeta. unfold formatTimestamp.
  destruct (Z.ltb_spec MAX_TIME_VALUE (Z.abs (timestamp * 1000))) as [Hv|Hv];
    (split; [intros Hv'|intros Hv']); try lia; try reflexivity.
  set (age := now - timestamp * 1000).
  pose proof (Z.div_mod age 60000 ltac:(lia)) as Hdm.
  pose proof (Z.mod_pos_bound age 60000 ltac:(lia)) as Hmb.
  set (mins := age / 60000) in *.
  pose proof (Z.div_mod mins 60 ltac:(lia)) as Hdh.
  pose proof (Z.mod_pos_bound mins 60 ltac:(lia)) as Hhb.
  repeat split.
  - intros H. destruct (Z.ltb_spec mins 1); [reflexivity|lia].
  - intros H. exists mins.
    destruct (Z.ltb_spec mins 1); [lia|].
    destruct (Z.ltb_spec mins 60); [|lia].
    repeat split; try lia.
  - intros H. exists (mins / 60).
    destruct (Z.ltb_spec mins 1); [lia|].
    destruct (Z.ltb_spec mins 60); [lia|].
    destruct (Z.ltb_spec mins 1440); [|lia].
    repeat split; try lia.
  - intros H.
    destruct (Z.ltb_spec mins 1); [lia|].
    destruct (Z.ltb_spec mins 60); [lia|].
    destruct (Z.ltb_spec mins 1440); [lia|reflexivity].
Qed.

Lemma formatTimestamp_ranges_witness :
  let now := 1700000000000 in
  Z.abs (1699999999 * 1000) <= MAX_TIME_VALUE
  /\ Z.abs (1699000000 * 1000) <= MAX_TIME_VALUE
  /\ MAX_TIME_VALUE < Z.abs (8640000000001 * 1000)
  /\ formatTimestamp (fun _ => js "14.11.2023 22:13") now 1699999999
     = js "только что"
  /\ formatTimestamp (fun _ => js "14.11.2023 22:13") now 1699999000
     = js "16 мин назад"
  /\ formatTimestamp (fun _ => js "14.11.2023 22:13") now 1699990000
     = js "2 ч назад"
  /\ formatTimestamp (fun _ => js "14.11.2023 22:13") now 1699000000
     = js "14.11.2023 22:13"
  /\ formatTimestamp (fun _ => js "Invalid Date Invalid Date") now
       8640000000001
     = js "Invalid Date Invalid Date".
Proof.
  cbv zeta.
  assert (V1 : Z.abs (1699999999 * 1000) <= MAX_TIME_VALUE)
    by (vm_compute; discriminate).
  assert (V2 : Z.abs (1699000000 * 1000) <= MAX_TIME_VALUE)
    by (vm_compute; discriminate).
  assert (V3 : MAX_TIME_VALUE < Z.abs (8640000000001 * 1000))
    by (vm_compute; reflexivity).
  destruct (formatTimestamp_ranges (fun _ => js "14.11.2023 22:13")
              1700000000000 1699999999) as [H1 _].
  destruct (H1 V1) as (H1' & _).
  destruct (formatTimestamp_ranges (fun _ => js "14.11.2023 22:13")
              1700000000000 1699000000) as [H4 _].
  destruct (H4 V2) as (_ & _ & _ & H4').
  destruct (formatTimestamp_ranges (fun _ => js "Invalid Date Invalid Date")
              1700000000000 8640000000001) as [_ H5].
  split; [exact V1|]. split; [exact V2|]. split; [exact V3|].
  split; [apply H1'; vm_compute; reflexivity|].
  split; [vm_compute; reflexivity|]. split; [vm_compute; reflexivity|].
  split; [apply H4'; vm_compute; discriminate|].
  apply H5, V3.
Defined.

(** ** Window behaviour *)

Lemma overlay_step_saved (op : OverlayOp) (s : WindowStore * Shell) :
  overlayPreviousWindowSaved (fst s) = true ->
  keeps_session op ->
  (save_previous_window ∉ fst (overlay_step op s))
  /\ overlayPreviousWindowSaved (fst (snd (overlay_step op s))) = true.
Proof.
  intros Hsaved Hkeep. destruct s as [ws sh]. cbn [fst snd] in *.
  assert (Hshow : forall q ok,
             (save_previous_window ∉ fst (showWindowOverlay q ok ws))
             /\ overlayPreviousWindowSaved (snd (showWindowOverlay q ok ws))
                = true).
  { intros q ok. unfold showWindowOverlay. rewrite Hsaved. cbn [negb].
    destruct (negb (isMinimized q || negb (isVisible q)) && isFocused q);
      cbn [fst snd]; (split; [|exact Hsaved]).
    - apply not_elem_of_nil.
    - intros H. apply list_elem_of_singleton in H. discriminate H. }
  destruct op as [now q q' ok|q ok| |mode ok]; cbn [overlay_step fst snd].
  - unfold handleWinEscHotkey_calls.
    destruct (handleWinEscHotkey now q (keyboard ws) sh) as [[[| |]|] sh1].
    + destruct (Hshow q' ok) as [H1 H2].
      destruct (showWindowOverlay q' ok ws) as [cs ws1]. cbn [fst snd] in *.
      auto.
    + cbn [hideWindowAndRestoreFocus fst snd]. split; [|exact Hsaved].
      intros H. apply list_elem_of_singleton in H. discriminate H.
    + cbn [fst snd]. split; [|exact Hsaved].
      intros H. apply list_elem_of_singleton in H. discriminate H.
    + cbn [fst snd]. split; [apply not_elem_of_nil|exact Hsaved].
  - destruct (Hshow q ok) as [H1 H2].
    destruct (showWindowOverlay q ok ws) as [cs ws1]. cbn [fst snd] in *. auto.
  - cbn [hideWindowAndRestoreFocus fst snd]. split; [|exact Hsaved].
    intros H. apply list_elem_of_singleton in H. discriminate H.
  - split; [intros H; apply list_elem_of_singleton in H; discriminate H|].
    unfold setHotkeyMode_resume. destruct ok; [|exact Hsaved].
    destruct mode; cbn in Hkeep |- *; [destruct Hkeep|exact Hsaved].
Qed.

(** X17. The previously focused window is saved once per overlay session:
    an accepted [save_previous_window] raises the flag, and once the flag
    is up no operation of the session (hotkey from either source, show,
    hide, a mode change other than an accepted switch to
    [background_blocking]) issues [save_previous_window] again; the flag
    stays up. An accepted switch to [background_blocking] lowers it. *)
Theorem previous_window_saved_once (ops : list OverlayOp)
    (s : WindowStore * Shell) :
  overlayPreviousWindowSaved (fst s) = true ->
  Forall keeps_session ops ->
  (save_previous_window ∉ fst (overlay_run ops s))
  /\ overlayPreviousWindowSaved (fst (snd (overlay_run ops s))) = true
  /\ overlayPreviousWindowSaved
       (setHotkeyMode_resume background_blocking true
          (fst (snd (overlay_run ops s)))) = false.
Proof.
  intros Hsaved Hops.
  assert (Hrun : (save_previous_window ∉ fst (overlay_run ops s))
                 /\ overlayPreviousWindowSaved (fst (snd (overlay_run ops s)))
                    = true).
  { revert s Hsaved. induction ops as [|op ops IH]; intros s Hsaved.
    - cbn. split; [apply not_elem_of_nil|exact Hsaved].
    - apply Forall_cons in Hops as [Hop Hops]. cbn [overlay_run].
      destruct (overlay_step_saved op s Hsaved Hop) as [H1 H2].
      destruct (overlay_step op s) as [cs s1]. cbn [fst snd] in *.
      destruct (IH Hops s1 H2) as [H3 H4].
      destruct (overlay_run ops s1) as [cs' s2]. cbn [fst snd] in *.
      split; [|exact H4]. intros H. apply elem_of_app in H as [H|H]; auto. }
  destruct Hrun as [H1 H2]. split; [exact H1|]. split; [exact H2|reflexivity].
Qed.

Lemma previous_window_saved_once_witness :
  let T := 1700000000000 in
  let first := overlay_run [OpHotkey T hiddenWindow hiddenWindow true]
                 (initialWindowStore, initialShell) in
  let ops := [ OpHotkey (T + 1000) focusedWindow focusedWindow true;
               OpHotkey (T + 2000) hiddenWindow hiddenWindow true;
               OpShow hiddenWindow true;
               OpSetMode overlay_call true ] in
  fst first = [save_previous_window; show_window_on_top]
  /\ overlayPreviousWindowSaved (fst (snd first)) = true
  /\ Forall keeps_session ops
  /\ fst (overlay_run ops (snd first))
     = [send_to_background_and_restore_focus; show_window_on_top;
        show_window_on_top; set_hotkey_mode overlay_call]
  /\ save_previous_window ∉ fst (overlay_run ops (snd first)).
Proof.
  cbv zeta.
  assert (Hops : Forall keeps_session
                   [ OpHotkey (1700000000000 + 1000) focusedWindow
                       focusedWindow true;
                     OpHotkey (1700000000000 + 2000) hiddenWindow
                       hiddenWindow true;
                     OpShow hiddenWindow true;
                     OpSetMode overlay_call true ])
    by (repeat constructor).
  destruct (previous_window_saved_once _
              (snd (overlay_run
                      [OpHotkey 1700000000000 hiddenWindow hiddenWindow true]
                      (initialWindowStore, initialShell)))
              eq_refl Hops) as (H1 & _ & _).
  split; [reflexivity|]. split; [reflexivity|]. split; [exact Hops|].
  split; [reflexivity|exact H1].
Defined.

Lemma attempt_nonempty (accepted : BackendCall -> bool) (c : BackendCall)
    (cs : list BackendCall) :
  attempt accepted (c :: cs) <> [].
Proof. cbn [attempt]. intros H. discriminate H. Qed.

(** X18. The ['blocking_changed'] listener leaves the window alone when the
    value did not change, and in [overlay_call] mode whatever the value and
    the settings; in [background_blocking] mode a change of the value
    always issues at least one call. *)
Theorem blocking_change_window_calls (accepted : BackendCall -> bool)
    (enabled : bool) (ws : WindowStore) :
  let calls := fst (on_blocking_changed_calls accepted enabled ws) in
  (blockingEnabled (keyboard ws) = enabled -> calls = [])
  /\ (hotkeyMode (keyboard ws) = overlay_call -> calls = [])
  /\ (hotkeyMode (keyboard ws) = background_blocking ->
      blockingEnabled (keyboard ws) <> enabled -> calls <> []).
Proof.
  cbv zeta. unfold on_blocking_changed_calls. repeat split.
  - intros ->. rewrite bool_decide_eq_true_2 by reflexivity. reflexivity.
  - intros Hmode. destruct (bool_decide _); [reflexivity|]. cbn [fst].
    unfold applyWindowBehavior. cbn [keyboard]. unfold on_blocking_changed.
    replace (hotkeyMode (set_blockingEnabled enabled (keyboard ws)))
      with (hotkeyMode (keyboard ws)) by reflexivity.
    rewrite Hmode, bool_decide_eq_true_2 by reflexivity. reflexivity.
  - intros Hmode Hchg. rewrite bool_decide_eq_false_2 by exact Hchg.
    cbn [fst]. unfold applyWindowBehavior. cbn [keyboard alwaysOnTop
      autoShowOnBlock]. unfold on_blocking_changed.
    replace (hotkeyMode (set_blockingEnabled enabled (keyboard ws)))
      with (hotkeyMode (keyboard ws)) by reflexivity.
    rewrite Hmode. rewrite bool_decide_eq_false_2 by discriminate.
    destruct (alwaysOnTop ws); [apply attempt_nonempty|].
    destruct (autoShowOnBlock ws); [|apply attempt_nonempty].
    destruct (blockingEnabled (set_blockingEnabled enabled (keyboard ws)));
      apply attempt_nonempty.
Qed.

Lemma blocking_change_window_calls_witness :
  let ws := setHotkeyMode_resume background_blocking true
              {| keyboard := initialStore; overlayPreviousWindowSaved := false;
                 alwaysOnTop := false; autoShowOnBlock := true |} in
  hotkeyMode (keyboard ws) = background_blocking
  /\ blockingEnabled (keyboard ws) <> true
  /\ fst (on_blocking_changed_calls (fun _ => true) true ws)
     = [save_previous_window; set_window_always_on_top true;
        window_unminimize; window_show; window_setFocus]
  /\ fst (on_blocking_changed_calls (fun _ => true) true initialWindowStore)
     = [].
Proof.
  cbv zeta.
  destruct (blocking_change_window_calls (fun _ => true) true
              initialWindowStore) as (_ & Hoverlay & _).
  split; [reflexivity|]. split; [discriminate|]. split; [reflexivity|].
  apply Hoverlay. reflexivity.
Defined.

(** ** The application shell *)

Lemma is_key_other_length (e : KeyboardEvent) (name : string) :
  length (ev_key e) <> length (js name) -> is_key name e = false.
Proof.
  intros Hlen. unfold is_key. apply bool_decide_eq_false_2.
  intros E. apply Hlen. rewrite E. reflexivity.
Qed.

Lemma is_modifier_code_false (e : KeyboardEvent) :
  is_modifier_code e = false ->
  is_code "ShiftLeft" e = false /\ is_code "ShiftRight" e = false
  /\ is_code "AltLeft" e = false /\ is_code "AltRight" e = false
  /\ is_code "ControlLeft" e = false /\ is_code "ControlRight" e = false
  /\ is_code "MetaLeft" e = false /\ is_code "MetaRight" e = false.
Proof.
  unfold is_modifier_code. intros H.
  repeat (apply orb_false_elim in H as [H ?]). auto 10.
Qed.

Ltac no_modifier_code Hcode :=
  destruct (is_modifier_code_false _ Hcode)
    as (-> & -> & -> & -> & -> & -> & -> & ->).

(** A printable key pressed while the text area does not have the focus is
    redirected into it. *)
Lemma handleKeyDown_printable (now : Z) (q : WindowQuery) (rnd : jsstring)
    (e : KeyboardEvent) (app : App) :
  length (ev_key e) = 1%nat ->
  is_modifier_code e = false ->
  inputHasFocus app = false ->
  handleKeyDown now q rnd e app
  = mkHandled
      (mkApp (app_shell app) (app_mods app)
         (dispatch_input (redirect_insert (ev_key e) (app_input app))
            (app_store app))
         (redirect_insert (ev_key e) (app_input app)) false)
      true None.
Proof.
  intros Hlen Hcode Hfocus. unfold handleKeyDown, handleKeyDown_begin.
  no_modifier_code Hcode.
  rewrite !is_key_other_length by (rewrite Hlen; vm_compute; lia).
  rewrite Hfocus, Hlen. cbn [orb andb negb].
  rewrite bool_decide_eq_true_2 by reflexivity. reflexivity.
Qed.

Ltac eval_event_tests e :=
  repeat match goal with
  | |- context [is_key ?n e] =>
      let v := eval vm_compute in (is_key n e) in
      change (is_key n e) with v
  | |- context [is_code ?n e] =>
      let v := eval vm_compute in (is_code n e) in
      change (is_code n e) with v
  | |- context [bool_decide (length (ev_key e) = 1%nat)] =>
      let v := eval vm_compute in (bool_decide (length (ev_key e) = 1%nat)) in
      change (bool_decide (length (ev_key e) = 1%nat)) with v
  end.

Lemma handleKeyDown_backspace (now : Z) (q : WindowQuery) (rnd : jsstring)
    (app : App) :
  inputHasFocus app = false ->
  handleKeyDown now q rnd backspaceEvent app
  = mkHandled
      (mkApp (app_shell app) (app_mods app)
         (dispatch_input (redirect_backspace (app_input app)) (app_store app))
         (redirect_backspace (app_input app)) false)
      true None.
Proof.
  intros Hfocus. unfold handleKeyDown, handleKeyDown_begin.
  eval_event_tests backspaceEvent.
  rewrite Hfocus. reflexivity.
Qed.

Lemma redirect_insert_backspace (c : N) (input : TextArea) :
  selectionStart input = selectionEnd input ->
  (selectionEnd input <= length (ta_value input))%nat ->
  redirect_backspace (redirect_insert [c] input) = input.
Proof.
  destruct input as [v s e]. cbn [selectionStart selectionEnd ta_value].
  intros <- Hle. unfold redirect_backspace, redirect_insert.
  cbn [selectionStart selectionEnd ta_value].
  rewrite bool_decide_eq_true_2 by reflexivity.
  rewrite bool_decide_eq_true_2 by lia. cbn [andb].
  unfold slice_to, slice_from. f_equal; try lia.
  replace (s + 1 - 1)%nat with s by lia.
  rewrite take_app_length' by (rewrite length_take; lia).
  rewrite (app_assoc (take s v) [c]).
  rewrite drop_app_length' by (rewrite length_app, length_take; simpl; lia).
  apply take_drop.
Qed.

(** The segmenter dispatches nothing in these three cases. *)
Lemma watcher_silent (newText : jsstring) (now : Z) (rnd : jsstring)
    (processing : bool) (st : Store) :
  continuousPlay st = false \/ isPlaying st = true
  \/ match_terminator newText = None ->
  watch_interceptedText newText now rnd processing st
  = mkWatched processing None st.
Proof.
  unfold watch_interceptedText. intros [H|[H|H]]; rewrite H.
  - reflexivity.
  - rewrite orb_true_r. reflexivity.
  - destruct (_ || _ || _ || _); reflexivity.
Qed.

(** X19. A printable key redirected into the text area and then Backspace
    restore the text area exactly (value and caret) when nothing was
    selected, and the composed text of the store is again the value of the
    text area; both key-downs are taken from the browser
    ([preventDefault]). This holds when the segmenter dispatches nothing
    in between: continuous mode is off, or playback is in progress, or
    neither text holds a terminator; the watchers that run after each
    key-down then change nothing. *)
Theorem redirected_key_then_backspace (now now' : Z) (q q' : WindowQuery)
    (rnd rnd' : jsstring) (processing : bool) (e : KeyboardEvent)
    (app : App) :
  length (ev_key e) = 1%nat ->
  is_modifier_code e = false ->
  inputHasFocus app = false ->
  selectionStart (app_input app) = selectionEnd (app_input app) ->
  (selectionEnd (app_input app) <= length (ta_value (app_input app)))%nat ->
  continuousPlay (app_store app) = false
  \/ isPlaying (app_store app) = true
  \/ (match_terminator (ta_value (redirect_insert (ev_key e) (app_input app)))
      = None
      /\ match_terminator (ta_value (app_input app)) = None) ->
  let h1 := handleKeyDown now q rnd e app in
  let w1 := run_watchers now rnd processing (after h1) in
  let h2 := handleKeyDown now' q' rnd' backspaceEvent (snd w1) in
  let w2 := run_watchers now' rnd' (isProcessingSpeech (fst w1)) (after h2) in
  snd w1 = after h1
  /\ deferredText (fst w1) = None
  /\ snd w2 = after h2
  /\ deferredText (fst w2) = None
  /\ app_input (snd w2) = app_input app
  /\ interceptedText (app_store (snd w2)) = ta_value (app_input app)
  /\ ttsHistory (app_store (snd w2)) = ttsHistory (app_store app)
  /\ defaultPrevented h1 = true
  /\ defaultPrevented h2 = true.
Proof.
  intros Hlen Hcode Hfocus Hsel Hle Hsilent. cbv zeta.
  rewrite (handleKeyDown_printable now q rnd e app) by assumption.
  cbn [after].
  assert (Hw1 : run_watchers now rnd processing
                  (mkApp (app_shell app) (app_mods app)
                     (dispatch_input
                        (redirect_insert (ev_key e) (app_input app))
                        (app_store app))
                     (redirect_insert (ev_key e) (app_input app)) false)
                = (mkWatched processing None
                     (dispatch_input
                        (redirect_insert (ev_key e) (app_input app))
                        (app_store app)),
                   mkApp (app_shell app) (app_mods app)
                     (dispatch_input
                        (redirect_insert (ev_key e) (app_input app))
                        (app_store app))
                     (redirect_insert (ev_key e) (app_input app)) false)).
  { unfold run_watchers. cbn [app_store app_input app_shell app_mods
                              inputHasFocus].
    rewrite watcher_silent.
    - cbn [storeAfter]. unfold sync_textarea, dispatch_input.
      cbn [interceptedText set_interceptedText].
      rewrite bool_decide_eq_true_2 by reflexivity. reflexivity.
    - unfold dispatch_input.
      cbn [continuousPlay isPlaying interceptedText set_interceptedText].
      tauto. }
  rewrite Hw1. cbn [fst snd isProcessingSpeech deferredText].
  rewrite handleKeyDown_backspace by reflexivity.
  cbn [after app_input app_store app_shell app_mods defaultPrevented].
  destruct (ev_key e) as [|c [|? ?]] eqn:Hk; try discriminate Hlen.
  rewrite redirect_insert_backspace by assumption.
  assert (Hw2 : run_watchers now' rnd' processing
                  (mkApp (app_shell app) (app_mods app)
                     (dispatch_input (app_input app)
                        (dispatch_input (redirect_insert [c] (app_input app))
                           (app_store app)))
                     (app_input app) false)
                = (mkWatched processing None
                     (dispatch_input (app_input app)
                        (dispatch_input (redirect_insert [c] (app_input app))
                           (app_store app))),
                   mkApp (app_shell app) (app_mods app)
                     (dispatch_input (app_input app)
                        (dispatch_input (redirect_insert [c] (app_input app))
                           (app_store app)))
                     (app_input app) false)).
  { unfold run_watchers. cbn [app_store app_input app_shell app_mods
                              inputHasFocus].
    rewrite watcher_silent.
    - cbn [storeAfter]. unfold sync_textarea, dispatch_input.
      cbn [interceptedText set_interceptedText].
      rewrite bool_decide_eq_true_2 by reflexivity. reflexivity.
    - unfold dispatch_input.
      cbn [continuousPlay isPlaying interceptedText set_interceptedText].
      tauto. }
  rewrite Hw2. cbn [fst snd deferredText app_input app_store].
  repeat split.
Qed.

Lemma redirected_key_then_backspace_witness :
  let e := {| ev_key := js "x"; ev_code := js "KeyX" |} in
  let app := mkApp initialShell (mkModifiers false false false false)
               (set_interceptedText (js "hello") continuousStore)
               (mkTextArea (js "hello") 2 2) false in
  let h1 := handleKeyDown 0 hiddenWindow [] e app in
  let w1 := run_watchers 0 [] false (after h1) in
  let h2 := handleKeyDown 0 hiddenWindow [] backspaceEvent (snd w1) in
  let w2 := run_watchers 0 [] false (after h2) in
  length (ev_key e) = 1%nat
  /\ is_modifier_code e = false
  /\ continuousPlay (app_store app) = true
  /\ match_terminator (js "hexllo") = None
  /\ app_input (snd w1) = mkTextArea (js "hexllo") 3 3
  /\ interceptedText (app_store (snd w1)) = js "hexllo"
  /\ app_input (snd w2) = mkTextArea (js "hello") 2 2
  /\ interceptedText (app_store (snd w2)) = js "hello".
Proof.
  cbv zeta.
  destruct (redirected_key_then_backspace 0 0 hiddenWindow hiddenWindow [] []
              false
              {| ev_key := js "x"; ev_code := js "KeyX" |}
              (mkApp initialShell (mkModifiers false false false false)
                 (set_interceptedText (js "hello") continuousStore)
                 (mkTextArea (js "hello") 2 2) false))
    as (_ & _ & _ & _ & H1 & H2 & _); try reflexivity;
    [vm_compute; lia|right; right; split; reflexivity|].
  split; [reflexivity|]. split; [reflexivity|]. split; [reflexivity|].
  split; [reflexivity|]. split; [reflexivity|]. split; [reflexivity|].
  split; [exact H1|exact H2].
Defined.

(** X20. The redirected edits, on a text area whose value reads [pre],
    then the selection [sel], then [post]. A printable key replaces the
    selection by its character and leaves the caret after it. Backspace
    deletes the selection when there is one and leaves the caret in its
    place; when there is none it deletes the last character of [pre] and
    leaves the caret there, and at the start of the text it changes
    nothing. Both leave the selection collapsed and within the text. *)
Theorem redirected_edits_keep_selection (c : N) (input : TextArea) :
  well_formed input ->
  exists pre sel post,
    input = mkTextArea (pre ++ sel ++ post) (length pre)
              (length pre + length sel)
    /\ redirect_insert [c] input
       = mkTextArea (pre ++ [c] ++ post) (length pre + 1) (length pre + 1)
    /\ redirect_backspace input
       = (if bool_decide (sel = [])
          then mkTextArea (removelast pre ++ post) (length (removelast pre))
                 (length (removelast pre))
          else mkTextArea (pre ++ post) (length pre) (length pre))
    /\ well_formed (redirect_insert [c] input)
    /\ well_formed (redirect_backspace input).
Proof.
  destruct input as [v s e]. unfold well_formed.
  cbn [selectionStart selectionEnd ta_value]. intros [Hse Hel].
  exists (take s v), (take (e - s) (drop s v)), (drop e v).
  assert (Hpre : length (take s v) = s) by (rewrite length_take; lia).
  assert (Hsel : length (take (e - s) (drop s v)) = (e - s)%nat)
    by (rewrite length_take, length_drop; lia).
  assert (Hv : take s v ++ take (e - s) (drop s v) ++ drop e v = v).
  { rewrite <- (take_drop s v) at 4. f_equal.
    rewrite <- (take_drop (e - s) (drop s v)) at 2. f_equal.
    rewrite drop_drop. f_equal. lia. }
  assert (Hins : redirect_insert [c] (mkTextArea v s e)
                 = mkTextArea (take s v ++ [c] ++ drop e v) (s + 1) (s + 1))
    by reflexivity.
  assert (Hbs : redirect_backspace (mkTextArea v s e)
                = (if bool_decide (take (e - s) (drop s v) = [])
                   then mkTextArea (removelast (take s v) ++ drop e v)
                          (length (removelast (take s v)))
                          (length (removelast (take s v)))
                   else mkTextArea (take s v ++ drop e v) s s)).
  { unfold redirect_backspace, slice_to, slice_from.
    cbn [selectionStart selectionEnd ta_value].
    destruct (decide (s = e)) as [<-|Hne].
    - rewrite (bool_decide_eq_true_2 (s = s)) by reflexivity.
      rewrite Nat.sub_diag. cbn [take].
      rewrite (bool_decide_eq_true_2 (@nil N = [])) by reflexivity.
      destruct s as [|s'].
      + rewrite bool_decide_eq_false_2 by lia. cbn [andb negb take removelast
          app length]. rewrite drop_0. reflexivity.
      + rewrite bool_decide_eq_true_2 by lia. cbn [andb].
        replace (S s' - 1)%nat with s' by lia.
        assert (Hrl : removelast (take (S s') v) = take s' v).
        { rewrite removelast_firstn_len, Hpre. cbn [Nat.pred].
          rewrite take_take. f_equal. lia. }
        rewrite Hrl, length_take. f_equal; lia.
    - rewrite (bool_decide_eq_false_2 (s = e)) by exact Hne. cbn [andb negb].
      rewrite bool_decide_eq_false_2; [reflexivity|].
      intros E. rewrite E in Hsel. cbn in Hsel. lia. }
  split; [rewrite Hv, Hpre, Hsel; f_equal; lia|].
  split; [rewrite Hins, Hpre; reflexivity|].
  split; [rewrite Hbs, Hpre; reflexivity|].
  split.
  - rewrite Hins. cbn [selectionStart selectionEnd ta_value].
    rewrite !length_app, Hpre, length_drop. cbn [length]. lia.
  - rewrite Hbs. destruct (bool_decide _);
      cbn [selectionStart selectionEnd ta_value];
      rewrite !length_app; lia.
Qed.

Lemma redirected_edits_keep_selection_witness :
  let input := mkTextArea (js "hello") 1 4 in
  well_formed input
  /\ redirect_insert (js "x") input = mkTextArea (js "hxo") 2 2
  /\ redirect_backspace input = mkTextArea (js "ho") 1 1
  /\ well_formed (redirect_insert (js "x") input)
  /\ well_formed (redirect_backspace input).
Proof.
  cbv zeta.
  assert (Hwf : well_formed (mkTextArea (js "hello") 1 4))
    by (unfold well_formed; vm_compute; lia).
  destruct (redirected_edits_keep_selection 120 _ Hwf)
    as (pre & sel & post & _ & _ & _ & H1 & H2).
  split; [exact Hwf|]. split; [reflexivity|]. split; [reflexivity|].
  split; [exact H1|exact H2].
Defined.

Lemma is_key_exact (e : KeyboardEvent) (name other : string) :
  ev_key e = js name -> js name <> js other -> is_key other e = false.
Proof.
  intros Hk Hne. unfold is_key. rewrite Hk.
  apply bool_decide_eq_false_2. exact Hne.
Qed.

(** X21. Ctrl+Enter sends the whole composed text as one utterance and
    empties the composed text, whatever the continuous-play setting (the
    text is not split at a terminator); with an empty text it changes
    nothing. In both cases the key-down is taken from the browser and the
    text area itself is not written. *)
Theorem ctrl_enter_sends_whole_text (now : Z) (q : WindowQuery)
    (rnd : jsstring) (e : KeyboardEvent) (app : App) :
  ev_key e = js "Enter" ->
  is_modifier_code e = false ->
  ctrlPressed (app_mods app) = true ->
  let h := handleKeyDown now q rnd e app in
  let txt := interceptedText (app_store app) in
  defaultPrevented h = true
  /\ app_input (after h) = app_input app
  /\ (txt = [] -> after h = app)
  /\ (txt <> [] ->
      ttsHistory (app_store (after h))
      = provisional txt now rnd :: ttsHistory (app_store app)
      /\ interceptedText (app_store (after h)) = []).
Proof.
  intros Hkey Hcode Hctrl. cbv zeta. unfold handleKeyDown, handleKeyDown_begin.
  no_modifier_code Hcode.
  rewrite (is_key_exact e "Enter" "Shift"), (is_key_exact e "Enter" "Alt"),
    (is_key_exact e "Enter" "Control"), (is_key_exact e "Enter" "Meta")
    by (assumption || (vm_compute; discriminate)).
  replace (is_key "Enter" e) with true
    by (symmetry; unfold is_key; apply bool_decide_eq_true_2; exact Hkey).
  rewrite Hctrl. cbn [orb andb].
  destruct (decide (interceptedText (app_store app) = [])) as [E|E].
  - rewrite bool_decide_eq_true_2 by exact E.
    cbn [after defaultPrevented]. repeat split; intros; congruence.
  - rewrite bool_decide_eq_false_2 by exact E.
    cbn [after defaultPrevented app_input app_store].
    repeat split; intros; congruence.
Qed.

Lemma ctrl_enter_sends_whole_text_witness :
  let app := mkApp initialShell (mkModifiers false false true false)
               (set_interceptedText (js "One. Two")
                  (on_continuous_play_changed true initialStore))
               (mkTextArea (js "One. Two") 8 8) true in
  let h := handleKeyDown 1700000000123 hiddenWindow (js "k3j9x1a") enterEvent
             app in
  ev_key enterEvent = js "Enter"
  /\ is_modifier_code enterEvent = false
  /\ ctrlPressed (app_mods app) = true
  /\ map text (ttsHistory (app_store (after h))) = [js "One. Two"]
  /\ interceptedText (app_store (after h)) = [].
Proof.
  cbv zeta.
  destruct (ctrl_enter_sends_whole_text 1700000000123 hiddenWindow
              (js "k3j9x1a") enterEvent
              (mkApp initialShell (mkModifiers false false true false)
                 (set_interceptedText (js "One. Two")
                    (on_continuous_play_changed true initialStore))
                 (mkTextArea (js "One. Two") 8 8) true)
              eq_refl eq_refl eq_refl) as (_ & _ & _ & Hsend).
  destruct Hsend as [Hh Ht]; [vm_compute; discriminate|].
  split; [reflexivity|]. split; [reflexivity|]. split; [reflexivity|].
  split; [rewrite Hh; reflexivity|exact Ht].
Defined.

Lemma handleKeyDown_begin_escape_meta (now : Z) (q : WindowQuery)
    (rnd : jsstring) (app : App) :
  hotkeyMode (app_store app) = overlay_call ->
  metaPressed (app_shell app) = true ->
  handleKeyDown_begin now q rnd escapeEvent app
  = AwaitingHotkey
      (mkApp (snd (handleWinEscHotkey now q (app_store app) (app_shell app)))
         (app_mods app) (app_store app) (app_input app) (inputHasFocus app))
      (fst (handleWinEscHotkey now q (app_store app) (app_shell app))).
Proof.
  intros Hmode Hmeta. unfold handleKeyDown_begin.
  eval_event_tests escapeEvent.
  cbn [orb andb]. rewrite Hmode, Hmeta.
  rewrite (bool_decide_eq_true_2 (overlay_call = overlay_call)) by reflexivity.
  cbn [orb andb].
  destruct (handleWinEscHotkey now q (app_store app) (app_shell app)).
  reflexivity.
Qed.

Lemma handleKeyDown_escape_plain (now : Z) (q : WindowQuery) (rnd : jsstring)
    (app : App) :
  metaPressed (app_shell app) = false ->
  handleKeyDown now q rnd escapeEvent app = mkHandled app false None.
Proof.
  intros Hmeta. unfold handleKeyDown, handleKeyDown_begin.
  eval_event_tests escapeEvent.
  cbn [orb andb]. rewrite Hmeta. cbn [orb andb].
  destruct (negb _); reflexivity.
Qed.

Lemma handleWinEscHotkey_metaPressed (now : Z) (q : WindowQuery) (st : Store)
    (sh : Shell) :
  metaPressed (snd (handleWinEscHotkey now q st sh)) = metaPressed sh.
Proof. unfold handleWinEscHotkey. case_ifs; reflexivity. Qed.

Lemma handleWinEscHotkey_accepted (now : Z) (q : WindowQuery) (st : Store)
    (sh : Shell) :
  HOTKEY_DEBOUNCE_MS <= now - lastHotkeyCallTime sh ->
  lastHotkeyCallTime (snd (handleWinEscHotkey now q st sh)) = now.
Proof.
  intros H. unfold handleWinEscHotkey.
  destruct (Z.ltb_spec (now - lastHotkeyCallTime sh) HOTKEY_DEBOUNCE_MS);
    [lia|].
  case_ifs; reflexivity.
Qed.

Lemma handleWinEscHotkey_debounced (now : Z) (q : WindowQuery) (st : Store)
    (sh : Shell) :
  now - lastHotkeyCallTime sh < HOTKEY_DEBOUNCE_MS ->
  fst (handleWinEscHotkey now q st sh) = None.
Proof.
  intros H. unfold handleWinEscHotkey.
  destruct (Z.ltb_spec (now - lastHotkeyCallTime sh) HOTKEY_DEBOUNCE_MS);
    [reflexivity|lia].
Qed.

Lemma handleWinEscHotkey_acts (now : Z) (q : WindowQuery) (st : Store)
    (sh : Shell) :
  hotkeyMode st = overlay_call ->
  HOTKEY_DEBOUNCE_MS <= now - lastHotkeyCallTime sh ->
  is_Some (fst (handleWinEscHotkey now q st sh)).
Proof.
  intros Hmode H. unfold handleWinEscHotkey.
  destruct (Z.ltb_spec (now - lastHotkeyCallTime sh) HOTKEY_DEBOUNCE_MS);
    [lia|].
  rewrite Hmode, bool_decide_eq_true_2 by reflexivity. cbn [negb].
  case_ifs; cbn [fst]; eauto.
Qed.

(** X22. Win+Esc typed in the window. In overlay mode, an Escape key-down
    with Meta down runs the hotkey handler (with the result and the shell
    state of [keydown_Escape]) and is suspended while the window is queried
    and moved; only when it resumes are the Meta flags lowered, whether the
    handler acted or was debounced. After that, a further Escape key-down
    without a new Meta key-down runs nothing and changes nothing. While
    the handler is suspended, Meta is still flagged: a second Escape
    key-down runs the hotkey handler again, and it is the debounce that
    stops it when it comes less than 300 ms after an accepted first one. *)
Theorem win_esc_consumes_meta (now now' : Z) (q q' : WindowQuery)
    (rnd rnd' : jsstring) (app : App) :
  hotkeyMode (app_store app) = overlay_call ->
  metaPressed (app_shell app) = true ->
  let first := handleWinEscHotkey now q (app_store app) (app_shell app) in
  let suspended :=
    mkApp (snd first) (app_mods app) (app_store app) (app_input app)
      (inputHasFocus app) in
  let h1 := handleKeyDown now q rnd escapeEvent app in
  let h2 := handleKeyDown now' q' rnd' escapeEvent (after h1) in
  let second :=
    handleWinEscHotkey now' q' (app_store app) (snd first) in
  handleKeyDown_begin now q rnd escapeEvent app
  = AwaitingHotkey suspended (fst first)
  /\ metaPressed (app_shell suspended) = true
  /\ h1 = handleKeyDown_resume (fst first) suspended
  /\ (windowAction h1, app_shell (after h1))
     = keydown_Escape now q (app_store app) (app_shell app)
  /\ defaultPrevented h1 = true
  /\ metaPressed (app_shell (after h1)) = false
  /\ winPressed (app_mods (after h1)) = false
  /\ windowAction h2 = None
  /\ after h2 = after h1
  /\ defaultPrevented h2 = false
  /\ handleKeyDown_begin now' q' rnd' escapeEvent suspended
     = AwaitingHotkey
         (mkApp (snd second) (app_mods app) (app_store app) (app_input app)
            (inputHasFocus app))
         (fst second)
  /\ (HOTKEY_DEBOUNCE_MS <= now - lastHotkeyCallTime (app_shell app) ->
      now' - now < HOTKEY_DEBOUNCE_MS -> fst second = None)
  /\ (HOTKEY_DEBOUNCE_MS <= now - lastHotkeyCallTime (app_shell app) ->
      HOTKEY_DEBOUNCE_MS <= now' - now -> is_Some (fst second)).
Proof.
  intros Hmode Hmeta. cbv zeta.
  pose proof (handleKeyDown_begin_escape_meta now q rnd app Hmode Hmeta)
    as Hb1.
  pose proof (handleWinEscHotkey_metaPressed now q (app_store app)
                (app_shell app)) as Hm1.
  rewrite Hmeta in Hm1.
  split; [exact Hb1|]. split; [exact Hm1|].
  assert (H1 : handleKeyDown now q rnd escapeEvent app
               = handleKeyDown_resume
                   (fst (handleWinEscHotkey now q (app_store app)
                           (app_shell app)))
                   (mkApp (snd (handleWinEscHotkey now q (app_store app)
                                  (app_shell app)))
                      (app_mods app) (app_store app) (app_input app)
                      (inputHasFocus app)))
    by (unfold handleKeyDown; rewrite Hb1; reflexivity).
  rewrite H1. split; [reflexivity|].
  unfold handleKeyDown_resume.
  cbn [after windowAction defaultPrevented app_shell app_mods app_store
       app_input inputHasFocus metaPressed winPressed lastHotkeyCallTime].
  split.
  { unfold keydown_Escape. rewrite Hmode, Hmeta.
    rewrite bool_decide_eq_true_2 by reflexivity.
    destruct (handleWinEscHotkey now q (app_store app) (app_shell app)).
    reflexivity. }
  split; [reflexivity|]. split; [reflexivity|]. split; [reflexivity|].
  rewrite handleKeyDown_escape_plain by reflexivity.
  cbn [after windowAction defaultPrevented].
  split; [reflexivity|]. split; [reflexivity|]. split; [reflexivity|].
  split.
  { apply (handleKeyDown_begin_escape_meta now' q' rnd'
             (mkApp (snd (handleWinEscHotkey now q (app_store app)
                            (app_shell app)))
                (app_mods app) (app_store app) (app_input app)
                (inputHasFocus app)) Hmode Hm1). }
  split; intros Hfirst Hsecond.
  - apply handleWinEscHotkey_debounced.
    rewrite handleWinEscHotkey_accepted by exact Hfirst. exact Hsecond.
  - apply handleWinEscHotkey_acts; [exact Hmode|].
    rewrite handleWinEscHotkey_accepted by exact Hfirst. exact Hsecond.
Qed.

Lemma win_esc_consumes_meta_witness :
  let app := after (handleKeyDown 0 hiddenWindow [] metaEvent initialApp) in
  let h1 := handleKeyDown 1700000000000 hiddenWindow [] escapeEvent app in
  let h2 := handleKeyDown 1700000005000 focusedWindow [] escapeEvent
              (after h1) in
  hotkeyMode (app_store app) = overlay_call
  /\ metaPressed (app_shell app) = true
  /\ windowAction h1 = Some ShowWindowOverlay
  /\ windowAction h2 = None
  /\ after h2 = after h1.
Proof.
  cbv zeta.
  destruct (win_esc_consumes_meta 1700000000000 1700000005000 hiddenWindow
              focusedWindow [] []
              (after (handleKeyDown 0 hiddenWindow [] metaEvent initialApp))
              eq_refl eq_refl)
    as (_ & _ & _ & _ & _ & _ & _ & H5 & H6 & _).
  split; [reflexivity|]. split; [reflexivity|]. split; [reflexivity|].
  split; [exact H5|exact H6].
Defined.

(** X23. Modifier keys never reach the text: a key-down of Shift, Alt,
    Control or Meta (recognised by key or by code) changes neither the
    store nor the text area and runs no hotkey, and only Meta is taken
    from the browser; a key-up of any key changes neither the store nor the
    text area. *)
Theorem modifier_keys_leave_text_alone (now : Z) (q : WindowQuery)
    (rnd : jsstring) (e e' : KeyboardEvent) (app : App) :
  is_modifier e = true ->
  let h := handleKeyDown now q rnd e app in
  app_store (after h) = app_store app
  /\ app_input (after h) = app_input app
  /\ windowAction h = None
  /\ (defaultPrevented h = true -> metaPressed (app_shell (after h)) = true)
  /\ app_store (handleKeyUp e' app) = app_store app
  /\ app_input (handleKeyUp e' app) = app_input app.
Proof.
  intros Hmod. cbv zeta.
  unfold handleKeyDown, handleKeyDown_begin, is_modifier, is_modifier_code
    in *.
  destruct (is_key "Shift" e), (is_code "ShiftLeft" e),
    (is_code "ShiftRight" e); cbn [orb];
    try (cbn [after windowAction defaultPrevented app_store app_input];
         repeat split; intros; congruence).
  destruct (is_key "Alt" e), (is_code "AltLeft" e), (is_code "AltRight" e);
    cbn [orb];
    try (cbn [after windowAction defaultPrevented app_store app_input];
         repeat split; intros; congruence).
  destruct (is_key "Control" e), (is_code "ControlLeft" e),
    (is_code "ControlRight" e); cbn [orb];
    try (cbn [after windowAction defaultPrevented app_store app_input];
         repeat split; intros; congruence).
  destruct (is_key "Meta" e), (is_code "MetaLeft" e), (is_code "MetaRight" e);
    cbn [orb] in Hmod |- *;
    try (cbn [after windowAction defaultPrevented app_store app_input
              app_shell metaPressed];
         repeat split; intros; congruence).
Qed.

Lemma modifier_keys_leave_text_alone_witness :
  let e := {| ev_key := js "Shift"; ev_code := js "ShiftRight" |} in
  let h := handleKeyDown 0 hiddenWindow [] e initialApp in
  is_modifier e = true
  /\ app_store (after h) = initialStore
  /\ shiftPressed (app_mods (after h)) = true
  /\ shiftPressed (app_mods (handleKeyUp e (after h))) = false
  /\ defaultPrevented h = false.
Proof.
  cbv zeta.
  destruct (modifier_keys_leave_text_alone 0 hiddenWindow []
              {| ev_key := js "Shift"; ev_code := js "ShiftRight" |}
              {| ev_key := js "Shift"; ev_code := js "ShiftRight" |}
              initialApp eq_refl) as (H1 & _).
  split; [reflexivity|]. split; [exact H1|].
  split; [reflexivity|]. split; reflexivity.
Defined.

(** ** Continuous play *)

Lemma match_terminator_Some (s : jsstring) (p : nat) :
  match_terminator s = Some p ->
  exists pre t rest,
    s = pre ++ t :: rest /\ length pre = p /\ is_terminator t = true
    /\ forall c, c ∈ pre -> is_terminator c = false.
Proof.
  revert p. induction s as [|c s IH]; intros p Hp; [discriminate Hp|].
  cbn [match_terminator] in Hp. destruct (is_terminator c) eqn:Hc.
  - injection Hp as <-. exists [], c, s. repeat split; auto.
    intros x Hx. inversion Hx.
  - destruct (match_terminator s) as [p'|] eqn:Hm; [|discriminate Hp].
    injection Hp as <-.
    destruct (IH p' eq_refl) as (pre & t & rest & -> & Hlen & Ht & Hpre).
    exists (c :: pre), t, rest. repeat split; auto.
    + cbn. rewrite Hlen. reflexivity.
    + intros x Hx. apply elem_of_cons in Hx as [->|Hx]; auto.
Qed.

Lemma match_terminator_None (s : jsstring) :
  (forall c, c ∈ s -> is_terminator c = false) -> match_terminator s = None.
Proof.
  induction s as [|c s IH]; intros H; [reflexivity|]. cbn [match_terminator].
  rewrite (H c) by apply list_elem_of_here.
  rewrite IH; [reflexivity|]. intros x Hx. apply H, list_elem_of_further, Hx.
Qed.

(** X24. Manual play never loses or duplicates text: with a non-empty
    composed text it adds exactly one queued entry, and the text of that
    entry followed by the new composed text is the old composed text. When
    continuous mode is off, or the text has no terminator, the entry holds
    the whole text and the composed text becomes empty. With an empty
    composed text it does nothing. *)
Theorem manual_play_conserves_text (now : Z) (rnd : jsstring) (st : Store) :
  let st' := handlePlay now rnd st in
  let txt := interceptedText st in
  (txt = [] -> st' = st)
  /\ (txt <> [] ->
      exists spoken,
        ttsHistory st' = provisional spoken now rnd :: ttsHistory st
        /\ spoken ++ interceptedText st' = txt
        /\ spoken <> []
        /\ (continuousPlay st = false
            \/ (forall c, c ∈ txt -> is_terminator c = false) ->
            spoken = txt)).
Proof.
  cbv zeta. unfold handlePlay, handlePlay_begin. split.
  - intros ->. reflexivity.
  - intros Hne. rewrite bool_decide_eq_false_2 by exact Hne.
    destruct (continuousPlay st) eqn:Hc.
    + destruct (match_terminator (interceptedText st)) as [p|] eqn:Hm.
      * exists (slice_to (p + 1) (interceptedText st)).
        cbn [handlePlay_resume]. unfold speakTextWithHistory.
        cbn [snd ttsHistory set_ttsHistory interceptedText set_interceptedText].
        split; [reflexivity|]. split; [apply take_drop|]. split.
        -- destruct (interceptedText st); [congruence|].
           rewrite Nat.add_1_r. discriminate.
        -- intros [H|H]; [discriminate H|].
           rewrite (match_terminator_None _ H) in Hm. discriminate Hm.
      * exists (interceptedText st). cbn [handlePlay_resume].
        unfold speakTextWithHistory.
        cbn [snd ttsHistory set_ttsHistory interceptedText set_interceptedText].
        rewrite app_nil_r. auto.
    + exists (interceptedText st). cbn [handlePlay_resume].
      unfold speakTextWithHistory.
      cbn [snd ttsHistory set_ttsHistory interceptedText set_interceptedText].
      rewrite app_nil_r. auto.
Qed.

Lemma manual_play_conserves_text_witness :
  let st := set_interceptedText (js "One. Two")
              (on_continuous_play_changed true initialStore) in
  let st1 := handlePlay 1700000000123 (js "k3j9x1a") st in
  let st2 := handlePlay 1700000000456 (js "p0q8w2b") st1 in
  interceptedText st <> []
  /\ map text (ttsHistory st1) = [js "One."]
  /\ interceptedText st1 = js " Two"
  /\ map text (ttsHistory st2) = [js " Two"; js "One."]
  /\ interceptedText st2 = [].
Proof.
  cbv zeta.
  destruct (manual_play_conserves_text 1700000000123 (js "k3j9x1a")
              (set_interceptedText (js "One. Two")
                 (on_continuous_play_changed true initialStore)))
    as [_ Hplay].
  assert (Hne : interceptedText
                  (set_interceptedText (js "One. Two")
                     (on_continuous_play_changed true initialStore)) <> [])
    by (vm_compute; discriminate).
  destruct (Hplay Hne) as (spoken & _).
  split; [exact Hne|]. repeat split.
Defined.

(** X25. Every utterance the watcher dispatches is one sentence: it ends
    with a terminator, contains no other terminator, and is the beginning
    of the composed text; what is left for the composed text is the rest,
    so that nothing is lost or duplicated by the split. *)
Theorem watcher_dispatches_one_sentence (newText : jsstring) (now : Z)
    (rnd : jsstring) (processing : bool) (st : Store) (remaining : jsstring) :
  deferredText (watch_interceptedText newText now rnd processing st)
  = Some remaining ->
  exists pre t,
    newText = pre ++ t :: remaining
    /\ is_terminator t = true
    /\ (forall c, c ∈ pre -> is_terminator c = false)
    /\ ttsHistory
         (storeAfter (watch_interceptedText newText now rnd processing st))
       = provisional (pre ++ [t]) now rnd :: ttsHistory st
    /\ interceptedText
         (storeAfter
            (run_deferredText
               (watch_interceptedText newText now rnd processing st)))
       = remaining.
Proof.
  unfold watch_interceptedText.
  destruct (negb (continuousPlay st) || bool_decide (newText = [])
            || isPlaying st || processing); [discriminate|].
  destruct (match_terminator newText) as [p|] eqn:Hm; [|discriminate].
  cbn [deferredText storeAfter]. intros [= <-].
  destruct (match_terminator_Some newText p Hm)
    as (pre & t & rest & -> & Hlen & Ht & Hpre).
  exists pre, t. unfold slice_from, slice_to.
  rewrite Nat.add_1_r, <- Hlen.
  replace (pre ++ t :: rest) with ((pre ++ [t]) ++ rest)
    by (rewrite <- app_assoc; reflexivity).
  replace (S (length pre)) with (length (pre ++ [t]))
    by (rewrite length_app; cbn; lia).
  rewrite drop_app_length, take_app_length.
  repeat split; auto. rewrite <- app_assoc. reflexivity.
Qed.

Lemma watcher_dispatches_one_sentence_witness :
  let w := watch_interceptedText (js "Hi! How are you? ") 1700000000123
             (js "k3j9x1a") false continuousStore in
  deferredText w = Some (js " How are you? ")
  /\ map text (ttsHistory (storeAfter w)) = [js "Hi!"]
  /\ interceptedText (storeAfter (run_deferredText w)) = js " How are you? ".
Proof.
  cbv zeta.
  destruct (watcher_dispatches_one_sentence (js "Hi! How are you? ")
              1700000000123 (js "k3j9x1a") false continuousStore
              (js " How are you? ") eq_refl)
    as (pre & t & _ & _ & _ & _ & Hrest).
  split; [reflexivity|]. split; [reflexivity|exact Hrest].
Defined.



Lemma watcher_guard_processing (newText : jsstring) (now : Z)
    (rnd : jsstring) (st : Store) :
  watch_interceptedText newText now rnd true st = mkWatched true None st.
Proof. unfold watch_interceptedText. rewrite !orb_true_r. reflexivity. Qed.

(** X27. The split does not re-trigger itself: after a dispatch the
    re-entrancy flag is up, so the watcher run caused by the text
    assignment of the split (or by any other change of the text) does
    nothing, even if the remaining text holds another terminator, until
    the timer lowers the flag; the next change of the text then dispatches
    again. *)
Theorem watcher_cooldown (newText text' : jsstring) (now now' : Z)
    (rnd rnd' : jsstring) (st : Store) (remaining : jsstring) :
  let w := watch_interceptedText newText now rnd false st in
  let w1 := run_deferredText w in
  deferredText w = Some remaining ->
  isProcessingSpeech w1 = true
  /\ watch_interceptedText text' now' rnd' (isProcessingSpeech w1)
       (storeAfter w1)
     = mkWatched true None (storeAfter w1)
  /\ isProcessingSpeech (processing_timeout w1) = false
  /\ continuousPlay (storeAfter w1) = true
  /\ isPlaying (storeAfter w1) = false.
Proof.
  cbv zeta. intros Hd.
  assert (Hw : exists spoken,
             watch_interceptedText newText now rnd false st
             = mkWatched true (Some remaining)
                 (snd (speakTextWithHistory spoken now rnd st))
             /\ continuousPlay st = true /\ isPlaying st = false).
  { revert Hd. unfold watch_interceptedText.
    destruct (continuousPlay st); [|discriminate].
    destruct (bool_decide (newText = [])); [discriminate|].
    destruct (isPlaying st); [discriminate|]. cbn [negb orb].
    destruct (match_terminator newText) as [p|]; [|discriminate].
    cbn [deferredText]. intros [= <-]. eauto. }
  destruct Hw as (spoken & -> & Hc & Hp).
  cbn [run_deferredText deferredText isProcessingSpeech storeAfter
       processing_timeout].
  split; [reflexivity|]. split; [apply watcher_guard_processing|].
  split; [reflexivity|]. split; [exact Hc|exact Hp].
Qed.

Lemma watcher_cooldown_witness :
  let w := watch_interceptedText (js "Hi! How are you? ") 1700000000123
             (js "k3j9x1a") false continuousStore in
  let w1 := run_deferredText w in
  deferredText w = Some (js " How are you? ")
  /\ watch_interceptedText (js " How are you? ") 1700000000124 (js "p0q8w2b")
       (isProcessingSpeech w1) (storeAfter w1)
     = mkWatched true None (storeAfter w1)
  /\ map text
       (ttsHistory
          (storeAfter
             (watch_interceptedText (js " How are you? x") 1700000000300
                (js "p0q8w2b") (isProcessingSpeech (processing_timeout w1))
                (storeAfter w1))))
     = [js " How are you?"; js "Hi!"].
Proof.
  cbv zeta.
  destruct (watcher_cooldown (js "Hi! How are you? ") (js " How are you? ")
              1700000000123 1700000000124 (js "k3j9x1a") (js "p0q8w2b")
              continuousStore (js " How are you? ") eq_refl)
    as (_ & Hsilent & _).
  split; [reflexivity|]. split; [exact Hsilent|reflexivity].
Defined.

(** ** Hotkey, display and watermark *)

(** X28. What a hotkey trigger issues when the window state is the same
    for the handler and for [showWindowOverlay]. A debounced trigger issues
    nothing and changes nothing, not even the debounce clock. In overlay
    mode an accepted trigger always issues at least one call and restarts
    the debounce clock; it never changes the keyboard part of the store,
    and only the show branch (window minimized or not visible) can raise
    the saved-window flag. *)
Theorem hotkey_calls_by_window_state (now : Z) (q : WindowQuery)
    (ok_save : bool) (ws : WindowStore) (sh : Shell) :
  let r := handleWinEscHotkey_calls now q q ok_save ws sh in
  (now - lastHotkeyCallTime sh < HOTKEY_DEBOUNCE_MS -> r = ([], ws, sh))
  /\ (HOTKEY_DEBOUNCE_MS <= now - lastHotkeyCallTime sh ->
      hotkeyMode (keyboard ws) = overlay_call ->
      fst (fst r) <> []
      /\ lastHotkeyCallTime (snd r) = now
      /\ keyboard (snd (fst r)) = keyboard ws
      /\ (isMinimized q || negb (isVisible q) = false ->
          snd (fst r) = ws)).
Proof.
  cbv zeta. unfold handleWinEscHotkey_calls, handleWinEscHotkey. split.
  - intros Hnear.
    destruct (Z.ltb_spec (now - lastHotkeyCallTime sh) HOTKEY_DEBOUNCE_MS);
      [reflexivity|lia].
  - intros Hfar Hmode.
    destruct (Z.ltb_spec (now - lastHotkeyCallTime sh) HOTKEY_DEBOUNCE_MS);
      [lia|].
    rewrite Hmode, bool_decide_eq_true_2 by reflexivity. cbn [negb].
    unfold showWindowOverlay, hideWindowAndRestoreFocus.
    destruct (isMinimized q || negb (isVisible q)) eqn:Hshow.
    + cbn [negb andb]. destruct (overlayPreviousWindowSaved ws), ok_save;
        cbn [negb fst snd lastHotkeyCallTime keyboard];
        repeat split; try discriminate; intros Hcs; discriminate Hcs.
    + destruct (isFocused q); cbn [fst snd lastHotkeyCallTime];
        repeat split; intros Hcs; discriminate Hcs.
Qed.

Lemma hotkey_calls_by_window_state_witness :
  let T := 1700000000000 in
  HOTKEY_DEBOUNCE_MS <= T - lastHotkeyCallTime initialShell
  /\ hotkeyMode (keyboard initialWindowStore) = overlay_call
  /\ handleWinEscHotkey_calls T hiddenWindow hiddenWindow true
       initialWindowStore initialShell
     = ([save_previous_window; show_window_on_top],
        mkWindowStore initialStore true false false, mkShell T false)
  /\ handleWinEscHotkey_calls (T + 100) focusedWindow focusedWindow true
       (mkWindowStore initialStore true false false) (mkShell T false)
     = ([], mkWindowStore initialStore true false false, mkShell T false).
Proof.
  cbv zeta.
  destruct (hotkey_calls_by_window_state (1700000000000 + 100) focusedWindow
              true (mkWindowStore initialStore true false false)
              (mkShell 1700000000000 false)) as [Hnear _].
  split; [vm_compute; discriminate|]. split; [reflexivity|].
  split; [reflexivity|]. apply Hnear. reflexivity.
Defined.

Lemma processInterceptedKey_interceptedKeys (key : KeyEvent) (st : Store) :
  interceptedKeys (processInterceptedKey key st) = interceptedKeys st.
Proof.
  destruct (processInterceptedKey_writes key st) as (t & p & ->). reflexivity.
Qed.

Lemma scheduleTextUpdate_interceptedKeys (st : Store) :
  interceptedKeys (scheduleTextUpdate st) = interceptedKeys st.
Proof. destruct (scheduleTextUpdate_fields st) as [b ->]. reflexivity. Qed.

Lemma on_key_intercepted_interceptedKeys (key : KeyEvent) (st : Store) :
  interceptedKeys (on_key_intercepted key st) = interceptedKeys st ++ [key].
Proof.
  unfold on_key_intercepted.
  cbn [blockingEnabled set_latestKey set_interceptedKeys
       set_lastProcessedSeqNum].
  destruct (blockingEnabled st); [|reflexivity].
  rewrite scheduleTextUpdate_interceptedKeys,
    processInterceptedKey_interceptedKeys. reflexivity.
Qed.

Lemma fetchKeys_resume_interceptedKeys (argLimit : Z)
    (r : option KeysResponse) (st : Store) :
  interceptedKeys (fetchKeys_resume argLimit r st) = interceptedKeys st.
Proof.
  unfold fetchKeys_resume. cbn [interceptedKeys set_fetchingKeys].
  destruct r as [r|]; [|reflexivity].
  destruct (blockingEnabled st && bool_decide (0 < length (keys r))%nat);
    [|reflexivity].
  assert (Hfold : forall ks s,
             interceptedKeys
               (foldl (fun s k => processInterceptedKey k s) s ks)
             = interceptedKeys s).
  { induction ks as [|k ks IH]; intros s; [reflexivity|]. cbn [foldl].
    rewrite IH. apply processInterceptedKey_interceptedKeys. }
  destruct (Math_max _ _) as [[m|]|]; [| |apply Hfold];
    rewrite scheduleTextUpdate_interceptedKeys; [|apply Hfold].
  cbn [interceptedKeys set_lastProcessedSeqNum]. apply Hfold.
Qed.

(** X29. The key display is a window on the ten most recent pushed keys,
    newest first: each pushed key, whether blocking is enabled or not,
    enters at the front and the rest slides by one; a pull never changes
    what is displayed. *)
Theorem display_is_sliding_window (argLimit : Z) (key : KeyEvent)
    (r : option KeysResponse) (st : Store) :
  (length (displayKeys st) <= 10)%nat
  /\ displayKeys (on_key_intercepted key st) = key :: take 9 (displayKeys st)
  /\ latestKey (on_key_intercepted key st) = Some key
  /\ displayKeys (fetchKeys_resume argLimit r st) = displayKeys st.
Proof.
  unfold displayKeys. split; [rewrite length_take; lia|]. split; [|split].
  - rewrite on_key_intercepted_interceptedKeys, reverse_app.
    cbn [reverse rev_append app take]. rewrite take_take. reflexivity.
  - unfold on_key_intercepted.
    cbn [blockingEnabled set_latestKey set_interceptedKeys
         set_lastProcessedSeqNum].
    destruct (blockingEnabled st); [|reflexivity].
    match goal with
    | |- context [scheduleTextUpdate ?s] =>
        destruct (scheduleTextUpdate_fields s) as [b ->]
    end.
    match goal with
    | |- context [processInterceptedKey ?k ?s] =>
        destruct (processInterceptedKey_writes k s) as (t & p & ->)
    end.
    reflexivity.
  - rewrite fetchKeys_resume_interceptedKeys. reflexivity.
Qed.

(** X30. Without a race the pull keeps the watermark monotone: when no
    push is handled between the request and the answer, and the answer
    honours the request, handling the answer does not lower the watermark;
    with blocking enabled and an answer that holds no more keys than
    [Math.max] accepts arguments, every key of the answer is then at or
    below the new watermark, so the next pull does not ask for it again.
    Beyond that limit the exception leaves the watermark where it was. *)
Theorem pull_without_race_keeps_watermark (argLimit : Z) (r : KeysResponse)
    (st : Store) :
  fetchingKeys st = false ->
  -1 <= lastProcessedSeqNum st ->
  (forall afterSeq, fst (fetchKeys_begin st) = Some afterSeq ->
                    honours afterSeq r) ->
  let st' := fetchKeys_resume argLimit (Some r) (snd (fetchKeys_begin st)) in
  lastProcessedSeqNum st <= lastProcessedSeqNum st'
  /\ (blockingEnabled st = true ->
      Z.of_nat (length (keys r)) <= argLimit ->
      forall k, k ∈ keys r -> seq_num k <= lastProcessedSeqNum st')
  /\ (argLimit < Z.of_nat (length (keys r)) ->
      lastProcessedSeqNum st' = lastProcessedSeqNum st).
Proof.
  intros Hidle Hw Hhon. cbv zeta. unfold fetchKeys_begin in *.
  rewrite Hidle in *. cbn [fst snd] in *.
  replace (lastProcessedSeqNum (set_fetchingKeys true st))
    with (lastProcessedSeqNum st) in Hhon by reflexivity.
  specialize (Hhon _ eq_refl).
  assert (Habove : forall k, k ∈ keys r -> lastProcessedSeqNum st <= seq_num k).
  { intros k Hk. destruct (Hhon k Hk) as [H0 Hafter].
    destruct (Z.leb_spec 0 (lastProcessedSeqNum st)); lia. }
  split; [|split].
  - apply (fetchKeys_resume_watermark argLimit r (set_fetchingKeys true st)).
    exact Habove.
  - intros Hb Hlim k Hk. unfold fetchKeys_resume.
    cbn [blockingEnabled set_fetchingKeys lastProcessedSeqNum]. rewrite Hb.
    assert (Hlen : (0 < length (keys r))%nat).
    { destruct (keys r); [inversion Hk|cbn; lia]. }
    rewrite bool_decide_eq_true_2 by exact Hlen. cbn [andb].
    destruct (Math_max_within_limit argLimit (keys r) Hlim Hlen)
      as (m & -> & Hm).
    rewrite scheduleTextUpdate_watermark.
    cbn [lastProcessedSeqNum set_lastProcessedSeqNum]. apply Hm, Hk.
  - intros Hlim. unfold fetchKeys_resume.
    cbn [blockingEnabled set_fetchingKeys lastProcessedSeqNum].
    destruct (blockingEnabled st && bool_decide (0 < length (keys r))%nat);
      [|reflexivity].
    rewrite (Math_max_beyond_limit argLimit (keys r) Hlim).
    rewrite foldl_processInterceptedKey_watermark. reflexivity.
Qed.

Lemma pull_without_race_keeps_watermark_witness :
  let st := on_key_intercepted (key_named "A" 3) blockingStore in
  let r := {| keys := [key_named "C" 5; key_named "B" 4];
              latest_key := None |} in
  fetchingKeys st = false
  /\ -1 <= lastProcessedSeqNum st
  /\ fst (fetchKeys_begin st) = Some (Some 3)
  /\ honours (Some 3) r
  /\ lastProcessedSeqNum st
     <= lastProcessedSeqNum
          (fetchKeys_resume sampleArgLimit (Some r) (snd (fetchKeys_begin st)))
  /\ lastProcessedSeqNum
       (fetchKeys_resume sampleArgLimit (Some r) (snd (fetchKeys_begin st)))
     = 5.
Proof.
  cbv zeta.
  assert (Hhon : honours (Some 3)
                   {| keys := [key_named "C" 5; key_named "B" 4];
                      latest_key := None |}).
  { intros k Hk. apply list_elem_of_In in Hk.
    destruct Hk as [<-|[<-|[]]]; vm_compute; split; discriminate || reflexivity. }
  destruct (pull_without_race_keeps_watermark sampleArgLimit
              {| keys := [key_named "C" 5; key_named "B" 4];
                 latest_key := None |}
              (on_key_intercepted (key_named "A" 3) blockingStore)
              eq_refl) as [Hmono _].
  - vm_compute. discriminate.
  - intros a [= <-]. exact Hhon.
  - split; [reflexivity|]. split; [vm_compute; discriminate|].
    split; [reflexivity|]. split; [exact Hhon|].
    split; [exact Hmono|reflexivity].
Defined.

(** ** Delivery of key events over the two channels *)





























(** ** The watermark along a run *)

Lemma race_free_step_watermark (argLimit : Z) (req : option Z) (e : KeyStep)
    (st : Store) :
  request_matches req st ->
  race_free_step req e st ->
  lastProcessedSeqNum st <= lastProcessedSeqNum (key_step argLimit e st)
  /\ request_matches (next_request req e st) (key_step argLimit e st).
Proof.
  unfold request_matches. intros Hreq He.
  destruct e as [k| |r|]; cbn [key_step next_request race_free_step] in *.
  - split; [apply on_key_intercepted_watermark|].
    rewrite on_key_intercepted_fetchingKeys, He. discriminate.
  - unfold fetchKeys_begin. destruct (fetchingKeys st) eqn:Hf; cbn [fst snd].
    + split; [lia|]. rewrite Hf. exact Hreq.
    + split; [cbn; lia|]. intros _. reflexivity.
  - destruct (fetchingKeys st) eqn:Hf.
    + split; [|intros Hf'; discriminate Hf'].
      destruct r as [r|]; [|cbn; lia].
      apply fetchKeys_resume_watermark. intros k Hk.
      specialize (He eq_refl). rewrite (Hreq eq_refl) in He.
      destruct (He k Hk) as [H0 Hafter].
      destruct (Z.leb_spec 0 (lastProcessedSeqNum st)); lia.
    + split; [lia|]. rewrite Hf. discriminate.
  - destruct (textUpdateScheduled st); [|split; [lia|exact Hreq]].
    split; [cbn; lia|exact Hreq].
Qed.

Lemma race_free_watermark (argLimit : Z) (es : list KeyStep) :
  forall (req : option Z) (st : Store),
    request_matches req st ->
    race_free argLimit req es st ->
    forall es1 e es2, es = es1 ++ e :: es2 ->
      lastProcessedSeqNum (key_run argLimit es1 st)
      <= lastProcessedSeqNum (key_step argLimit e (key_run argLimit es1 st)).
Proof.
  induction es as [|e0 es IH]; intros req st Hreq Hrun es1 e es2 Hes.
  - destruct es1; discriminate Hes.
  - destruct Hrun as [He0 Hrun].
    destruct (race_free_step_watermark argLimit req e0 st Hreq He0)
      as [Hmono Hreq'].
    destruct es1 as [|e1 es1]; cbn [app] in Hes.
    + injection Hes as <- _. exact Hmono.
    + injection Hes as <- Hes.
      change (key_run argLimit (e0 :: es1) st)
        with (key_run argLimit es1 (key_step argLimit e0 st)).
      exact (IH _ _ Hreq' Hrun es1 e es2 Hes).
Qed.

(** Pushes and frames with no pull outstanding are race-free. *)
Lemma race_free_pushes (argLimit : Z) (req : option Z) (es : list KeyStep)
    (st : Store) :
  fetchingKeys st = false ->
  Forall push_or_frame es ->
  race_free argLimit req es st.
Proof.
  revert st. induction es as [|e es IH]; intros st Hidle Hes; [exact I|].
  apply Forall_cons in Hes as [He Hes].
  destruct e as [k| |r|]; cbn [push_or_frame] in He; try destruct He;
    cbn [race_free race_free_step next_request key_step].
  - split; [exact Hidle|]. apply IH; [|exact Hes].
    rewrite on_key_intercepted_fetchingKeys. exact Hidle.
  - split; [exact I|]. apply IH; [|exact Hes].
    destruct (textUpdateScheduled st); [exact Hidle|exact Hidle].
Qed.

(** C2 (as the code has it). The push listener never lowers the watermark.
    Along every run of pushes, pulls and frames without a race (no push is
    handled between the request of a pull and its answer, and each answer
    honours its request), no step lowers the watermark: every update made
    by the listener and every update made by [fetchKeys] leaves it at or
    above its previous value. A run that starts as the program does, with
    one pull that is answered (with sequence numbers from 0) before the
    first push is handled, is such a run. *)
Theorem watermark_monotone_without_race (argLimit : Z) (es : list KeyStep)
    (st : Store) :
  fetchingKeys st = false ->
  race_free argLimit None es st ->
  (forall key s,
      lastProcessedSeqNum s <= lastProcessedSeqNum (on_key_intercepted key s))
  /\ (forall es1 e es2, es = es1 ++ e :: es2 ->
        lastProcessedSeqNum (key_run argLimit es1 st)
        <= lastProcessedSeqNum
             (key_step argLimit e (key_run argLimit es1 st)))
  /\ (forall r rest,
        lastProcessedSeqNum st < 0 ->
        (forall k, k ∈ keys r -> 0 <= seq_num k) ->
        Forall push_or_frame rest ->
        race_free argLimit None ([PullBegin; PullEnd (Some r)] ++ rest) st).
Proof.
  intros Hidle Hrun. split; [|split].
  - intros key s. apply on_key_intercepted_watermark.
  - apply (race_free_watermark argLimit es None st); [|exact Hrun].
    intros Hf. rewrite Hidle in Hf. discriminate Hf.
  - intros r rest Hw Hseq Hrest.
    cbn [app race_free race_free_step next_request key_step].
    unfold fetchKeys_begin. rewrite Hidle. cbn [fst snd].
    split; [exact I|].
    replace (lastProcessedSeqNum (set_fetchingKeys true st))
      with (lastProcessedSeqNum st) by reflexivity.
    destruct (Z.leb_spec 0 (lastProcessedSeqNum st)); [lia|].
    split.
    + intros _ k Hk. split; [apply Hseq, Hk|exact I].
    + apply race_free_pushes; [reflexivity|exact Hrest].
Qed.

Lemma watermark_monotone_without_race_witness :
  let a := key_named "A" 0 in
  let b := key_named "B" 1 in
  let d := key_named "D" 3 in
  let es1 := [ PullBegin; Frame;
               PullEnd (Some {| keys := [b; a]; latest_key := Some b |});
               PushKey (key_named "C" 2); PullBegin ] in
  let e := PullEnd (Some {| keys := [d]; latest_key := Some d |}) in
  fetchingKeys blockingStore = false
  /\ race_free sampleArgLimit None (es1 ++ [e]) blockingStore
  /\ lastProcessedSeqNum (key_run sampleArgLimit es1 blockingStore) = 2
  /\ lastProcessedSeqNum (key_run sampleArgLimit es1 blockingStore)
     <= lastProcessedSeqNum
          (key_step sampleArgLimit e (key_run sampleArgLimit es1 blockingStore)).
Proof.
  cbv zeta.
  assert (Hrun : race_free sampleArgLimit None
                   ([ PullBegin; Frame;
                      PullEnd (Some {| keys := [key_named "B" 1;
                                                key_named "A" 0];
                                       latest_key := Some (key_named "B" 1) |});
                      PushKey (key_named "C" 2); PullBegin ]
                    ++ [PullEnd (Some {| keys := [key_named "D" 3];
                                         latest_key :=
                                           Some (key_named "D" 3) |})])
                   blockingStore).
  { cbn [app race_free race_free_step]. split; [exact I|]. split; [exact I|].
    split.
    { intros _ k Hk. apply list_elem_of_In in Hk.
      destruct Hk as [<-|[<-|[]]]; vm_compute; split; discriminate || exact I. }
    split; [reflexivity|]. split; [exact I|]. split; [|exact I].
    intros _ k Hk. apply list_elem_of_In in Hk.
    destruct Hk as [<-|[]]. vm_compute. split; discriminate || reflexivity. }
  split; [reflexivity|]. split; [exact Hrun|]. split; [reflexivity|].
  destruct (watermark_monotone_without_race sampleArgLimit _ blockingStore
              eq_refl Hrun) as (_ & Hmono & _).
  apply (Hmono _ _ []). reflexivity.
Defined.

(** C2 as stated fails on a pull that completes after pushes arrived during
    its await: the pull is started with nothing applied; keys 0, 1 and 2 are
    pushed meanwhile, which raises the watermark to 2; the answer lists keys
    0 and 1 only, and the pull assigns the largest [seq_num] of its own
    batch: the watermark falls from 2 to 1. It falls as well, with no push
    in between, when the answer lists a key that the request excluded. *)
Lemma pull_in_flight_lowers_watermark :
  let k0 := key_named "A" 0 in
  let k1 := key_named "B" 1 in
  let k2 := key_named "C" 2 in
  let answer := Some {| keys := [k0; k1]; latest_key := Some k1 |} in
  let st := key_run sampleArgLimit [PullBegin; PushKey k0; PushKey k1; PushKey k2]
              blockingStore in
  let st' := key_run sampleArgLimit [PushKey k2; PullBegin] blockingStore in
  lastProcessedSeqNum st = 2
  /\ lastProcessedSeqNum (key_step sampleArgLimit (PullEnd answer) st) = 1
  /\ lastProcessedSeqNum st' = 2
  /\ lastProcessedSeqNum (key_step sampleArgLimit (PullEnd answer) st') = 1.
Proof. vm_compute. repeat split. Qed.
